(** * Key-matrix debounce strategies of [quantum/debounce]

  A shallow embedding of three debounce strategies:
  - the asymmetric per-key strategy (one byte per key and per row),
  - the sparse strategy that threads the keys in flight on an intrusive
    list through a flat array,
  - the quiescing three-state strategy of [fancy.c],
  together with the properties their specification states about them.

  Matrix rows ([matrix_row_t]) and counters ([uint8_t]) are integers of
  [Z] with the truncation of every store written out; arrays are lists
  read with [!!!] and written with [<[i:=v]>]; the C loops are folded by
  [for_loop]; the list walk of the sparse strategy is a fuelled
  recursion. *)

From Stdlib Require Import ZArith Bool Lia.
From stdpp Require Import base list.

Local Open Scope Z_scope.

(** ** Configuration

  The compile-time constants the three files read.  [MATRIX_COLS] and
  the width of [matrix_row_t] come from the keyboard's [config.h] and
  [matrix.h]; the windows default per file (see the [default]
  configurations of each module). *)

Class Config := {
  MATRIX_COLS : nat;        (* columns of the matrix *)
  ROW_BITS : nat;           (* width of matrix_row_t in bits *)
  TIMER_BITS : nat;         (* width of fast_timer_t in bits *)
  DEBOUNCE_DOWN : Z;        (* window armed for a press *)
  DEBOUNCE_UP : Z;          (* window armed for a release *)
  DEBOUNCE_QUIESCE : Z      (* settling period of fancy.c *)
}.

(** A configuration the build accepts: the columns fit a row word
  ([matrix.h] offers rows of 8, 16 and 32 bits) and the windows fit the
  byte-wide counters without being zero. *)
Definition config_ok `{Config} : Prop :=
  (MATRIX_COLS <= ROW_BITS <= 32)%nat /\
  0 < DEBOUNCE_DOWN <= 255 /\
  0 < DEBOUNCE_UP <= 255 /\
  0 <= DEBOUNCE_QUIESCE <= 255.

(** ** Machine integers *)

(** A store into a [uint8_t]. *)
Definition uint8 (z : Z) : Z := z mod 256.

(** A store into a [matrix_row_t]. *)
Definition row_t `{Config} (z : Z) : Z := z mod 2 ^ Z.of_nat ROW_BITS.

(** A C condition: an integer is true when it is not zero. *)
Definition nonzero (z : Z) : bool := negb (z =? 0).

(** Bit [c] of a row word, for a column given as a natural number. *)
Definition row_bit (w : Z) (c : nat) : bool := Z.testbit w (Z.of_nat c).

(** [for (i = start; i < start + n; ++i) body], on the loop-carried
  variables [a]. *)
Fixpoint for_loop {A : Type} (n : nat) (i : nat) (body : nat -> A -> A) (a : A) : A :=
  match n with
| O => a
| S n' => for_loop n' (S i) body (body i a)
  end.

(** The number of [i < n] that satisfy [f]. *)
Fixpoint count_upto (f : nat -> bool) (n : nat) : nat :=
  match n with
| O => O
| S n' => (count_upto f n' + (if f n' then 1 else 0))%nat
  end.

(** Modelled from the spec: [TIMER_DIFF_FAST] and [timer_elapsed] live in
  [timer.h], which is not part of the sources at hand; the specification
  asks for a modular subtraction of two unsigned clock readings of the
  timer's width. *)
Definition timer_diff (bits : nat) (a b : Z) : Z := (a - b) mod 2 ^ Z.of_nat bits.

(** One call of the filter entry as the scan loop makes it: the clock
    reading at the call, the raw matrix and the change flag. *)
Record call := { c_now : Z; c_raw : list Z; c_changed : bool }.

(** One call of the filter entry seen after its clock accounting: the
    elapsed delta it applies, the raw matrix and the change flag. *)
Record frame := { f_elapsed : Z; f_raw : list Z; f_changed : bool }.

(** The time a sequence of calls lets pass, by the deltas they apply. *)
Fixpoint total_elapsed (frames : list frame) : Z :=
  match frames with
  | [] => 0
  | f :: frames' => f_elapsed f + total_elapsed frames'
  end.

(** ** Facts on machine integers and loops *)

Lemma uint8_range z : 0 <= uint8 z <= 255.
Proof. unfold uint8. pose proof (Z.mod_pos_bound z 256). lia. Qed.

Lemma uint8_small z : 0 <= z <= 255 -> uint8 z = z.
Proof. intros. unfold uint8. apply Z.mod_small. lia. Qed.

Lemma nonzero_true z : nonzero z = true <-> z <> 0.
Proof. unfold nonzero. destruct (Z.eqb_spec z 0); simpl; split; intros; congruence. Qed.

Lemma nonzero_false z : nonzero z = false <-> z = 0.
Proof. unfold nonzero. destruct (Z.eqb_spec z 0); simpl; split; intros; congruence. Qed.

Lemma land_pow2 x c : 0 <= c -> Z.land x (2 ^ c) = if Z.testbit x c then 2 ^ c else 0.
Proof.
  intros Hc. apply Z.bits_inj'. intros i Hi.
  rewrite Z.land_spec, Z.pow2_bits_eqb by lia.
  destruct (Z.eqb_spec c i) as [->|Hne].
  - destruct (Z.testbit x i); simpl.
    + rewrite Z.pow2_bits_eqb by lia. now rewrite Z.eqb_refl.
    + now rewrite Z.bits_0.
  - rewrite andb_false_r. destruct (Z.testbit x c).
    + rewrite Z.pow2_bits_eqb by lia. symmetry. now apply Z.eqb_neq.
    + now rewrite Z.bits_0.
Qed.

Lemma nonzero_land_pow2 x c : 0 <= c -> nonzero (Z.land x (2 ^ c)) = Z.testbit x c.
Proof.
  intros Hc. rewrite land_pow2 by lia. destruct (Z.testbit x c); [|reflexivity].
  apply nonzero_true. pose proof (Z.pow_pos_nonneg 2 c). lia.
Qed.

Lemma for_loop_inv {A : Type} (P : nat -> A -> Prop) body n i (a : A) :
  P i a ->
  (forall k x, (i <= k < i + n)%nat -> P k x -> P (S k) (body k x)) ->
  P (i + n)%nat (for_loop n i body a).
Proof.
  revert i a. induction n as [|n IH]; intros i a Hi Hstep; simpl.
  - now rewrite Nat.add_0_r.
  - replace (i + S n)%nat with (S i + n)%nat by lia.
  apply IH.
    + apply Hstep; [lia | exact Hi].
    + intros k x Hk. apply Hstep. lia.
Qed.

Section RowWords.
Context `{cfg : Config}.

Lemma row_t_bit z (c : nat) : (c < ROW_BITS)%nat -> row_bit (row_t z) c = row_bit z c.
Proof.
  intros Hc. unfold row_bit, row_t. apply Z.mod_pow2_bits_low. lia.
Qed.

Lemma row_t_pow2 (c : nat) : (c < ROW_BITS)%nat -> row_t (2 ^ Z.of_nat c) = 2 ^ Z.of_nat c.
Proof.
  intros Hc. unfold row_t. apply Z.mod_small. split.
  - apply Z.pow_nonneg. lia.
  - apply Z.pow_lt_mono_r; lia.
Qed.

Lemma row_t_shift (c : nat) :
  (S c < ROW_BITS)%nat -> row_t (Z.shiftl (2 ^ Z.of_nat c) 1) = 2 ^ Z.of_nat (S c).
Proof.
  intros Hc. rewrite Z.shiftl_mul_pow2 by lia. change (2 ^ 1) with 2.
  rewrite <- (row_t_pow2 (S c)) by lia.
  f_equal. rewrite Nat2Z.inj_succ, Z.pow_succ_r by lia. lia.
Qed.
End RowWords.


Lemma row_bit_lxor a b c : row_bit (Z.lxor a b) c = xorb (row_bit a c) (row_bit b c).
Proof. unfold row_bit. apply Z.lxor_spec. Qed.

Lemma row_bit_pow2 (k c : nat) : row_bit (2 ^ Z.of_nat k) c = Nat.eqb k c.
Proof.
  unfold row_bit. rewrite Z.pow2_bits_eqb by lia.
  destruct (Nat.eqb_spec k c) as [->|Hne].
  - apply Z.eqb_refl.
  - apply Z.eqb_neq. lia.
Qed.

(** Cell [(r, c)] of a row-major array of [cols] columns. *)
Lemma cell_index_lt (cols rows r c : nat) :
  (r < rows)%nat -> (c < cols)%nat -> (r * cols + c < rows * cols)%nat.
Proof. intros Hr Hc. nia. Qed.

Lemma cell_index_inj (cols r c r' c' : nat) :
  (c < cols)%nat -> (c' < cols)%nat ->
  (r * cols + c = r' * cols + c')%nat -> r = r' /\ c = c'.
Proof. intros Hc Hc' He. assert (r = r') by nia. subst. split; [reflexivity|lia]. Qed.

Lemma count_upto_le f n : (count_upto f n <= n)%nat.
Proof. induction n as [|n IH]; simpl; [lia|]. destruct (f n); lia. Qed.

Lemma count_upto_ext f g n :
  (forall i, (i < n)%nat -> f i = g i) -> count_upto f n = count_upto g n.
Proof.
  induction n as [|n IH]; intros H; simpl; [reflexivity|].
  rewrite IH, (H n) by (intros; try apply H; lia). reflexivity.
Qed.

(** Changing [f] at one point [k] moves the count by that point alone. *)
Lemma count_upto_update f g n k :
  (k < n)%nat ->
  (forall i, (i < n)%nat -> i <> k -> f i = g i) ->
  (count_upto f n + (if g k then 1 else 0) = count_upto g n + (if f k then 1 else 0))%nat.
Proof.
  induction n as [|n IH]; intros Hk H; [lia|]. simpl.
  destruct (Nat.eq_dec k n) as [->|Hne].
  - rewrite (count_upto_ext f g n) by (intros; apply H; lia). lia.
  - rewrite (H n) by lia. specialize (IH ltac:(lia) ltac:(intros; apply H; lia)). lia.
Qed.

Lemma count_upto_zero f n :
  count_upto f n = O -> forall i, (i < n)%nat -> f i = false.
Proof.
  induction n as [|n IH]; intros H i Hi; [lia|]. simpl in H.
  destruct (f n) eqn:E; [lia|].
  destruct (Nat.eq_dec i n) as [->|Hne]; [exact E|]. apply IH; lia.
Qed.

Lemma count_upto_false f n :
  (forall i, (i < n)%nat -> f i = false) -> count_upto f n = O.
Proof.
  induction n as [|n IH]; intros H; simpl; [reflexivity|].
  rewrite IH, (H n) by (intros; try apply H; lia). reflexivity.
Qed.

Lemma count_upto_pos f n i : (i < n)%nat -> f i = true -> (0 < count_upto f n)%nat.
Proof.
  intros Hi Hf. destruct (count_upto f n) eqn:E; [|lia].
  rewrite (count_upto_zero f n E i Hi) in Hf. discriminate.
Qed.

Lemma count_upto_lt f n i : (i < n)%nat -> f i = false -> (count_upto f n < n)%nat.
Proof.
  revert i. induction n as [|n IH]; intros i Hi Hf; [lia|]. simpl.
  destruct (Nat.eq_dec i n) as [->|Hne].
  - rewrite Hf. pose proof (count_upto_le f n). lia.
  - specialize (IH i ltac:(lia) Hf). destruct (f n); lia.
Qed.

(** The masked copy [(~m & cooked) | (m & raw)] for the mask of column [k]. *)
Lemma row_bit_masked_copy (cooked raw : Z) (k j : nat) :
  row_bit (Z.lor (Z.land (Z.lnot (2 ^ Z.of_nat k)) cooked) (Z.land (2 ^ Z.of_nat k) raw)) j =
  if Nat.eqb k j then row_bit raw j else row_bit cooked j.
Proof.
  unfold row_bit. rewrite Z.lor_spec, !Z.land_spec, Z.lnot_spec by lia.
  fold (row_bit (2 ^ Z.of_nat k) j). rewrite row_bit_pow2.
  destruct (Nat.eqb k j); simpl; [reflexivity|]. now rewrite orb_false_r.
Qed.

(** The single-bit commit [cooked ^ ((cooked ^ raw) & m)] for the mask
  of column [k]. *)
Lemma row_bit_xor_commit (cooked raw : Z) (k j : nat) :
  row_bit (Z.lxor cooked (Z.land (Z.lxor cooked raw) (2 ^ Z.of_nat k))) j =
  if Nat.eqb k j then row_bit raw j else row_bit cooked j.
Proof.
  rewrite row_bit_lxor. unfold row_bit at 2. rewrite Z.land_spec.
  fold (row_bit (Z.lxor cooked raw) j). fold (row_bit (2 ^ Z.of_nat k) j).
  rewrite row_bit_lxor, row_bit_pow2.
  destruct (Nat.eqb k j), (row_bit cooked j), (row_bit raw j); reflexivity.
Qed.

Lemma cell_index_div (cols r c : nat) : (c < cols)%nat -> ((r * cols + c) / cols)%nat = r.
Proof. intros Hc. symmetry. apply (Nat.div_unique _ _ r c); lia. Qed.

Lemma cell_index_mod (cols r c : nat) : (c < cols)%nat -> ((r * cols + c) mod cols)%nat = c.
Proof. intros Hc. symmetry. apply (Nat.mod_unique _ _ r c); lia. Qed.

Lemma total_elapsed_nonneg frames :
  Forall (fun f => 0 <= f_elapsed f) frames -> 0 <= total_elapsed frames.
Proof. induction 1; simpl; lia. Qed.

(** Two loops whose bodies keep a relation end in related states. *)
Lemma for_loop_rel {A B : Type} (R : A -> B -> Prop) (f : nat -> A -> A) (g : nat -> B -> B)
    n i (a : A) (b : B) :
  R a b ->
  (forall k x y, R x y -> R (f k x) (g k y)) ->
  R (for_loop n i f a) (for_loop n i g b).
Proof.
  intros Hab Hstep. revert i a b Hab.
  induction n as [|n IH]; intros i a b Hab; simpl; [exact Hab|].
  apply IH. now apply Hstep.
Qed.

(** ** The asymmetric per-key strategy *)

Module Asym.

Record asym_defer_state_t := { count : Z }.

#[global] Instance asym_defer_state_inhabited : Inhabited asym_defer_state_t :=
  populate {| count := 0 |}.

(** The file-scope statics: [state] holds, row after row, the time
  left for every key; [row_counts] the number of keys of each row
  that are debouncing. *)
Record engine := {
  state : list asym_defer_state_t;
  row_counts : list Z;
  last_time : Z
}.

(** The variables the column loop carries from one key to the next. *)
Record col_vars := {
  cv_state : list asym_defer_state_t;
  cv_row_counts : list Z;
  cv_cooked_row : Z;
  cv_col_mask : Z;
  cv_statep : nat
}.

Section WithConfig.
Context `{cfg : Config}.

(** The defaults of the file: [DEBOUNCE_DOWN] and [DEBOUNCE_UP] are
    both [DEBOUNCE]. *)
Definition DEBOUNCE : Z := 5.

Definition ROW_SHIFTER : Z := row_t 1.

(** [debounce_init]: both arrays come zeroed from [calloc]; [now] is
    what [timer_read] returns. *)
Definition debounce_init (num_rows : nat) (now : Z) : engine :=
  {| state := replicate (num_rows * MATRIX_COLS) {| count := 0 |};
     row_counts := replicate num_rows 0;
     last_time := now |}.

(** The body of the column loop. *)
Definition col_body (changed : bool) (elapsed raw_row delta : Z) (row : nat)
    (v : col_vars) : col_vars :=
  let statep := cv_statep v in
  let col_mask := cv_col_mask v in
  let cnt := count (cv_state v !!! statep) in
  let '(st, rc, cooked_row) :=
    if changed && nonzero (Z.land delta col_mask) then
      let new_count :=
        uint8 (if nonzero (Z.land raw_row col_mask) then DEBOUNCE_DOWN else DEBOUNCE_UP) in
      let rc := if cnt =? 0
                then <[row := uint8 (cv_row_counts v !!! row + 1)]> (cv_row_counts v)
                else cv_row_counts v in
      (<[statep := {| count := new_count |}]> (cv_state v), rc, cv_cooked_row v)
    else if cnt >? elapsed then
      (<[statep := {| count := uint8 (cnt - elapsed) |}]> (cv_state v),
       cv_row_counts v, cv_cooked_row v)
    else if nonzero cnt then
      (<[statep := {| count := 0 |}]> (cv_state v),
       <[row := uint8 (cv_row_counts v !!! row - 1)]> (cv_row_counts v),
       row_t (Z.lor (Z.land (Z.lnot col_mask) (cv_cooked_row v))
                    (Z.land col_mask raw_row)))
    else (cv_state v, cv_row_counts v, cv_cooked_row v) in
  {| cv_state := st;
     cv_row_counts := rc;
     cv_cooked_row := cooked_row;
     cv_col_mask := row_t (Z.shiftl col_mask 1);
     cv_statep := S statep |}.

(** The body of the row loop; the loop carries both arrays, the
    cooked matrix and the running pointer [statep]. *)
Definition row_body (changed : bool) (elapsed : Z) (raw : list Z) (row : nat)
    (a : list asym_defer_state_t * list Z * list Z * nat)
    : list asym_defer_state_t * list Z * list Z * nat :=
  let '(st, rc, cooked, statep) := a in
  if (rc !!! row =? 0) && negb changed then
    (st, rc, cooked, (statep + MATRIX_COLS)%nat)
  else
    let raw_row := raw !!! row in
    let cooked_row := cooked !!! row in
    let delta := Z.lxor raw_row cooked_row in
    let v := for_loop MATRIX_COLS 0
               (fun _ => col_body changed elapsed raw_row delta row)
               {| cv_state := st; cv_row_counts := rc; cv_cooked_row := cooked_row;
                  cv_col_mask := ROW_SHIFTER; cv_statep := statep |} in
    (cv_state v, cv_row_counts v, <[row := cv_cooked_row v]> cooked, cv_statep v).

(** [debounce] once [elapsed] is known. *)
Definition debounce_with (elapsed : Z) (raw cooked : list Z) (num_rows : nat)
    (changed : bool) (st : list asym_defer_state_t) (rc : list Z)
    : list asym_defer_state_t * list Z * list Z :=
  let '(st', rc', cooked', _) :=
    for_loop num_rows 0 (row_body changed elapsed raw) (st, rc, cooked, O) in
  (st', rc', cooked').

(** The first two lines of [debounce]; [now] is what [timer_read]
    returns inside [timer_elapsed]. *)
Definition elapsed_of (e : engine) (now : Z) : Z :=
  let elapsed16 := timer_diff 16 now (last_time e) in
  uint8 (if elapsed16 >? 255 then 255 else elapsed16).

(** [debounce].  [last_time] is read and never written: the delta is
    taken from the reading of [debounce_init]. *)
Definition debounce (e : engine) (now : Z) (raw cooked : list Z) (num_rows : nat)
    (changed : bool) : engine * list Z :=
  let elapsed := elapsed_of e now in
  let '(st, rc, cooked') :=
    debounce_with elapsed raw cooked num_rows changed (state e) (row_counts e) in
  ({| state := st; row_counts := rc; last_time := last_time e |}, cooked').

(** A sequence of calls, the cooked matrix handed from each to the
    next. *)
Fixpoint run (num_rows : nat) (e : engine) (cooked : list Z) (calls : list call)
    : engine * list Z :=
  match calls with
  | [] => (e, cooked)
  | cl :: calls' =>
      let '(e', cooked') := debounce e (c_now cl) (c_raw cl) cooked num_rows (c_changed cl) in
      run num_rows e' cooked' calls'
  end.

(** The cooked matrix after each of a sequence of calls, given the
    deltas they apply. *)
Fixpoint cooked_trace (num_rows : nat) (st : list asym_defer_state_t) (rc : list Z)
    (cooked : list Z) (frames : list frame) : list (list Z) :=
  match frames with
  | [] => []
  | f :: frames' =>
      let '(st', rc', cooked') :=
        debounce_with (f_elapsed f) (f_raw f) cooked num_rows (f_changed f) st rc in
      cooked' :: cooked_trace num_rows st' rc' cooked' frames'
  end.

(** What one call does to one key whose row is scanned: its next
    count, and whether the raw bit is copied into the cooked bit. *)
Definition key_step (changed mismatch raw_bit : bool) (elapsed cnt : Z) : Z * bool :=
  if changed && mismatch then
    (uint8 (if raw_bit then DEBOUNCE_DOWN else DEBOUNCE_UP), false)
  else if cnt >? elapsed then (uint8 (cnt - elapsed), false)
  else if nonzero cnt then (0, true)
  else (cnt, false).

(** The number of keys of [row] whose count is not zero. *)
Definition row_active (st : list asym_defer_state_t) (row : nat) : nat :=
  count_upto (fun c => nonzero (count (st !!! (row * MATRIX_COLS + c)%nat))) MATRIX_COLS.

(** The states the engine goes through: [debounce_init], then any
    calls of [debounce]. *)
Inductive reached (num_rows : nat) : engine -> Prop :=
| reached_init now : reached num_rows (debounce_init num_rows now)
| reached_call e now raw cooked changed :
    reached num_rows e ->
    reached num_rows (fst (debounce e now raw cooked num_rows changed)).

(** [row_counts] agrees with the counts, row by row. *)
Definition counts_agree (num_rows : nat) (st : list asym_defer_state_t) (rc : list Z) : Prop :=
  length st = (num_rows * MATRIX_COLS)%nat /\
  length rc = num_rows /\
  forall row, (row < num_rows)%nat -> rc !!! row = Z.of_nat (row_active st row).

(** *** One key at a time *)

Lemma asym_state_eta (s : asym_defer_state_t) : {| count := count s |} = s.
Proof. now destruct s. Qed.

(** The column body, for a mask that is the bit of column [c]. *)
Lemma asym_col_body_key changed elapsed raw_row delta row v (c : nat) :
  (c < ROW_BITS)%nat ->
  cv_col_mask v = 2 ^ Z.of_nat c ->
  (cv_statep v < length (cv_state v))%nat ->
  let cnt := count (cv_state v !!! cv_statep v) in
  let k := key_step changed (row_bit delta c) (row_bit raw_row c) elapsed cnt in
  col_body changed elapsed raw_row delta row v =
    {| cv_state := <[cv_statep v := {| count := fst k |}]> (cv_state v);
       cv_row_counts :=
         if changed && row_bit delta c then
           if cnt =? 0
           then <[row := uint8 (cv_row_counts v !!! row + 1)]> (cv_row_counts v)
           else cv_row_counts v
         else if snd k
           then <[row := uint8 (cv_row_counts v !!! row - 1)]> (cv_row_counts v)
           else cv_row_counts v;
       cv_cooked_row :=
         if snd k
         then row_t (Z.lor (Z.land (Z.lnot (2 ^ Z.of_nat c)) (cv_cooked_row v))
                           (Z.land (2 ^ Z.of_nat c) raw_row))
         else cv_cooked_row v;
       cv_col_mask := row_t (Z.shiftl (2 ^ Z.of_nat c) 1);
       cv_statep := S (cv_statep v) |}.
Proof.
  intros Hc Hm Hp cnt k. subst k cnt. unfold col_body, key_step, row_bit.
  rewrite Hm, !nonzero_land_pow2 by lia.
  assert (Hid : <[cv_statep v := {| count := count (cv_state v !!! cv_statep v) |}]>
                  (cv_state v) = cv_state v).
  { rewrite asym_state_eta. apply list_insert_id. now apply list_lookup_lookup_total_lt. }
  destruct (changed && Z.testbit delta (Z.of_nat c)); simpl; [reflexivity|].
  destruct (count (cv_state v !!! cv_statep v) >? elapsed); simpl; [reflexivity|].
  destruct (nonzero (count (cv_state v !!! cv_statep v))); simpl; [reflexivity|].
  now rewrite Hid.
Qed.

(** What the column loop has done after [k] keys of a row that
    starts at [p0] with the cooked word [cr0]. *)
Definition col_inv (changed : bool) (elapsed raw_row delta : Z)
    (st0 : list asym_defer_state_t) (rc0 : list Z) (cr0 : Z) (row p0 k : nat)
    (v : col_vars) : Prop :=
  cv_statep v = (p0 + k)%nat /\
  ((k < ROW_BITS)%nat -> cv_col_mask v = 2 ^ Z.of_nat k) /\
  length (cv_state v) = length st0 /\
  length (cv_row_counts v) = length rc0 /\
  (forall j, (j < k)%nat ->
     let s := key_step changed (row_bit delta j) (row_bit raw_row j) elapsed
                (count (st0 !!! (p0 + j)%nat)) in
     count (cv_state v !!! (p0 + j)%nat) = fst s /\
     row_bit (cv_cooked_row v) j =
       if snd s then row_bit raw_row j else row_bit cr0 j) /\
  (forall j, (k <= j < ROW_BITS)%nat -> row_bit (cv_cooked_row v) j = row_bit cr0 j) /\
  (forall i, (i < p0 \/ p0 + k <= i)%nat -> cv_state v !!! i = st0 !!! i) /\
  (forall r', r' <> row -> cv_row_counts v !!! r' = rc0 !!! r').

Lemma asym_col_inv_step changed elapsed raw_row delta st0 rc0 cr0 row p0 k v :
  (MATRIX_COLS <= ROW_BITS)%nat ->
  (p0 + MATRIX_COLS <= length st0)%nat ->
  (k < MATRIX_COLS)%nat ->
  col_inv changed elapsed raw_row delta st0 rc0 cr0 row p0 k v ->
  col_inv changed elapsed raw_row delta st0 rc0 cr0 row p0 (S k)
    (col_body changed elapsed raw_row delta row v).
Proof.
  intros Hw Hlen Hk (Hp & Hm & Hl & Hlr & Hdone & Hbits & Hrest & Hrc).
  specialize (Hm ltac:(lia)).
  rewrite (asym_col_body_key changed elapsed raw_row delta row v k)
    by (try rewrite Hp, Hl; lia || assumption).
  rewrite Hp, (Hrest (p0 + k)%nat) by lia.
  set (s := key_step _ _ _ _ _).
  unfold col_inv; simpl. repeat split.
  - lia.
  - intros Hk'. now apply row_t_shift.
  - now rewrite length_insert.
  - repeat (match goal with |- context [if ?b then _ else _] => destruct b end);
      rewrite ?length_insert; assumption.
  - destruct (Nat.eq_dec j k) as [->|Hne].
    + rewrite list_lookup_total_insert_eq by lia. reflexivity.
    + rewrite list_lookup_total_insert_ne by lia. apply Hdone. lia.
  - destruct (Nat.eq_dec j k) as [->|Hne].
    + fold s. destruct (snd s); [|apply Hbits; lia].
      rewrite row_t_bit, row_bit_masked_copy, Nat.eqb_refl by lia. reflexivity.
    + assert (Hj : (j < k)%nat) by lia. destruct (snd s); [|apply Hdone, Hj].
      rewrite row_t_bit, row_bit_masked_copy by lia.
      replace (Nat.eqb k j) with false by (symmetry; apply Nat.eqb_neq; lia).
      apply Hdone, Hj.
  - intros j Hj. destruct (snd s); [|apply Hbits; lia].
    rewrite row_t_bit, row_bit_masked_copy by lia.
    replace (Nat.eqb k j) with false by (symmetry; apply Nat.eqb_neq; lia).
    apply Hbits. lia.
  - intros i Hi. rewrite list_lookup_total_insert_ne by lia. apply Hrest. lia.
  - intros r' Hr'.
    repeat (match goal with |- context [if ?b then _ else _] => destruct b end);
      rewrite ?list_lookup_total_insert_ne by congruence; now apply Hrc.
Qed.

(** Whether the row loop scans [row] or steps over it. *)
Definition scanned (changed : bool) (rc : list Z) (row : nat) : bool :=
  negb ((rc !!! row =? 0) && negb changed).

(** The step of key [(r, c)] in one call that scans its row. *)
Definition key_at (changed : bool) (elapsed : Z) (raw cooked : list Z)
    (st : list asym_defer_state_t) (r c : nat) : Z * bool :=
  key_step changed
           (xorb (row_bit (raw !!! r) c) (row_bit (cooked !!! r) c))
           (row_bit (raw !!! r) c)
           elapsed (count (st !!! (r * MATRIX_COLS + c)%nat)).

(** What the row loop has done after [r] rows. *)
Definition row_inv (changed : bool) (elapsed : Z) (raw cooked0 : list Z)
    (st0 : list asym_defer_state_t) (rc0 : list Z) (r : nat)
    (a : list asym_defer_state_t * list Z * list Z * nat) : Prop :=
  let '(st, rc, cooked, statep) := a in
  statep = (r * MATRIX_COLS)%nat /\
  length st = length st0 /\
  length rc = length rc0 /\
  length cooked = length cooked0 /\
  (forall r' c, (r' < r)%nat -> (c < MATRIX_COLS)%nat ->
     let s := key_at changed elapsed raw cooked0 st0 r' c in
     count (st !!! (r' * MATRIX_COLS + c)%nat) =
       (if scanned changed rc0 r' then fst s
        else count (st0 !!! (r' * MATRIX_COLS + c)%nat)) /\
     row_bit (cooked !!! r') c =
       (if scanned changed rc0 r' && snd s then row_bit (raw !!! r') c
        else row_bit (cooked0 !!! r') c)) /\
  (forall r', (r <= r')%nat -> cooked !!! r' = cooked0 !!! r') /\
  (forall r', (r <= r')%nat -> rc !!! r' = rc0 !!! r') /\
  (forall i, (r * MATRIX_COLS <= i)%nat -> st !!! i = st0 !!! i).

Lemma asym_row_inv_step changed elapsed raw cooked0 st0 rc0 num_rows r a :
  (MATRIX_COLS <= ROW_BITS)%nat ->
  length st0 = (num_rows * MATRIX_COLS)%nat ->
  length cooked0 = num_rows ->
  (r < num_rows)%nat ->
  row_inv changed elapsed raw cooked0 st0 rc0 r a ->
  row_inv changed elapsed raw cooked0 st0 rc0 (S r) (row_body changed elapsed raw r a).
Proof.
  intros Hw Hlen Hlc Hr. destruct a as [[[st rc] cooked] statep].
  intros (Hp & Hl & Hlr & Hl' & Hdone & Hrows & Hrcs & Hrest).
  unfold row_body.
  destruct ((rc !!! r =? 0) && negb changed) eqn:Hskip.
  - (* the row is stepped over *)
    assert (Hsc : scanned changed rc0 r = false).
    { unfold scanned. rewrite <- Hrcs, Hskip by lia. reflexivity. }
    unfold row_inv. repeat split; try assumption; try lia.
    + destruct (Nat.eq_dec r' r) as [->|Hne]; [|apply Hdone; lia].
      rewrite Hsc. now rewrite Hrest by lia.
    + destruct (Nat.eq_dec r' r) as [->|Hne]; [|apply Hdone; lia].
      rewrite Hsc. simpl. now rewrite Hrows by lia.
    + intros r' Hr'. apply Hrows. lia.
    + intros r' Hr'. apply Hrcs. lia.
    + intros i Hi. apply Hrest. lia.
  - (* the row is scanned *)
    assert (Hsc : scanned changed rc0 r = true).
    { unfold scanned. rewrite <- Hrcs, Hskip by lia. reflexivity. }
    set (delta := Z.lxor (raw !!! r) (cooked !!! r)).
    set (v0 := {| cv_state := st; cv_row_counts := rc; cv_cooked_row := cooked !!! r;
                  cv_col_mask := ROW_SHIFTER; cv_statep := statep |}).
    assert (Hv : col_inv changed elapsed (raw !!! r) delta st rc (cooked !!! r) r statep
                   (0 + MATRIX_COLS)
                   (for_loop MATRIX_COLS 0
                      (fun _ => col_body changed elapsed (raw !!! r) delta r) v0)).
    { apply (for_loop_inv
               (col_inv changed elapsed (raw !!! r) delta st rc (cooked !!! r) r statep)).
      - unfold col_inv, v0; simpl. repeat split; try lia; try reflexivity.
        intros H0. unfold ROW_SHIFTER. apply (row_t_pow2 0 H0).
      - intros k x Hk Hx. apply asym_col_inv_step; try assumption; try lia.
        rewrite Hl, Hlen, Hp. nia. }
    destruct Hv as (Hp' & _ & Hl2 & Hlr2 & Hd2 & _ & Hr2 & Hrc2).
    set (v := for_loop _ _ _ _) in *.
    unfold row_inv. repeat split.
    + rewrite Hp', Hp. lia.
    + congruence.
    + congruence.
    + now rewrite length_insert.
    + destruct (Nat.eq_dec r' r) as [->|Hne].
      * destruct (Hd2 c ltac:(lia)) as [Hs _]. rewrite Hsc, <- Hp, Hs.
        unfold key_at, delta. rewrite row_bit_lxor, Hrows, Hrest, Hp by lia. reflexivity.
      * rewrite Hr2 by nia. apply Hdone; lia.
    + destruct (Nat.eq_dec r' r) as [->|Hne].
      * destruct (Hd2 c ltac:(lia)) as [_ Hs].
        rewrite list_lookup_total_insert_eq by lia. rewrite Hs, Hsc. simpl.
        unfold key_at, delta. rewrite row_bit_lxor, Hrows, Hrest, Hp by lia. reflexivity.
      * rewrite list_lookup_total_insert_ne by lia. apply Hdone; lia.
    + intros r' Hr'. rewrite list_lookup_total_insert_ne by lia. apply Hrows. lia.
    + intros r' Hr'. rewrite Hrc2 by lia. apply Hrcs. lia.
    + intros i Hi. rewrite Hr2 by lia. apply Hrest. lia.
Qed.

(** Every key of a scanned row takes exactly its own step, and the
    keys of a row that is stepped over are left alone. *)
Lemma asym_debounce_with_key elapsed raw cooked num_rows changed st rc r c :
  (MATRIX_COLS <= ROW_BITS)%nat ->
  length st = (num_rows * MATRIX_COLS)%nat ->
  length cooked = num_rows ->
  (r < num_rows)%nat -> (c < MATRIX_COLS)%nat ->
  let s := key_at changed elapsed raw cooked st r c in
  let '(st', rc', cooked') := debounce_with elapsed raw cooked num_rows changed st rc in
  count (st' !!! (r * MATRIX_COLS + c)%nat) =
    (if scanned changed rc r then fst s
     else count (st !!! (r * MATRIX_COLS + c)%nat)) /\
  row_bit (cooked' !!! r) c =
    (if scanned changed rc r && snd s then row_bit (raw !!! r) c
     else row_bit (cooked !!! r) c) /\
  length st' = length st /\ length rc' = length rc /\ length cooked' = length cooked.
Proof.
  intros Hw Hlen Hlc Hr Hc s. unfold debounce_with.
  assert (Hinv : row_inv changed elapsed raw cooked st rc (0 + num_rows)
                   (for_loop num_rows 0 (row_body changed elapsed raw) (st, rc, cooked, O))).
  { apply (for_loop_inv (row_inv changed elapsed raw cooked st rc)).
    - unfold row_inv. repeat split; intros; lia.
    - intros k x Hk Hx. apply (asym_row_inv_step _ _ _ _ _ _ num_rows); try assumption; lia. }
  destruct (for_loop num_rows 0 _ _) as [[[st' rc'] cooked'] p'].
  destruct Hinv as (_ & Hl & Hlr & Hl' & Hdone & _ & _ & _).
  destruct (Hdone r c ltac:(lia) Hc) as [H1 H2]. auto.
Qed.

(** *** The row counts follow the counts *)

(** Every count is a byte. *)
Definition state_ok (st : list asym_defer_state_t) : Prop :=
  forall i, 0 <= count (st !!! i) <= 255.

Lemma asym_row_active_insert_other st (row k r' : nat) x :
  (k < MATRIX_COLS)%nat -> r' <> row ->
  row_active (<[(row * MATRIX_COLS + k)%nat := x]> st) r' = row_active st r'.
Proof.
  intros Hk Hne. unfold row_active. apply count_upto_ext. intros c Hc.
  rewrite list_lookup_total_insert_ne; [reflexivity|].
  intros He. apply cell_index_inj in He; [|assumption..]. destruct He. congruence.
Qed.

Lemma asym_row_active_insert st (row k : nat) x :
  (k < MATRIX_COLS)%nat ->
  (row * MATRIX_COLS + k < length st)%nat ->
  (row_active (<[(row * MATRIX_COLS + k)%nat := x]> st) row
     + (if nonzero (count (st !!! (row * MATRIX_COLS + k)%nat)) then 1 else 0)
   = row_active st row + (if nonzero (count x) then 1 else 0))%nat.
Proof.
  intros Hk Hlen. unfold row_active.
  pose proof (count_upto_update
           (fun c => nonzero (count (<[(row * MATRIX_COLS + k)%nat := x]> st
                                      !!! (row * MATRIX_COLS + c)%nat)))
           (fun c => nonzero (count (st !!! (row * MATRIX_COLS + c)%nat)))
           MATRIX_COLS k Hk) as H.
  cbv beta in H. rewrite list_lookup_total_insert_eq in H by assumption.
  apply H. intros c Hc Hne. rewrite list_lookup_total_insert_ne by lia. reflexivity.
Qed.

Lemma asym_row_active_le st row : (row_active st row <= MATRIX_COLS)%nat.
Proof. apply count_upto_le. Qed.

Lemma asym_state_ok_insert st p x :
  state_ok st -> 0 <= count x <= 255 -> state_ok (<[p := x]> st).
Proof.
  intros Hok Hx i. destruct (Nat.eq_dec p i) as [->|Hne].
  - destruct (Nat.lt_ge_cases i (length st)).
    + now rewrite list_lookup_total_insert_eq.
    + rewrite list_insert_ge by lia. apply Hok.
  - rewrite list_lookup_total_insert_ne by assumption. apply Hok.
Qed.

(** One key of the column loop keeps [row_counts] in step with the
    counts: the count and the row count change together. *)
Lemma asym_col_body_counts changed elapsed raw_row delta num_rows row k v :
  config_ok ->
  0 <= elapsed ->
  (row < num_rows)%nat -> (k < MATRIX_COLS)%nat ->
  cv_statep v = (row * MATRIX_COLS + k)%nat ->
  cv_col_mask v = 2 ^ Z.of_nat k ->
  counts_agree num_rows (cv_state v) (cv_row_counts v) /\ state_ok (cv_state v) ->
  let v' := col_body changed elapsed raw_row delta row v in
  counts_agree num_rows (cv_state v') (cv_row_counts v') /\ state_ok (cv_state v').
Proof.
  intros (Hw & Hdown & Hup & _) He Hrow Hk Hp Hm [(Hl & Hlr & Hag) Hok] v'.
  assert (Hplt : (cv_statep v < length (cv_state v))%nat) by (rewrite Hp, Hl; nia).
  subst v'. rewrite (asym_col_body_key changed elapsed raw_row delta row v k)
    by (assumption || lia).
  simpl. rewrite Hp in *.
  set (p := (row * MATRIX_COLS + k)%nat) in *.
  pose proof (Hok p) as Hcnt.
  set (cnt := count (cv_state v !!! p)) in *.
  set (s := key_step _ _ _ _ _).
  pose proof (asym_row_active_insert (cv_state v) row k {| count := fst s |} Hk Hplt) as Hact.
  fold p in Hact. fold cnt in Hact. simpl in Hact.
  pose proof (asym_row_active_le (<[p := {| count := fst s |}]> (cv_state v)) row) as Hle.
  pose proof (Hag row Hrow) as Hrc.
  assert (Hother : forall r', r' <> row ->
            row_active (<[p := {| count := fst s |}]> (cv_state v)) r'
            = row_active (cv_state v) r').
  { intros r' Hne. now apply asym_row_active_insert_other. }
  assert (Hfin : forall rc',
            length rc' = num_rows ->
            rc' !!! row = Z.of_nat (row_active (<[p := {| count := fst s |}]> (cv_state v)) row) ->
            (forall r', r' <> row -> rc' !!! r' = cv_row_counts v !!! r') ->
            0 <= fst s <= 255 ->
            counts_agree num_rows (<[p := {| count := fst s |}]> (cv_state v)) rc' /\
            state_ok (<[p := {| count := fst s |}]> (cv_state v))).
  { intros rc' Hl' Hrow' Hoth Hr. split.
    - unfold counts_agree. rewrite length_insert. repeat split; try assumption.
      intros r' Hr'. destruct (Nat.eq_dec r' row) as [->|Hne]; [assumption|].
      rewrite Hoth, Hother by assumption. now apply Hag.
    - now apply asym_state_ok_insert. }
  assert (Hins : forall x, <[row := x]> (cv_row_counts v) !!! row = x).
  { intros x. apply list_lookup_total_insert_eq. lia. }
  assert (Hinso : forall x r', r' <> row ->
            <[row := x]> (cv_row_counts v) !!! r' = cv_row_counts v !!! r').
  { intros x r' Hne. apply list_lookup_total_insert_ne. congruence. }
  unfold key_step in s.
  destruct (changed && row_bit delta k) eqn:Harm.
  - (* armed *)
    assert (Hnew : 0 < fst s <= 255).
    { subst s; simpl. rewrite uint8_small; destruct (row_bit raw_row k); lia. }
    assert (Hnz : nonzero (fst s) = true) by (apply nonzero_true; lia).
    rewrite Hnz in Hact.
    destruct (Z.eqb_spec cnt 0) as [H0|H0].
    + rewrite H0 in Hact. change (nonzero 0) with false in Hact. cbv iota in Hact.
      apply Hfin; rewrite ?length_insert; try assumption; try lia.
      * rewrite Hins, Hrc, uint8_small; lia.
      * intros r' Hne. now apply Hinso.
    + assert (Hnz' : nonzero cnt = true) by (now apply nonzero_true).
      rewrite Hnz' in Hact.
      apply Hfin; try assumption; try lia; rewrite Hrc; f_equal; lia.
  - destruct (Z.gtb_spec cnt elapsed) as [Hgt|Hle'].
    + (* counting down *)
      assert (Hnew : fst s = cnt - elapsed) by (subst s; simpl; apply uint8_small; lia).
      assert (Hnz : nonzero (fst s) = true) by (apply nonzero_true; lia).
      assert (Hnz' : nonzero cnt = true) by (apply nonzero_true; lia).
      rewrite Hnz, Hnz' in Hact. simpl.
      apply Hfin; try assumption; try lia; rewrite Hrc; f_equal; lia.
    + destruct (nonzero cnt) eqn:Hnz'.
      * (* expiry *)
        simpl in *. apply Hfin; rewrite ?length_insert; try assumption; try lia.
        ++ rewrite Hins, Hrc, uint8_small; lia.
        ++ intros r' Hne. now apply Hinso.
      * (* idle *)
        assert (Hnz : nonzero (fst s) = false) by (subst s; simpl; assumption).
        rewrite Hnz in Hact. simpl.
        apply Hfin; try assumption; lia.
Qed.

Lemma asym_col_body_vars changed elapsed raw_row delta row v :
  let v' := col_body changed elapsed raw_row delta row v in
  cv_statep v' = S (cv_statep v) /\
  cv_col_mask v' = row_t (Z.shiftl (cv_col_mask v) 1).
Proof.
  unfold col_body.
  repeat (match goal with |- context [if ?b then _ else _] => destruct b end);
    simpl; auto.
Qed.

Lemma asym_row_body_counts changed elapsed raw num_rows row a :
  config_ok ->
  0 <= elapsed ->
  (row < num_rows)%nat ->
  let '(st, rc, _, statep) := a in
  let '(st', rc', _, statep') := row_body changed elapsed raw row a in
  statep = (row * MATRIX_COLS)%nat ->
  counts_agree num_rows st rc /\ state_ok st ->
  statep' = (S row * MATRIX_COLS)%nat /\
  counts_agree num_rows st' rc' /\ state_ok st'.
Proof.
  intros Hcfg He Hrow. destruct a as [[[st rc] cooked] statep].
  unfold row_body.
  destruct ((rc !!! row =? 0) && negb changed).
  - intros -> H. split; [lia | exact H].
  - set (delta := Z.lxor _ _).
    set (v0 := {| cv_state := st |}).
    intros Hp H.
    pose (P := fun (k : nat) (v : col_vars) =>
                 cv_statep v = (row * MATRIX_COLS + k)%nat /\
                 ((k < ROW_BITS)%nat -> cv_col_mask v = 2 ^ Z.of_nat k) /\
                 counts_agree num_rows (cv_state v) (cv_row_counts v) /\
                 state_ok (cv_state v)).
    assert (Hv : P (0 + MATRIX_COLS)%nat
                   (for_loop MATRIX_COLS 0
                      (fun _ => col_body changed elapsed (raw !!! row) delta row) v0)).
    { apply (for_loop_inv P).
      - unfold P, v0; simpl. repeat split; try apply H; try lia.
        intros H0. unfold ROW_SHIFTER. apply (row_t_pow2 0 H0).
      - intros k v Hk (Hs & Hm & Hc).
        pose proof Hcfg as (Hw & _).
        specialize (Hm ltac:(lia)).
        destruct (asym_col_body_vars changed elapsed (raw !!! row) delta row v) as [Hs' Hm'].
        unfold P. split; [|split; [|split]].
        + rewrite Hs', Hs. lia.
        + intros Hk'. rewrite Hm', Hm. now apply row_t_shift.
        + apply (asym_col_body_counts changed elapsed (raw !!! row) delta num_rows row k v);
            (assumption || lia).
        + apply (asym_col_body_counts changed elapsed (raw !!! row) delta num_rows row k v);
            (assumption || lia). }
    destruct Hv as (Hs & _ & Hc & Hok).
    split; [rewrite Hs; lia | split; assumption].
Qed.

(** A call keeps [row_counts] in step with the counts. *)
Lemma asym_debounce_with_counts elapsed raw cooked num_rows changed st rc :
  config_ok ->
  0 <= elapsed ->
  counts_agree num_rows st rc -> state_ok st ->
  let '(st', rc', _) := debounce_with elapsed raw cooked num_rows changed st rc in
  counts_agree num_rows st' rc' /\ state_ok st'.
Proof.
  intros Hcfg He Hc Hok. unfold debounce_with.
  pose (P := fun (r : nat) (a : list asym_defer_state_t * list Z * list Z * nat) =>
               let '(st, rc, _, statep) := a in
               statep = (r * MATRIX_COLS)%nat /\
               counts_agree num_rows st rc /\ state_ok st).
  assert (H : P (0 + num_rows)%nat
                (for_loop num_rows 0 (row_body changed elapsed raw) (st, rc, cooked, O))).
  { apply (for_loop_inv P).
    - unfold P. auto.
    - intros r a Hr. unfold P. destruct a as [[[st1 rc1] cooked1] p1].
      intros (Hp & Hc1 & Hok1).
      pose proof (asym_row_body_counts changed elapsed raw num_rows r (st1, rc1, cooked1, p1)
                    Hcfg He ltac:(lia)) as Hstep.
      cbv beta iota in Hstep.
      destruct (row_body changed elapsed raw r (st1, rc1, cooked1, p1)) as [[[st2 rc2] c2] p2].
      apply Hstep; auto. }
  destruct (for_loop num_rows 0 _ _) as [[[st' rc'] cooked'] p'].
  destruct H as (_ & H1 & H2). auto.
Qed.

(** *** Calls of [debounce] *)

Lemma asym_elapsed_of_range e now : 0 <= elapsed_of e now <= 255.
Proof. apply uint8_range. Qed.

Lemma asym_init_counts num_rows now :
  counts_agree num_rows (state (debounce_init num_rows now))
               (row_counts (debounce_init num_rows now)) /\
  state_ok (state (debounce_init num_rows now)).
Proof.
  simpl. assert (Hz : forall i, count (replicate (num_rows * MATRIX_COLS)
                                         {| count := 0 |} !!! i) = 0).
  { intros i. destruct (Nat.lt_ge_cases i (num_rows * MATRIX_COLS)) as [Hlt|Hge].
    - now rewrite lookup_total_replicate_2.
    - rewrite list_lookup_total_alt, lookup_ge_None_2; [reflexivity|].
      rewrite length_replicate. lia. }
  split.
  - unfold counts_agree. rewrite !length_replicate. repeat split.
    intros row Hrow. rewrite lookup_total_replicate_2 by assumption.
    unfold row_active. 
    rewrite count_upto_false; [reflexivity|].
    intros c _. now rewrite Hz.
  - intros i. rewrite Hz. lia.
Qed.

(** Every state the engine reaches has its row counts exact and its
    counts within a byte. *)
Lemma asym_reached_counts num_rows e :
  config_ok -> reached num_rows e ->
  counts_agree num_rows (state e) (row_counts e) /\ state_ok (state e).
Proof.
  intros Hcfg Hr. induction Hr as [now | e now raw cooked changed Hr [IHc IHs]].
  - apply asym_init_counts.
  - unfold debounce.
    pose proof (asym_debounce_with_counts (elapsed_of e now) raw cooked num_rows changed
                  (state e) (row_counts e) Hcfg (proj1 (asym_elapsed_of_range e now)) IHc IHs) as H.
    destruct (debounce_with _ _ _ _ _ _ _) as [[st rc] cooked']. exact H.
Qed.

(** A row that holds a key in flight is scanned. *)
Lemma asym_scanned_active num_rows st rc changed r c :
  counts_agree num_rows st rc ->
  (r < num_rows)%nat -> (c < MATRIX_COLS)%nat ->
  count (st !!! (r * MATRIX_COLS + c)%nat) <> 0 ->
  scanned changed rc r = true.
Proof.
  intros (_ & _ & Hag) Hr Hc Hnz. unfold scanned.
  assert (Hpos : (0 < row_active st r)%nat).
  { apply (count_upto_pos _ _ c Hc). now apply nonzero_true. }
  rewrite (Hag r Hr). destruct (Z.eqb_spec (Z.of_nat (row_active st r)) 0); [lia|reflexivity].
Qed.

(** With exact row counts, stepping over a row changes nothing that
    scanning it would not: every key takes its own step. *)
Lemma asym_debounce_with_key_exact elapsed raw cooked num_rows changed st rc r c :
  config_ok ->
  0 <= elapsed ->
  counts_agree num_rows st rc ->
  length cooked = num_rows ->
  (r < num_rows)%nat -> (c < MATRIX_COLS)%nat ->
  let s := key_at changed elapsed raw cooked st r c in
  let '(st', rc', cooked') := debounce_with elapsed raw cooked num_rows changed st rc in
  count (st' !!! (r * MATRIX_COLS + c)%nat) = fst s /\
  row_bit (cooked' !!! r) c =
    (if snd s then row_bit (raw !!! r) c else row_bit (cooked !!! r) c).
Proof.
  intros Hcfg He Hag Hlc Hr Hc s.
  pose proof Hcfg as ((Hw & _) & _).
  pose proof (asym_debounce_with_key elapsed raw cooked num_rows changed st rc r c
                Hw (proj1 Hag) Hlc Hr Hc) as H.
  cbv zeta in H. fold s in H.
  destruct (debounce_with _ _ _ _ _ _ _) as [[st' rc'] cooked'].
  destruct H as (H1 & H2 & _).
  destruct (scanned changed rc r) eqn:Hsc; [auto|].
  assert (Hz : count (st !!! (r * MATRIX_COLS + c)%nat) = 0).
  { destruct (Z.eq_dec (count (st !!! (r * MATRIX_COLS + c)%nat)) 0) as [H0|H0]; [assumption|].
    rewrite (asym_scanned_active num_rows st rc changed r c Hag Hr Hc H0) in Hsc. discriminate. }
  assert (Hch : changed = false).
  { unfold scanned in Hsc. destruct changed; [|reflexivity].
    rewrite andb_false_r in Hsc. discriminate. }
  assert (Hs : s = (0, false)).
  { subst s. unfold key_at, key_step. rewrite Hz, Hch. simpl.
    destruct (Z.gtb_spec 0 elapsed); [lia|reflexivity]. }
  rewrite H1, H2, Hs, Hz. simpl. auto.
Qed.

(** A call of [debounce] on an engine with exact row counts treats
    every key on its own, with the delta [elapsed_of] computes. *)
Lemma asym_debounce_key e now raw cooked num_rows changed r c :
  config_ok ->
  counts_agree num_rows (state e) (row_counts e) ->
  length cooked = num_rows ->
  (r < num_rows)%nat -> (c < MATRIX_COLS)%nat ->
  let s := key_at changed (elapsed_of e now) raw cooked (state e) r c in
  let out := debounce e now raw cooked num_rows changed in
  count (state (fst out) !!! (r * MATRIX_COLS + c)%nat) = fst s /\
  row_bit (snd out !!! r) c =
    (if snd s then row_bit (raw !!! r) c else row_bit (cooked !!! r) c) /\
  length (snd out) = length cooked.
Proof.
  intros Hcfg Hag Hlc Hr Hc s out. subst s out. unfold debounce.
  pose proof (asym_debounce_with_key_exact (elapsed_of e now) raw cooked num_rows changed
                (state e) (row_counts e) r c Hcfg (proj1 (asym_elapsed_of_range e now))
                Hag Hlc Hr Hc) as H.
  pose proof Hcfg as ((Hw & _) & _).
  pose proof (asym_debounce_with_key (elapsed_of e now) raw cooked num_rows changed
                (state e) (row_counts e) r c Hw (proj1 Hag) Hlc Hr Hc) as H'.
  cbv zeta in H, H'.
  destruct (debounce_with _ _ _ _ _ _ _) as [[st' rc'] cooked']. simpl.
  destruct H as [H1 H2]. destruct H' as (_ & _ & _ & _ & H3). auto.
Qed.

(** *** The rows a call writes *)

(** The row loop writes the first [num_rows] rows of the cooked matrix
    only. *)
Lemma asym_debounce_with_rows elapsed raw (cooked : list Z) num_rows changed st rc :
  let '(_, _, cooked') := debounce_with elapsed raw cooked num_rows changed st rc in
  length cooked' = length cooked /\
  forall r, (num_rows <= r)%nat -> cooked' !!! r = cooked !!! r.
Proof.
  unfold debounce_with.
  pose (P := fun (k : nat) (a : list asym_defer_state_t * list Z * list Z * nat) =>
               length (snd (fst a)) = length cooked /\
               forall r, (num_rows <= r)%nat -> snd (fst a) !!! r = cooked !!! r).
  assert (H : P (0 + num_rows)%nat
                (for_loop num_rows 0 (row_body changed elapsed raw) (st, rc, cooked, O))).
  { apply (for_loop_inv P).
    - unfold P. simpl. auto.
    - intros k [[[st1 rc1] cooked1] p1] Hk [Hl Hrows]. simpl in Hl, Hrows.
      unfold P, row_body. destruct (_ && _); simpl; [auto|].
      split; [now rewrite length_insert|].
      intros r Hr. rewrite list_lookup_total_insert_ne by lia. now apply Hrows. }
  destruct (for_loop num_rows 0 _ _) as [[[st' rc'] cooked'] p']. exact H.
Qed.
End WithConfig.
End Asym.

(** ** The sparse active-list strategy *)

Module Sparse.

Definition DEBOUNCE_NULL : Z := 255.

Record debounce_counter_t := {
  remaining : Z;   (* if nonzero, time left, and the key is in the list *)
  next : Z
}.

#[global] Instance debounce_counter_inhabited : Inhabited debounce_counter_t :=
  populate {| remaining := 0; next := DEBOUNCE_NULL |}.

(** The file-scope statics. *)
Record engine := {
  debounce_counters : list debounce_counter_t;
  debounce_list_head : Z;
  last_time_initialized : bool;
  last_time : Z
}.

(** What [uint8_t* pp] can point to: [debounce_list_head], or the
  [next] field of an entry. *)
Inductive link := head_link | next_link (i : nat).

Section WithConfig.
Context `{cfg : Config}.

(** The defaults of the file: a release waits twice as long as a
    press. *)
Definition DEBOUNCE : Z := 5.

(** [*pp] and [*pp = v] on the counters and the head. *)
Definition load (cs : list debounce_counter_t) (head : Z) (pp : link) : Z :=
  match pp with
  | head_link => head
  | next_link i => next (cs !!! i)
  end.

Definition store (cs : list debounce_counter_t) (head : Z) (pp : link) (v : Z)
    : list debounce_counter_t * Z :=
  match pp with
  | head_link => (cs, v)
  | next_link i => (<[i := {| remaining := remaining (cs !!! i); next := v |}]> cs, head)
  end.

(** The body of the column loop of [debounce_init]; the loop carries
    the block and the running pointer [p]. *)
Definition init_col_body (c : nat) (a : list debounce_counter_t * nat)
    : list debounce_counter_t * nat :=
  let '(cs, p) := a in
  (<[p := {| remaining := 0; next := DEBOUNCE_NULL |}]> cs, S p).

(** [debounce_init]; [block] is what [malloc] returns, one entry per
    key with whatever the memory holds. *)
Definition debounce_init (num_rows : nat) (block : list debounce_counter_t) (old : engine)
    : engine :=
  let '(cs, _) :=
    for_loop num_rows 0 (fun _ => for_loop MATRIX_COLS 0 init_col_body) (block, O) in
  {| debounce_counters := cs;
     debounce_list_head := DEBOUNCE_NULL;
     last_time_initialized := false;
     last_time := last_time old |}.

(** [debounce_free]: the block goes back to the allocator and the
    pointer is [NULL], so that no entry is left to read; the list is
    empty and the clock baseline is dropped. *)
Definition debounce_free (e : engine) : engine :=
  {| debounce_counters := [];
     debounce_list_head := DEBOUNCE_NULL;
     last_time_initialized := false;
     last_time := last_time e |}.

(** [get_elapsed], without [DEBOUNCE_USE_FRAMES]; [now] is what
    [timer_read_fast] returns. *)
Definition get_elapsed (e : engine) (now : Z) : Z * engine :=
  if negb (last_time_initialized e) then
    (1, {| debounce_counters := debounce_counters e;
           debounce_list_head := debounce_list_head e;
           last_time_initialized := true; last_time := now |})
  else
    let elapsed_time := timer_diff TIMER_BITS now (last_time e) in
    (uint8 (if elapsed_time >? 255 then 255 else elapsed_time),
     {| debounce_counters := debounce_counters e;
        debounce_list_head := debounce_list_head e;
        last_time_initialized := true; last_time := now |}).

(** The settle pass: the [while] loop that walks the list from the
    head.  [fuel] bounds the number of entries visited; the walk
    gives [None] when the bound is reached before [DEBOUNCE_NULL], and
    when the assertion of the loop fails. *)
Fixpoint settle (fuel : nat) (elapsed : Z) (raw : list Z)
    (cs : list debounce_counter_t) (head : Z) (cooked : list Z)
    (pp : link) (p : Z) : option (list debounce_counter_t * Z * list Z) :=
  match fuel with
  | O => None
  | S fuel' =>
      if p =? DEBOUNCE_NULL then Some (cs, head, cooked)
      else
        let i := Z.to_nat p in
        let entry := cs !!! i in
        if remaining entry =? 0 then None (* assert(entry->remaining != 0) *)
        else if remaining entry >? elapsed then
          let cs1 := <[i := {| remaining := uint8 (remaining entry - elapsed);
                               next := next entry |}]> cs in
          settle fuel' elapsed raw cs1 head cooked (next_link i)
                 (load cs1 head (next_link i))
        else
          (* Apply raw to cooked. *)
          let row := (i / MATRIX_COLS)%nat in
          let col := (i mod MATRIX_COLS)%nat in
          let col_mask := row_t (Z.shiftl 1 (Z.of_nat col)) in
          let delta := Z.land (Z.lxor (cooked !!! row) (raw !!! row)) col_mask in
          let cooked1 := <[row := row_t (Z.lxor (cooked !!! row) delta)]> cooked in
          (* Remove from list. *)
          let p' := next entry in
          let '(cs2, head2) := store cs head pp p' in
          let cs3 := <[i := {| remaining := 0; next := DEBOUNCE_NULL |}]> cs2 in
          settle fuel' elapsed raw cs3 head2 cooked1 pp p'
  end.

(** The body of the column loop of the arm pass; the loop carries
    the counters, the head and the running pointer [p]. *)
Definition arm_col_body (elapsed cooked_row raw_row : Z) (col : nat)
    (a : list debounce_counter_t * Z * nat) : list debounce_counter_t * Z * nat :=
  let '(cs, head, p) := a in
  let col_mask := row_t (Z.shiftl 1 (Z.of_nat col)) in
  if nonzero (Z.land col_mask (Z.lxor cooked_row raw_row)) then
    (* is (row, col) debouncing? *)
    if remaining (cs !!! p) =? 0 then
      (* Not debouncing, so add it to the head of the list. *)
      (<[p := {| remaining := uint8 (if nonzero (Z.land col_mask raw_row)
                                     then DEBOUNCE_DOWN else DEBOUNCE_UP);
                 next := head |}]> cs,
       uint8 (Z.of_nat p), S p)
    else
      (* fluttering: this frame doesn't count *)
      (<[p := {| remaining := uint8 (remaining (cs !!! p) + elapsed);
                 next := next (cs !!! p) |}]> cs,
       head, S p)
  else (cs, head, S p).

(** The body of the row loop of the arm pass. *)
Definition arm_row_body (elapsed : Z) (raw cooked : list Z) (row : nat)
    (a : list debounce_counter_t * Z * nat) : list debounce_counter_t * Z * nat :=
  let '(cs, head, p) := a in
  let cooked_row := cooked !!! row in
  let raw_row := raw !!! row in
  let delta := Z.lxor cooked_row raw_row in
  if delta =? 0 then (cs, head, (p + MATRIX_COLS)%nat)
  else for_loop MATRIX_COLS 0 (arm_col_body elapsed cooked_row raw_row) (cs, head, p).

Definition arm (elapsed : Z) (raw cooked : list Z) (num_rows : nat)
    (cs : list debounce_counter_t) (head : Z) : list debounce_counter_t * Z :=
  let '(cs', head', _) :=
    for_loop num_rows 0 (arm_row_body elapsed raw cooked) (cs, head, O) in
  (cs', head').

(** [debounce] once [elapsed] is known: the settle pass, then the
    arm pass when something changed. *)
Definition debounce_with (elapsed : Z) (raw cooked : list Z) (num_rows : nat)
    (changed : bool) (cs : list debounce_counter_t) (head : Z)
    : option (list debounce_counter_t * Z * list Z) :=
  match settle (S (length cs)) elapsed raw cs head cooked head_link head with
  | None => None
  | Some (cs1, head1, cooked1) =>
      if changed then
        let '(cs2, head2) := arm elapsed raw cooked1 num_rows cs1 head1 in
        Some (cs2, head2, cooked1)
      else Some (cs1, head1, cooked1)
  end.

Definition debounce (e : engine) (now : Z) (raw cooked : list Z) (num_rows : nat)
    (changed : bool) : option (engine * list Z) :=
  let '(elapsed, e1) := get_elapsed e now in
  match debounce_with elapsed raw cooked num_rows changed
          (debounce_counters e1) (debounce_list_head e1) with
  | None => None
  | Some (cs, head, cooked') =>
      Some ({| debounce_counters := cs; debounce_list_head := head;
               last_time_initialized := last_time_initialized e1;
               last_time := last_time e1 |}, cooked')
  end.

(** A sequence of calls, the cooked matrix handed from each to the
    next. *)
Fixpoint run (num_rows : nat) (e : engine) (cooked : list Z) (calls : list call)
    : option (engine * list Z) :=
  match calls with
  | [] => Some (e, cooked)
  | cl :: calls' =>
      match debounce e (c_now cl) (c_raw cl) cooked num_rows (c_changed cl) with
      | None => None
      | Some (e', cooked') => run num_rows e' cooked' calls'
      end
  end.

(** The cooked matrix after each of a sequence of calls, given the
    deltas they apply. *)
Fixpoint cooked_trace (num_rows : nat) (cs : list debounce_counter_t) (head : Z)
    (cooked : list Z) (frames : list frame) : option (list (list Z)) :=
  match frames with
  | [] => Some []
  | f :: frames' =>
      match debounce_with (f_elapsed f) (f_raw f) cooked num_rows (f_changed f) cs head with
      | None => None
      | Some (cs', head', cooked') =>
          match cooked_trace num_rows cs' head' cooked' frames' with
          | None => None
          | Some tr => Some (cooked' :: tr)
          end
      end
  end.

(** The states the engine goes through: [debounce_init], then any
    calls of [debounce] on a cooked matrix of [num_rows] rows. *)
Inductive reached (num_rows : nat) : engine -> Prop :=
| reached_init block old :
    length block = (num_rows * MATRIX_COLS)%nat ->
    reached num_rows (debounce_init num_rows block old)
| reached_call e now raw cooked changed e' cooked' :
    reached num_rows e ->
    length cooked = num_rows ->
    debounce e now raw cooked num_rows changed = Some (e', cooked') ->
    reached num_rows e'.

(** *** The list threaded through the counters *)

(** [lseg cs p l]: following [next] from [p] visits exactly the
    entries [l], in this order, and then reaches [DEBOUNCE_NULL]. *)
Fixpoint lseg (cs : list debounce_counter_t) (p : Z) (l : list nat) : Prop :=
  match l with
  | [] => p = DEBOUNCE_NULL
  | i :: l' => p = Z.of_nat i /\ (i < length cs)%nat /\ lseg cs (next (cs !!! i)) l'
  end.

(** The entries that can be reached from the head through [next]. *)
Inductive reachable (cs : list debounce_counter_t) (head : Z) : nat -> Prop :=
| reach_head i : head = Z.of_nat i -> (i < length cs)%nat -> reachable cs head i
| reach_next i j :
    reachable cs head i -> next (cs !!! i) = Z.of_nat j -> (j < length cs)%nat ->
    reachable cs head j.

(** A key outlives the settle pass when it has more time left than
    elapsed. *)
Definition keeps (elapsed : Z) (cs : list debounce_counter_t) (i : nat) : Prop :=
  elapsed < remaining (cs !!! i).

(** The state between two calls: the array has one entry per key and
    fewer than [DEBOUNCE_NULL] of them, every counter is a byte, and
    the list holds each key that has time left exactly once. *)
Definition engine_ok (num_rows : nat) (cs : list debounce_counter_t) (head : Z) : Prop :=
  length cs = (num_rows * MATRIX_COLS)%nat /\
  (num_rows * MATRIX_COLS < 255)%nat /\
  (forall i, 0 <= remaining (cs !!! i) <= 255) /\
  exists l, NoDup l /\ lseg cs head l /\
            forall i, (i < length cs)%nat -> (i ∈ l <-> remaining (cs !!! i) <> 0).

(** *** Facts on list segments *)

Lemma sparse_lseg_frame cs cs' p l :
  length cs' = length cs ->
  (forall i, i ∈ l -> next (cs' !!! i) = next (cs !!! i)) ->
  lseg cs p l -> lseg cs' p l.
Proof.
  intros Hlen. revert p. induction l as [|i l IH]; intros p Hn H; simpl in *.
  - exact H.
  - destruct H as (Hp & Hi & Hl). repeat split; [assumption | lia |].
    rewrite Hn by (apply elem_of_cons; now left). apply IH; [|assumption].
    intros j Hj. apply Hn. apply elem_of_cons. now right.
Qed.

Lemma sparse_lseg_bound cs p l i : lseg cs p l -> i ∈ l -> (i < length cs)%nat.
Proof.
  revert p. induction l as [|j l IH]; intros p H Hi; simpl in *.
  - now apply not_elem_of_nil in Hi.
  - destruct H as (_ & Hj & Hl). apply elem_of_cons in Hi as [->|Hi]; eauto.
Qed.

Lemma sparse_lseg_reachable cs head p l :
  lseg cs p l ->
  (p = head \/ exists i, reachable cs head i /\ next (cs !!! i) = p) ->
  forall i, i ∈ l -> reachable cs head i.
Proof.
  revert p. induction l as [|j l IH]; intros p H Hp i Hi; simpl in *.
  - now apply not_elem_of_nil in Hi.
  - destruct H as (Hpj & Hj & Hl).
    assert (Hrj : reachable cs head j).
    { destruct Hp as [->|(k & Hk & Hn)].
      - now apply reach_head.
      - apply (reach_next cs head k j); congruence. }
    apply elem_of_cons in Hi as [->|Hi]; [assumption|].
    apply (IH _ Hl); [|assumption]. right. eauto.
Qed.

Lemma sparse_lseg_closed cs p l k j :
  (length cs < 255)%nat ->
  lseg cs p l -> k ∈ l ->
  next (cs !!! k) = Z.of_nat j -> (j < length cs)%nat -> j ∈ l.
Proof.
  intros Hlen. revert p. induction l as [|a l IH]; intros p H Hk Hn Hj.
  - now apply not_elem_of_nil in Hk.
  - simpl in H. destruct H as (_ & _ & Hl).
    apply elem_of_cons in Hk as [->|Hk].
    + destruct l as [|b l]; simpl in Hl.
      * unfold DEBOUNCE_NULL in Hl. lia.
      * destruct Hl as (Hb & _). apply elem_of_cons. right. apply elem_of_cons. left. lia.
    + apply elem_of_cons. right. eapply IH; eauto.
Qed.

Lemma sparse_reachable_lseg cs head l i :
  (length cs < 255)%nat ->
  lseg cs head l -> reachable cs head i -> i ∈ l.
Proof.
  intros Hlen Hl Hr. induction Hr as [i Hh Hi | i j Hr IH Hn Hj].
  - destruct l as [|a l]; simpl in Hl.
    + unfold DEBOUNCE_NULL in Hl. lia.
    + destruct Hl as (Ha & _). apply elem_of_cons. left. lia.
  - eapply sparse_lseg_closed; eauto.
Qed.

(** Under [engine_ok] the list and the counters are in lock-step. *)
Lemma sparse_engine_ok_lockstep num_rows cs head i :
  engine_ok num_rows cs head ->
  (i < length cs)%nat ->
  (reachable cs head i <-> remaining (cs !!! i) <> 0).
Proof.
  intros (Hlen & Hn & _ & l & _ & Hl & Hmem) Hi.
  rewrite <- (Hmem i Hi). split.
  - apply sparse_reachable_lseg; [lia | assumption].
  - intros Hin. apply (sparse_lseg_reachable cs head head l); auto.
Qed.

(** *** The settle pass *)

(** The link the walk holds does not lie inside the part of the list
    that is still to visit. *)
Definition link_ok (cs : list debounce_counter_t) (l : list nat) (pp : link) : Prop :=
  match pp with
  | head_link => True
  | next_link j => (j < length cs)%nat /\ j ∉ l
  end.

(** What the walk from [p] over the entries [l] leaves behind. *)
Definition settled (elapsed : Z) (raw : list Z) (num_rows : nat)
    (cs : list debounce_counter_t) (head : Z) (cooked : list Z) (pp : link)
    (l : list nat) (out : list debounce_counter_t * Z * list Z) : Prop :=
  let '(cs', head', cooked') := out in
  length cs' = length cs /\
  length cooked' = length cooked /\
  (exists l', NoDup l' /\ lseg cs' (load cs' head' pp) l' /\
              forall i, i ∈ l' <-> i ∈ l /\ keeps elapsed cs i) /\
  (pp <> head_link -> head' = head) /\
  (forall i, i ∉ l -> remaining (cs' !!! i) = remaining (cs !!! i)) /\
  (forall i, i ∉ l -> pp <> next_link i -> next (cs' !!! i) = next (cs !!! i)) /\
  (forall i, i ∈ l ->
     remaining (cs' !!! i) =
       if remaining (cs !!! i) >? elapsed then uint8 (remaining (cs !!! i) - elapsed) else 0) /\
  (forall r c, (r < num_rows)%nat -> (c < MATRIX_COLS)%nat ->
     let i := (r * MATRIX_COLS + c)%nat in
     (i ∈ l -> ~ keeps elapsed cs i ->
        row_bit (cooked' !!! r) c = row_bit (raw !!! r) c) /\
     (i ∉ l \/ keeps elapsed cs i ->
        row_bit (cooked' !!! r) c = row_bit (cooked !!! r) c)).

Lemma sparse_keeps_gtb elapsed cs i :
  (remaining (cs !!! i) >? elapsed) = true <-> keeps elapsed cs i.
Proof. unfold keeps. destruct (Z.gtb_spec (remaining (cs !!! i)) elapsed); split; intros; (lia || congruence). Qed.

Lemma sparse_link_neq i j : i <> j -> next_link i <> next_link j.
Proof. congruence. Qed.

Lemma sparse_store_spec cs head pp v cs2 head2 :
  store cs head pp v = (cs2, head2) ->
  link_ok cs [] pp ->
  length cs2 = length cs /\
  (forall x, remaining (cs2 !!! x) = remaining (cs !!! x)) /\
  (forall x, pp <> next_link x -> next (cs2 !!! x) = next (cs !!! x)) /\
  load cs2 head2 pp = v /\
  (pp <> head_link -> head2 = head).
Proof.
  intros Hst Hlk. destruct pp as [|j]; simpl in *.
  - injection Hst as <- <-. repeat split; congruence.
  - injection Hst as <- <-. destruct Hlk as [Hj _].
    split; [apply length_insert|]. split; [|split; [|split]].
    + intros x. destruct (Nat.eq_dec j x) as [->|Hne].
      * now rewrite list_lookup_total_insert_eq.
      * now rewrite list_lookup_total_insert_ne.
    + intros x Hx. rewrite list_lookup_total_insert_ne; [reflexivity|congruence].
    + now rewrite list_lookup_total_insert_eq.
    + reflexivity.
Qed.

(** The bit the expiry of entry [i] writes, seen from key [(r, c)]. *)
Lemma sparse_commit_bit (raw cooked : list Z) num_rows (i r c : nat) :
  (MATRIX_COLS <= ROW_BITS)%nat ->
  length cooked = num_rows ->
  (i < num_rows * MATRIX_COLS)%nat ->
  (r < num_rows)%nat -> (c < MATRIX_COLS)%nat ->
  let row := (i / MATRIX_COLS)%nat in
  let col := (i mod MATRIX_COLS)%nat in
  let col_mask := row_t (Z.shiftl 1 (Z.of_nat col)) in
  let delta := Z.land (Z.lxor (cooked !!! row) (raw !!! row)) col_mask in
  row_bit (<[row := row_t (Z.lxor (cooked !!! row) delta)]> cooked !!! r) c =
    if Nat.eqb (r * MATRIX_COLS + c) i then row_bit (raw !!! r) c
    else row_bit (cooked !!! r) c.
Proof.
  intros Hw Hlc Hi Hr Hc row col col_mask delta.
  assert (Hcols : MATRIX_COLS <> O) by lia.
  pose proof (Nat.div_mod_eq i MATRIX_COLS) as Hdm. fold row col in Hdm.
  assert (Hcol : (col < MATRIX_COLS)%nat) by (apply Nat.mod_upper_bound; assumption).
  assert (Hrow : (row < num_rows)%nat) by (apply Nat.Div0.div_lt_upper_bound; lia).
  assert (Hmask : col_mask = 2 ^ Z.of_nat col).
  { unfold col_mask. rewrite Z.shiftl_1_l. apply row_t_pow2. lia. }
  destruct (Nat.eq_dec r row) as [->|Hne].
  - rewrite list_lookup_total_insert_eq by lia.
    unfold delta. rewrite Hmask, row_t_bit, row_bit_xor_commit by lia.
    destruct (Nat.eqb_spec col c) as [->|Hcc].
    + replace (Nat.eqb (row * MATRIX_COLS + c) i) with true; [reflexivity|].
      symmetry. apply Nat.eqb_eq. lia.
    + replace (Nat.eqb (row * MATRIX_COLS + c) i) with false; [reflexivity|].
      symmetry. apply Nat.eqb_neq. lia.
  - rewrite list_lookup_total_insert_ne by congruence.
    replace (Nat.eqb (r * MATRIX_COLS + c) i) with false; [reflexivity|].
    symmetry. apply Nat.eqb_neq. nia.
Qed.

Lemma sparse_settle_spec elapsed raw num_rows l :
  forall fuel cs head cooked pp p,
  (MATRIX_COLS <= ROW_BITS)%nat ->
  length cs = (num_rows * MATRIX_COLS)%nat ->
  length cooked = num_rows ->
  (length cs < 255)%nat ->
  NoDup l -> lseg cs p l ->
  (forall i, i ∈ l -> remaining (cs !!! i) <> 0) ->
  load cs head pp = p -> link_ok cs l pp ->
  (length l < fuel)%nat ->
  exists out, settle fuel elapsed raw cs head cooked pp p = Some out /\
              settled elapsed raw num_rows cs head cooked pp l out.
Proof.
  induction l as [|i l IH];
    intros fuel cs head cooked pp p Hw Hlen Hlc Hn Hnd Hl Hlive Hpp Hlk Hfuel;
    (destruct fuel as [|fuel]; [simpl in Hfuel; lia|]); simpl in Hl.
  - (* the end of the list *)
    subst p. simpl. exists (cs, head, cooked). split; [reflexivity|].
    unfold settled.
    split; [reflexivity|]. split; [reflexivity|]. split.
    { exists []. split; [constructor|]. split; [exact Hpp|].
      intros i. split; [intros H; now apply not_elem_of_nil in H | intros [H _]; exact H]. }
    split; [reflexivity|]. split; [reflexivity|]. split; [reflexivity|]. split.
    { intros i H. now apply not_elem_of_nil in H. }
    intros r c Hr Hc. split; [|reflexivity].
    intros H. now apply not_elem_of_nil in H.
  - destruct Hl as (Hp & Hi & Hl).
    apply NoDup_cons in Hnd as [Hil Hnd].
    cbn [settle].
    assert (Hnull : (p =? DEBOUNCE_NULL) = false).
    { apply Z.eqb_neq. unfold DEBOUNCE_NULL. lia. }
    rewrite Hnull. replace (Z.to_nat p) with i by lia.
    assert (Hlive_i : (remaining (cs !!! i) =? 0) = false).
    { apply Z.eqb_neq, Hlive, elem_of_cons. now left. }
    rewrite Hlive_i.
    assert (Hlive_l : forall x, x ∈ l -> remaining (cs !!! x) <> 0).
    { intros x Hx. apply Hlive, elem_of_cons. now right. }
    destruct (remaining (cs !!! i) >? elapsed) eqn:Hk.
    + (* the entry stays *)
      set (cs1 := <[i := _]> cs).
      assert (Hl1 : length cs1 = length cs) by apply length_insert.
      assert (Hn1 : forall x, next (cs1 !!! x) = next (cs !!! x)).
      { intros x. unfold cs1. destruct (Nat.eq_dec i x) as [->|Hne].
        - now rewrite list_lookup_total_insert_eq.
        - now rewrite list_lookup_total_insert_ne. }
      assert (Hr1 : forall x, x <> i -> remaining (cs1 !!! x) = remaining (cs !!! x)).
      { intros x Hx. unfold cs1. now rewrite list_lookup_total_insert_ne by congruence. }
      assert (Hseg1 : lseg cs1 (load cs1 head (next_link i)) l).
      { simpl. rewrite Hn1. apply (sparse_lseg_frame cs); auto. }
      assert (Hlk1 : link_ok cs1 l (next_link i)) by (split; [lia|assumption]).
      assert (Hlive1 : forall x, x ∈ l -> remaining (cs1 !!! x) <> 0).
      { intros x Hx. rewrite Hr1 by congruence. now apply Hlive_l. }
      destruct (IH fuel cs1 head cooked (next_link i) (load cs1 head (next_link i))
                  Hw ltac:(lia) Hlc ltac:(lia) Hnd Hseg1 Hlive1 eq_refl Hlk1
                  ltac:(simpl in Hfuel; lia))
        as ([[cs' head'] cooked'] & Hout & Hs).
      exists (cs', head', cooked'). split; [exact Hout|].
      destruct Hs as (Hlen' & Hlc' & (l' & Hnd' & Hl' & Hmem') & Hhead & Hrem & Hnext & Hin & Hbits).
      unfold settled.
      split; [congruence|]. split; [assumption|]. split.
      { exists (i :: l'). split; [|split].
        - apply NoDup_cons. split; [|assumption].
          intros Hx. apply Hmem' in Hx as [Hx _]. contradiction.
        - simpl. split; [|split; [lia | exact Hl']].
          destruct pp as [|j]; simpl.
          + rewrite Hhead by discriminate. simpl in Hpp. congruence.
          + destruct Hlk as [Hj Hjl]. apply not_elem_of_cons in Hjl as [Hji Hjl].
            rewrite Hnext; [|assumption|congruence]. rewrite Hn1. simpl in Hpp. congruence.
        - intros x. rewrite !elem_of_cons, Hmem'. unfold keeps. split.
          + intros [->|[Hx Hkx]].
            * split; [now left | now apply sparse_keeps_gtb].
            * split; [now right|]. rewrite <- Hr1; [assumption|congruence].
          + intros [[->|Hx] Hkx]; [now left|]. right. split; [assumption|].
            rewrite Hr1; [assumption|congruence]. }
      split. { intros _. apply Hhead. discriminate. }
      split. { intros x Hx. apply not_elem_of_cons in Hx as [Hxi Hxl].
               rewrite Hrem by assumption. now apply Hr1. }
      split. { intros x Hx Hppx. apply not_elem_of_cons in Hx as [Hxi Hxl].
               rewrite Hnext; [apply Hn1 | assumption | congruence]. }
      split. { intros x Hx. apply elem_of_cons in Hx as [->|Hx].
               - rewrite Hrem by assumption. rewrite Hk. unfold cs1.
                 now rewrite list_lookup_total_insert_eq by lia.
               - rewrite Hin by assumption. rewrite Hr1 by congruence. reflexivity. }
      intros r c Hr Hc. destruct (Hbits r c Hr Hc) as [Hb1 Hb2]. split.
      * intros Hx Hnk. apply elem_of_cons in Hx as [Hx|Hx].
        -- exfalso. apply Hnk. rewrite Hx. now apply sparse_keeps_gtb.
        -- apply Hb1; [assumption|]. unfold keeps in *.
           rewrite Hr1; [assumption|congruence].
      * intros Hx. apply Hb2.
        destruct (Nat.eq_dec (r * MATRIX_COLS + c)%nat i) as [Heq|Hne].
        -- left. now rewrite Heq.
        -- destruct Hx as [Hx|Hx].
           ++ left. apply not_elem_of_cons in Hx. tauto.
           ++ right. unfold keeps in *. now rewrite Hr1.
    + (* the entry expires *)
      assert (Hnk : ~ keeps elapsed cs i).
      { intros H. apply sparse_keeps_gtb in H. congruence. }
      set (cooked1 := <[(i / MATRIX_COLS)%nat := _]> cooked).
      destruct (store cs head pp (next (cs !!! i))) as [cs2 head2] eqn:Hst.
      assert (Hlk0 : link_ok cs [] pp).
      { destruct pp as [|j]; simpl in *; [exact I|]. split; [tauto|apply not_elem_of_nil]. }
      destruct (sparse_store_spec _ _ _ _ _ _ Hst Hlk0) as (Hl2 & Hr2 & Hn2 & Hld2 & Hh2).
      set (cs3 := <[i := _]> cs2).
      assert (Hl3 : length cs3 = length cs) by (unfold cs3; now rewrite length_insert).
      assert (H3 : forall x, x <> i -> cs3 !!! x = cs2 !!! x).
      { intros x Hx. unfold cs3. now rewrite list_lookup_total_insert_ne by congruence. }
      assert (H3i : remaining (cs3 !!! i) = 0).
      { unfold cs3. now rewrite list_lookup_total_insert_eq by lia. }
      assert (Hppi : pp <> next_link i).
      { destruct pp as [|j]; [discriminate|]. simpl in Hlk. destruct Hlk as [_ Hj].
        apply not_elem_of_cons in Hj as [Hj _]. congruence. }
      assert (Hppl : forall x, x ∈ l -> pp <> next_link x).
      { intros x Hx. destruct pp as [|j]; [discriminate|]. simpl in Hlk.
        destruct Hlk as [_ Hj]. apply not_elem_of_cons in Hj as [_ Hj]. congruence. }
      assert (Hseg3 : lseg cs3 (next (cs !!! i)) l).
      { apply (sparse_lseg_frame cs); [assumption| |assumption].
        intros x Hx. rewrite H3 by congruence. apply Hn2. now apply Hppl. }
      assert (Hld3 : load cs3 head2 pp = next (cs !!! i)).
      { rewrite <- Hld2. destruct pp as [|j]; simpl; [reflexivity|].
        rewrite H3; [reflexivity|congruence]. }
      assert (Hlk3 : link_ok cs3 l pp).
      { destruct pp as [|j]; simpl in *; [exact I|]. destruct Hlk as [Hj Hjl].
        apply not_elem_of_cons in Hjl as [_ Hjl]. split; [lia|assumption]. }
      assert (Hlc1 : length cooked1 = num_rows) by (unfold cooked1; now rewrite length_insert).
      assert (Hrem3 : forall x, x <> i -> remaining (cs3 !!! x) = remaining (cs !!! x)).
      { intros x Hx. rewrite H3 by assumption. apply Hr2. }
      assert (Hlive3 : forall x, x ∈ l -> remaining (cs3 !!! x) <> 0).
      { intros x Hx. rewrite Hrem3 by congruence. now apply Hlive_l. }
      destruct (IH fuel cs3 head2 cooked1 pp (next (cs !!! i))
                  Hw ltac:(lia) Hlc1 ltac:(lia) Hnd Hseg3 Hlive3 Hld3 Hlk3
                  ltac:(simpl in Hfuel; lia))
        as ([[cs' head'] cooked'] & Hout & Hs).
      exists (cs', head', cooked'). split; [exact Hout|].
      destruct Hs as (Hlen' & Hlc' & (l' & Hnd' & Hl' & Hmem') & Hhead & Hrem & Hnext & Hin & Hbits).
      unfold settled.
      split; [congruence|]. split; [congruence|]. split.
      { exists l'. split; [assumption|]. split; [assumption|].
        intros x. rewrite Hmem', elem_of_cons. unfold keeps. split.
        - intros [Hx Hkx]. split; [now right|]. rewrite <- Hrem3; [assumption|congruence].
        - intros [[->|Hx] Hkx]; [contradiction|]. split; [assumption|].
          rewrite Hrem3; [assumption|congruence]. }
      split. { intros Hh. rewrite Hhead by assumption. now apply Hh2. }
      split. { intros x Hx. apply not_elem_of_cons in Hx as [Hxi Hxl].
               rewrite Hrem by assumption. now apply Hrem3. }
      split. { intros x Hx Hppx. apply not_elem_of_cons in Hx as [Hxi Hxl].
               rewrite Hnext by assumption. rewrite H3 by assumption. now apply Hn2. }
      split. { intros x Hx. apply elem_of_cons in Hx as [->|Hx].
               - rewrite Hrem by assumption. now rewrite Hk.
               - rewrite Hin by assumption. rewrite Hrem3 by congruence. reflexivity. }
      intros r c Hr Hc. destruct (Hbits r c Hr Hc) as [Hb1 Hb2].
      pose proof (sparse_commit_bit raw cooked num_rows i r c Hw Hlc ltac:(lia) Hr Hc) as Hcb.
      cbv zeta in Hcb. fold cooked1 in Hcb.
      destruct (Nat.eqb_spec (r * MATRIX_COLS + c)%nat i) as [Heq|Hne].
      * split.
        -- intros _ _. rewrite Hb2; [exact Hcb|]. left. now rewrite Heq.
        -- intros [Hx|Hx].
           ++ exfalso. apply Hx. apply elem_of_cons. now left.
           ++ exfalso. apply Hnk. now rewrite <- Heq.
      * rewrite <- Hcb. split.
        -- intros Hx Hnkx. apply elem_of_cons in Hx as [Hx|Hx]; [contradiction|].
           apply Hb1; [assumption|]. unfold keeps in *. now rewrite Hrem3.
        -- intros Hx. apply Hb2. destruct Hx as [Hx|Hx].
           ++ left. apply not_elem_of_cons in Hx. tauto.
           ++ right. unfold keeps in *. now rewrite Hrem3.
Qed.

(** *** The arm pass *)

(** What the arm pass does to the time left of one key. *)
Definition arm_key (mismatch raw_bit : bool) (elapsed rem : Z) : Z :=
  if mismatch then
    if rem =? 0 then uint8 (if raw_bit then DEBOUNCE_DOWN else DEBOUNCE_UP)
    else uint8 (rem + elapsed)
  else rem.

(** The keys from [q] on that are in flight can be extended by
    [elapsed] without leaving a byte: the settle pass has just taken
    [elapsed] from them. *)
Definition headroom (elapsed : Z) (q : nat) (cs : list debounce_counter_t) : Prop :=
  forall i, (q <= i)%nat ->
    remaining (cs !!! i) = 0 \/ remaining (cs !!! i) + elapsed <= 255.

Lemma sparse_arm_col_step elapsed cooked_row raw_row num_rows row col cs head :
  config_ok ->
  0 <= elapsed ->
  (row < num_rows)%nat -> (col < MATRIX_COLS)%nat ->
  let p := (row * MATRIX_COLS + col)%nat in
  engine_ok num_rows cs head ->
  headroom elapsed p cs ->
  let '(cs', head', p') := arm_col_body elapsed cooked_row raw_row col (cs, head, p) in
  p' = S p /\
  engine_ok num_rows cs' head' /\
  headroom elapsed (S p) cs' /\
  remaining (cs' !!! p) =
    arm_key (xorb (row_bit cooked_row col) (row_bit raw_row col))
            (row_bit raw_row col) elapsed (remaining (cs !!! p)) /\
  (forall i, i <> p -> remaining (cs' !!! i) = remaining (cs !!! i)).
Proof.
  intros (Hw & Hdown & Hup & _) He Hrow Hcol p (Hlen & Hn & Hrange & l & Hnd & Hl & Hmem) Hroom.
  assert (Hp : (p < length cs)%nat) by (unfold p; rewrite Hlen; nia).
  unfold arm_col_body, arm_key.
  assert (Hmask : row_t (Z.shiftl 1 (Z.of_nat col)) = 2 ^ Z.of_nat col).
  { rewrite Z.shiftl_1_l. apply row_t_pow2. lia. }
  rewrite Hmask, !(Z.land_comm (2 ^ Z.of_nat col)), !nonzero_land_pow2 by lia.
  fold (row_bit (Z.lxor cooked_row raw_row) col). fold (row_bit raw_row col).
  rewrite row_bit_lxor.
  destruct (xorb (row_bit cooked_row col) (row_bit raw_row col)).
  - destruct (Z.eqb_spec (remaining (cs !!! p)) 0) as [H0|H0].
    + (* pushed on the list and armed *)
      set (w := uint8 (if row_bit raw_row col then DEBOUNCE_DOWN else DEBOUNCE_UP)).
      assert (Hwr : 0 < w <= 255).
      { unfold w. rewrite uint8_small; destruct (row_bit raw_row col); lia. }
      assert (Hpl : p ∉ l) by (intros Hin; apply Hmem in Hin; [congruence|assumption]).
      split; [reflexivity|]. split; [|split; [|split]].
      * unfold engine_ok. rewrite length_insert.
        split; [assumption|]. split; [assumption|]. split.
        { intros i. destruct (Nat.eq_dec p i) as [<-|Hne].
          - rewrite list_lookup_total_insert_eq by assumption. simpl. lia.
          - rewrite list_lookup_total_insert_ne by assumption. apply Hrange. }
        exists (p :: l). split; [apply NoDup_cons; auto|]. split.
        { simpl. rewrite length_insert, list_lookup_total_insert_eq by assumption. simpl.
          split; [apply uint8_small; lia|]. split; [assumption|].
          apply (sparse_lseg_frame cs); [apply length_insert| |assumption].
          intros i Hi. rewrite list_lookup_total_insert_ne; [reflexivity|congruence]. }
        intros i Hi. rewrite elem_of_cons. destruct (Nat.eq_dec p i) as [<-|Hne].
        -- rewrite list_lookup_total_insert_eq by assumption. simpl. split; [lia|auto].
        -- rewrite list_lookup_total_insert_ne by assumption. rewrite <- Hmem by assumption.
           split; [intros [?|?]; [congruence|assumption] | auto].
      * intros i Hi. rewrite list_lookup_total_insert_ne by lia. apply Hroom. lia.
      * rewrite list_lookup_total_insert_eq by assumption. reflexivity.
      * intros i Hi. rewrite list_lookup_total_insert_ne by congruence. reflexivity.
    + (* fluttering: extended *)
      pose proof (Hrange p) as Hrp.
      assert (Hext : uint8 (remaining (cs !!! p) + elapsed) = remaining (cs !!! p) + elapsed).
      { apply uint8_small. destruct (Hroom p ltac:(lia)); lia. }
      split; [reflexivity|]. split; [|split; [|split]].
      * unfold engine_ok. rewrite length_insert.
        split; [assumption|]. split; [assumption|]. split.
        { intros i. destruct (Nat.eq_dec p i) as [<-|Hne].
          - rewrite list_lookup_total_insert_eq by assumption. simpl.
            destruct (Hroom p ltac:(lia)); lia.
          - rewrite list_lookup_total_insert_ne by assumption. apply Hrange. }
        exists l. split; [assumption|]. split.
        { apply (sparse_lseg_frame cs); [apply length_insert| |assumption].
          intros i Hi. destruct (Nat.eq_dec p i) as [<-|Hne].
          - now rewrite list_lookup_total_insert_eq by assumption.
          - now rewrite list_lookup_total_insert_ne by assumption. }
        intros i Hi. rewrite Hmem by assumption. destruct (Nat.eq_dec p i) as [<-|Hne].
        -- rewrite list_lookup_total_insert_eq by assumption. simpl. lia.
        -- now rewrite list_lookup_total_insert_ne by assumption.
      * intros i Hi. rewrite list_lookup_total_insert_ne by lia. apply Hroom. lia.
      * rewrite list_lookup_total_insert_eq by assumption. reflexivity.
      * intros i Hi. rewrite list_lookup_total_insert_ne by congruence. reflexivity.
  - (* no mismatch: untouched *)
    split; [reflexivity|]. split; [|split; [|split]].
    + unfold engine_ok. eauto 10.
    + intros i Hi. apply Hroom. lia.
    + reflexivity.
    + reflexivity.
Qed.

(** The time the arm pass leaves to the key of index [i]. *)
Definition arm_rem (elapsed : Z) (raw cooked : list Z) (cs0 : list debounce_counter_t)
    (i : nat) : Z :=
  let r := (i / MATRIX_COLS)%nat in
  let c := (i mod MATRIX_COLS)%nat in
  arm_key (xorb (row_bit (cooked !!! r) c) (row_bit (raw !!! r) c))
          (row_bit (raw !!! r) c) elapsed (remaining (cs0 !!! i)).

(** What the arm pass has done when its pointer stands at key [q]. *)
Definition arm_inv (elapsed : Z) (raw cooked : list Z) (num_rows : nat)
    (cs0 : list debounce_counter_t) (q : nat)
    (a : list debounce_counter_t * Z * nat) : Prop :=
  let '(cs, head, p) := a in
  p = q /\
  engine_ok num_rows cs head /\
  headroom elapsed q cs /\
  (forall i, (i < q)%nat -> remaining (cs !!! i) = arm_rem elapsed raw cooked cs0 i) /\
  (forall i, (q <= i)%nat -> remaining (cs !!! i) = remaining (cs0 !!! i)).

Lemma sparse_arm_row_step elapsed raw cooked num_rows cs0 row a :
  config_ok ->
  0 <= elapsed ->
  (row < num_rows)%nat ->
  arm_inv elapsed raw cooked num_rows cs0 (row * MATRIX_COLS) a ->
  arm_inv elapsed raw cooked num_rows cs0 (S row * MATRIX_COLS)
    (arm_row_body elapsed raw cooked row a).
Proof.
  intros Hcfg He Hrow. destruct a as [[cs head] p].
  intros (Hp & Hok & Hroom & Hdone & Hrest).
  unfold arm_row_body.
  destruct (Z.eqb_spec (Z.lxor (cooked !!! row) (raw !!! row)) 0) as [Hz|Hnz].
  - (* nothing differs in this row *)
    unfold arm_inv. split; [lia|]. split; [assumption|]. split; [|split].
    + intros i Hi. apply Hroom. lia.
    + intros i Hi. destruct (Nat.lt_ge_cases i (row * MATRIX_COLS)) as [Hlt|Hge].
      * now apply Hdone.
      * rewrite Hrest by assumption. unfold arm_rem, arm_key.
        assert (Hcols : MATRIX_COLS <> O) by lia.
        assert (Hr : (i / MATRIX_COLS)%nat = row).
        { symmetry. apply (Nat.div_unique i MATRIX_COLS row (i - row * MATRIX_COLS)); lia. }
        rewrite Hr, <- row_bit_lxor, Hz. unfold row_bit. now rewrite Z.bits_0.
    + intros i Hi. apply Hrest. lia.
  - (* the columns of the row *)
    pose (P := fun (k : nat) => arm_inv elapsed raw cooked num_rows cs0
                                  (row * MATRIX_COLS + k)).
    assert (H : P (0 + MATRIX_COLS)%nat
                  (for_loop MATRIX_COLS 0
                     (arm_col_body elapsed (cooked !!! row) (raw !!! row)) (cs, head, p))).
    { apply (for_loop_inv P).
      - unfold P, arm_inv. rewrite Nat.add_0_r. auto.
      - intros col [[cs1 head1] p1] Hcol (Hp1 & Hok1 & Hroom1 & Hdone1 & Hrest1).
        subst p1.
        pose proof (sparse_arm_col_step elapsed (cooked !!! row) (raw !!! row) num_rows row col
                      cs1 head1 Hcfg He Hrow ltac:(lia) Hok1 Hroom1) as Hstep.
        cbv zeta in Hstep.
        destruct (arm_col_body _ _ _ _ _) as [[cs2 head2] p2].
        destruct Hstep as (Hp2 & Hok2 & Hroom2 & Hkey & Hoth).
        unfold P, arm_inv. split; [lia|]. split; [assumption|]. split; [|split].
        + replace (row * MATRIX_COLS + S col)%nat with (S (row * MATRIX_COLS + col)) by lia.
          assumption.
        + intros i Hi.
          destruct (Nat.eq_dec i (row * MATRIX_COLS + col)%nat) as [->|Hne].
          * rewrite Hkey, Hrest1 by lia. unfold arm_rem.
            rewrite cell_index_div, cell_index_mod by lia. reflexivity.
          * rewrite Hoth by assumption. apply Hdone1. lia.
        + intros i Hi. rewrite Hoth by lia. apply Hrest1. lia. }
    unfold P in H. replace (S row * MATRIX_COLS)%nat with (row * MATRIX_COLS + (0 + MATRIX_COLS))%nat by lia.
    exact H.
Qed.

(** The arm pass keeps the list and the counters in step, and arms
    or extends every key on its own. *)
Lemma sparse_arm_spec elapsed raw cooked num_rows cs head :
  config_ok ->
  0 <= elapsed ->
  engine_ok num_rows cs head ->
  headroom elapsed 0 cs ->
  let '(cs', head') := arm elapsed raw cooked num_rows cs head in
  engine_ok num_rows cs' head' /\
  forall r c, (r < num_rows)%nat -> (c < MATRIX_COLS)%nat ->
    remaining (cs' !!! (r * MATRIX_COLS + c)%nat) =
      arm_key (xorb (row_bit (cooked !!! r) c) (row_bit (raw !!! r) c))
              (row_bit (raw !!! r) c) elapsed
              (remaining (cs !!! (r * MATRIX_COLS + c)%nat)).
Proof.
  intros Hcfg He Hok Hroom. unfold arm.
  pose (P := fun (r : nat) => arm_inv elapsed raw cooked num_rows cs (r * MATRIX_COLS)).
  assert (H : P (0 + num_rows)%nat
                (for_loop num_rows 0 (arm_row_body elapsed raw cooked) (cs, head, O))).
  { apply (for_loop_inv P).
    - unfold P, arm_inv. simpl.
      split; [reflexivity|]. split; [assumption|]. split; [assumption|].
      split; [intros; lia | reflexivity].
    - intros r a Hr Ha. apply sparse_arm_row_step; try assumption; lia. }
  destruct (for_loop num_rows 0 _ _) as [[cs' head'] p'].
  destruct H as (_ & Hok' & _ & Hdone & _). split; [assumption|].
  intros r c Hr Hc. rewrite Hdone by (simpl; nia).
  unfold arm_rem. rewrite cell_index_div, cell_index_mod by lia. reflexivity.
Qed.

(** *** One call *)

(** What the settle pass does to one key: the time left, and the
    cooked bit. *)
Definition settle_key (cooked_bit raw_bit : bool) (elapsed rem : Z) : Z * bool :=
  if rem =? 0 then (rem, cooked_bit)
  else if rem >? elapsed then (rem - elapsed, cooked_bit)
  else (0, raw_bit).

(** What one call does to one key. *)
Definition key_step (changed cooked_bit raw_bit : bool) (elapsed rem : Z) : Z * bool :=
  let s := settle_key cooked_bit raw_bit elapsed rem in
  (if changed then arm_key (xorb (snd s) raw_bit) raw_bit elapsed (fst s) else fst s,
   snd s).

Lemma sparse_lseg_length cs p l : NoDup l -> lseg cs p l -> (length l <= length cs)%nat.
Proof.
  intros Hnd Hl.
  assert (Hsub : l ⊆+ seq 0 (length cs)).
  { apply NoDup_submseteq; [assumption|].
    intros x Hx. apply elem_of_seq. pose proof (sparse_lseg_bound cs p l x Hl Hx). lia. }
  apply submseteq_length in Hsub. now rewrite length_seq in Hsub.
Qed.

(** The settle pass ends, keeps the list and the counters in step,
    leaves room for the extension of the arm pass, and settles every
    key on its own. *)
Lemma sparse_settle_ok elapsed raw cooked num_rows cs head :
  config_ok ->
  0 <= elapsed ->
  engine_ok num_rows cs head ->
  length cooked = num_rows ->
  exists cs1 head1 cooked1,
    settle (S (length cs)) elapsed raw cs head cooked head_link head
      = Some (cs1, head1, cooked1) /\
    engine_ok num_rows cs1 head1 /\
    headroom elapsed 0 cs1 /\
    length cooked1 = num_rows /\
    forall r c, (r < num_rows)%nat -> (c < MATRIX_COLS)%nat ->
      let i := (r * MATRIX_COLS + c)%nat in
      let s := settle_key (row_bit (cooked !!! r) c) (row_bit (raw !!! r) c) elapsed
                 (remaining (cs !!! i)) in
      remaining (cs1 !!! i) = fst s /\ row_bit (cooked1 !!! r) c = snd s.
Proof.
  intros (Hw & _) He (Hlen & Hn & Hrange & l & Hnd & Hl & Hmem) Hlc.
  pose proof (sparse_lseg_length cs head l Hnd Hl) as Hll.
  assert (Hlive : forall i, i ∈ l -> remaining (cs !!! i) <> 0).
  { intros i Hi. apply Hmem; [|assumption]. eapply sparse_lseg_bound; eauto. }
  destruct (sparse_settle_spec elapsed raw num_rows l (S (length cs)) cs head cooked head_link head
              ltac:(lia) Hlen Hlc ltac:(lia) Hnd Hl Hlive eq_refl I ltac:(lia))
    as ([[cs1 head1] cooked1] & Hrun & Hs).
  exists cs1, head1, cooked1. split; [exact Hrun|].
  destruct Hs as (Hlen1 & Hlc1 & (l1 & Hnd1 & Hl1 & Hmem1) & _ & Hrem & _ & Hin & Hbits).
  assert (Hmem' : forall i, i ∈ l <-> remaining (cs !!! i) <> 0).
  { intros i. destruct (Nat.lt_ge_cases i (length cs)) as [Hlt|Hge]; [now apply Hmem|].
    split.
    - intros Hi. pose proof (sparse_lseg_bound cs head l i Hl Hi). lia.
    - rewrite list_lookup_total_alt, lookup_ge_None_2 by lia. simpl. congruence. }
  assert (Hkey : forall i,
            remaining (cs1 !!! i) =
              fst (settle_key false false elapsed (remaining (cs !!! i)))).
  { intros i. unfold settle_key. pose proof (Hrange i) as Hri.
    destruct (Z.eqb_spec (remaining (cs !!! i)) 0) as [H0|H0]; simpl.
    - apply Hrem. intros Hi. apply Hmem' in Hi. congruence.
    - rewrite Hin by (now apply Hmem').
      destruct (Z.gtb_spec (remaining (cs !!! i)) elapsed); simpl;
        [apply uint8_small; lia | reflexivity]. }
  split; [|split; [|split]].
  - unfold engine_ok. split; [congruence|]. split; [assumption|]. split.
    { intros i. rewrite Hkey. unfold settle_key. pose proof (Hrange i).
      destruct (remaining (cs !!! i) =? 0); simpl; [lia|].
      destruct (Z.gtb_spec (remaining (cs !!! i)) elapsed); simpl; lia. }
    exists l1. split; [assumption|]. split; [exact Hl1|].
    intros i Hi. rewrite Hmem1, Hmem', Hkey. unfold settle_key, keeps.
    pose proof (Hrange i).
    destruct (Z.eqb_spec (remaining (cs !!! i)) 0); simpl; [lia|].
    destruct (Z.gtb_spec (remaining (cs !!! i)) elapsed); simpl; lia.
  - intros i _. rewrite Hkey. unfold settle_key. pose proof (Hrange i).
    destruct (Z.eqb_spec (remaining (cs !!! i)) 0); simpl; [lia|].
    destruct (Z.gtb_spec (remaining (cs !!! i)) elapsed); simpl; lia.
  - congruence.
  - intros r c Hr Hc i s. subst s.
    destruct (Hbits r c Hr Hc) as [Hb1 Hb2]. fold i in Hb1, Hb2.
    split.
    + rewrite Hkey. unfold settle_key.
      destruct (remaining (cs !!! i) =? 0); [reflexivity|].
      destruct (remaining (cs !!! i) >? elapsed); reflexivity.
    + unfold settle_key, keeps in *.
      destruct (Z.eqb_spec (remaining (cs !!! i)) 0) as [H0|H0]; simpl.
      * apply Hb2. left. intros Hi. apply Hmem' in Hi. congruence.
      * destruct (Z.gtb_spec (remaining (cs !!! i)) elapsed); simpl.
        -- apply Hb2. right. lia.
        -- apply Hb1; [now apply Hmem' | lia].
Qed.

(** A call returns, keeps the list and the counters in lock-step,
    and treats every key on its own. *)
Lemma sparse_debounce_with_spec elapsed raw cooked num_rows changed cs head :
  config_ok ->
  0 <= elapsed ->
  engine_ok num_rows cs head ->
  length cooked = num_rows ->
  exists cs' head' cooked',
    debounce_with elapsed raw cooked num_rows changed cs head = Some (cs', head', cooked') /\
    engine_ok num_rows cs' head' /\
    length cooked' = num_rows /\
    forall r c, (r < num_rows)%nat -> (c < MATRIX_COLS)%nat ->
      let i := (r * MATRIX_COLS + c)%nat in
      let s := key_step changed (row_bit (cooked !!! r) c) (row_bit (raw !!! r) c) elapsed
                 (remaining (cs !!! i)) in
      remaining (cs' !!! i) = fst s /\ row_bit (cooked' !!! r) c = snd s.
Proof.
  intros Hcfg He Hok Hlc.
  destruct (sparse_settle_ok elapsed raw cooked num_rows cs head Hcfg He Hok Hlc)
    as (cs1 & head1 & cooked1 & Hrun & Hok1 & Hroom1 & Hlc1 & Hkeys).
  unfold debounce_with. rewrite Hrun.
  destruct changed.
  - pose proof (sparse_arm_spec elapsed raw cooked1 num_rows cs1 head1 Hcfg He Hok1 Hroom1) as Harm.
    destruct (arm elapsed raw cooked1 num_rows cs1 head1) as [cs2 head2].
    destruct Harm as [Hok2 Hrem2].
    exists cs2, head2, cooked1. split; [reflexivity|]. split; [assumption|].
    split; [assumption|].
    intros r c Hr Hc. cbv zeta. destruct (Hkeys r c Hr Hc) as [Hk1 Hk2].
    unfold key_step. simpl.
    rewrite (Hrem2 r c Hr Hc), Hk1, Hk2. auto.
  - exists cs1, head1, cooked1. split; [reflexivity|]. split; [assumption|].
    split; [assumption|].
    intros r c Hr Hc. cbv zeta. destruct (Hkeys r c Hr Hc) as [Hk1 Hk2].
    unfold key_step. simpl. auto.
Qed.

(** *** Calls of [debounce] *)

Lemma sparse_get_elapsed_range e now : 0 <= fst (get_elapsed e now) <= 255.
Proof.
  unfold get_elapsed. destruct (negb (last_time_initialized e)); simpl; [lia|].
  apply uint8_range.
Qed.

Lemma sparse_get_elapsed_counters e now :
  debounce_counters (snd (get_elapsed e now)) = debounce_counters e /\
  debounce_list_head (snd (get_elapsed e now)) = debounce_list_head e.
Proof. unfold get_elapsed. destruct (negb (last_time_initialized e)); simpl; auto. Qed.

(** [debounce_init] leaves every entry idle. *)
Lemma sparse_init_counters num_rows block old :
  length block = (num_rows * MATRIX_COLS)%nat ->
  debounce_counters (debounce_init num_rows block old) =
    replicate (num_rows * MATRIX_COLS) {| remaining := 0; next := DEBOUNCE_NULL |} /\
  debounce_list_head (debounce_init num_rows block old) = DEBOUNCE_NULL.
Proof.
  intros Hlen. unfold debounce_init.
  pose (Q := fun (k : nat) (a : list debounce_counter_t * nat) =>
               snd a = k /\ length (fst a) = (num_rows * MATRIX_COLS)%nat /\
               forall i, (i < k)%nat ->
                 fst a !! i = Some {| remaining := 0; next := DEBOUNCE_NULL |}).
  assert (H : Q ((0 + num_rows) * MATRIX_COLS)%nat
                (for_loop num_rows 0 (fun _ => for_loop MATRIX_COLS 0 init_col_body)
                   (block, O))).
  { apply (for_loop_inv (fun r => Q (r * MATRIX_COLS)%nat)).
    - unfold Q. simpl. repeat split; [assumption | intros; lia].
    - intros r a Hr Ha.
      replace (S r * MATRIX_COLS)%nat with (r * MATRIX_COLS + (0 + MATRIX_COLS))%nat by lia.
      apply (for_loop_inv (fun c => Q (r * MATRIX_COLS + c)%nat)).
      + now rewrite Nat.add_0_r.
      + intros c [cs p] Hc (Hp & Hl & Hdone). simpl in Hp, Hl, Hdone. subst p.
        unfold Q, init_col_body. simpl. split; [lia|]. split; [now rewrite length_insert|].
        intros i Hi. destruct (Nat.eq_dec i (r * MATRIX_COLS + c)%nat) as [->|Hne].
        * apply list_lookup_insert_eq. rewrite Hl. nia.
        * rewrite list_lookup_insert_ne by congruence. apply Hdone. lia. }
  destruct (for_loop num_rows 0 _ _) as [cs p]. destruct H as (_ & Hl & Hdone).
  simpl in *. split; [|reflexivity].
  apply list_eq. intros i. destruct (Nat.lt_ge_cases i (num_rows * MATRIX_COLS)) as [Hlt|Hge].
  - rewrite Hdone by assumption. symmetry. now apply lookup_replicate_2.
  - rewrite !lookup_ge_None_2; [reflexivity | rewrite length_replicate; lia | lia].
Qed.

Lemma sparse_init_ok num_rows block old :
  length block = (num_rows * MATRIX_COLS)%nat ->
  (num_rows * MATRIX_COLS < 255)%nat ->
  engine_ok num_rows (debounce_counters (debounce_init num_rows block old))
            (debounce_list_head (debounce_init num_rows block old)).
Proof.
  intros Hlen Hn. destruct (sparse_init_counters num_rows block old Hlen) as [-> ->].
  assert (Hz : forall i, remaining (replicate (num_rows * MATRIX_COLS)
                                      {| remaining := 0; next := DEBOUNCE_NULL |} !!! i) = 0).
  { intros i. destruct (Nat.lt_ge_cases i (num_rows * MATRIX_COLS)) as [Hlt|Hge].
    - now rewrite lookup_total_replicate_2.
    - rewrite list_lookup_total_alt, lookup_ge_None_2; [reflexivity|].
      rewrite length_replicate. lia. }
  unfold engine_ok. rewrite length_replicate.
  split; [reflexivity|]. split; [assumption|]. split.
  - intros i. rewrite Hz. lia.
  - exists []. split; [constructor|]. split; [reflexivity|].
    intros i _. rewrite Hz. split; [intros H; now apply not_elem_of_nil in H | congruence].
Qed.

(** A call of [debounce] on a well-formed engine returns, leaves a
    well-formed engine, and treats every key on its own, with the delta
    [get_elapsed] reports. *)
Lemma sparse_debounce_spec e now raw cooked num_rows changed :
  config_ok ->
  engine_ok num_rows (debounce_counters e) (debounce_list_head e) ->
  length cooked = num_rows ->
  exists e' cooked',
    debounce e now raw cooked num_rows changed = Some (e', cooked') /\
    engine_ok num_rows (debounce_counters e') (debounce_list_head e') /\
    length cooked' = num_rows /\
    forall r c, (r < num_rows)%nat -> (c < MATRIX_COLS)%nat ->
      let i := (r * MATRIX_COLS + c)%nat in
      let s := key_step changed (row_bit (cooked !!! r) c) (row_bit (raw !!! r) c)
                 (fst (get_elapsed e now)) (remaining (debounce_counters e !!! i)) in
      remaining (debounce_counters e' !!! i) = fst s /\ row_bit (cooked' !!! r) c = snd s.
Proof.
  intros Hcfg Hok Hlc. unfold debounce.
  pose proof (sparse_get_elapsed_range e now) as He.
  destruct (sparse_get_elapsed_counters e now) as [Hcs Hh].
  destruct (get_elapsed e now) as [elapsed e1]. simpl in *.
  rewrite Hcs, Hh.
  destruct (sparse_debounce_with_spec elapsed raw cooked num_rows changed
              (debounce_counters e) (debounce_list_head e) Hcfg (proj1 He) Hok Hlc)
    as (cs' & head' & cooked' & Hrun & Hok' & Hlc' & Hkeys).
  rewrite Hrun. eexists _, cooked'. split; [reflexivity|]. simpl. auto.
Qed.

(** Every state the engine reaches is well-formed. *)
Lemma sparse_reached_ok num_rows e :
  config_ok ->
  (num_rows * MATRIX_COLS < 255)%nat ->
  reached num_rows e ->
  engine_ok num_rows (debounce_counters e) (debounce_list_head e).
Proof.
  intros Hcfg Hn Hr.
  induction Hr as [block old Hlen | e now raw cooked changed e' cooked' Hr IH Hlc Hrun].
  - now apply sparse_init_ok.
  - destruct (sparse_debounce_spec e now raw cooked num_rows changed Hcfg IH Hlc)
      as (e2 & cooked2 & Hrun2 & Hok2 & _).
    rewrite Hrun in Hrun2. injection Hrun2 as <- <-. exact Hok2.
Qed.

(** *** Idle entries point nowhere *)

(** An entry with no time left has [DEBOUNCE_NULL] for its [next]. *)
Definition idle_unlinked (cs : list debounce_counter_t) : Prop :=
  forall i, remaining (cs !!! i) = 0 -> next (cs !!! i) = DEBOUNCE_NULL.

(** What a stored link may be: [DEBOUNCE_NULL], or the index of a
    key. *)
Definition valid_link (num_rows : nat) (z : Z) : Prop :=
  z = DEBOUNCE_NULL \/ 0 <= z < Z.of_nat (num_rows * MATRIX_COLS).

(** The settle pass clears the link of every entry it takes off the
    list. *)
Lemma sparse_settle_unlinks elapsed raw num_rows l :
  forall fuel cs head cooked pp p,
  (MATRIX_COLS <= ROW_BITS)%nat ->
  length cs = (num_rows * MATRIX_COLS)%nat ->
  length cooked = num_rows ->
  (length cs < 255)%nat ->
  NoDup l -> lseg cs p l ->
  (forall i, i ∈ l -> remaining (cs !!! i) <> 0) ->
  load cs head pp = p -> link_ok cs l pp ->
  (length l < fuel)%nat ->
  forall cs' head' cooked',
    settle fuel elapsed raw cs head cooked pp p = Some (cs', head', cooked') ->
    forall x, x ∈ l -> ~ keeps elapsed cs x -> next (cs' !!! x) = DEBOUNCE_NULL.
Proof.
  induction l as [|i l IH];
    intros fuel cs head cooked pp p Hw Hlen Hlc Hn Hnd Hl Hlive Hpp Hlk Hfuel
           cs' head' cooked' Hrun x Hx Hnkx;
    [now apply not_elem_of_nil in Hx|].
  destruct fuel as [|fuel]; [simpl in Hfuel; lia|]. simpl in Hl.
  destruct Hl as (Hp & Hi & Hl).
  apply NoDup_cons in Hnd as [Hil Hnd].
  cbn [settle] in Hrun.
  assert (Hnull : (p =? DEBOUNCE_NULL) = false).
  { apply Z.eqb_neq. unfold DEBOUNCE_NULL. lia. }
  rewrite Hnull in Hrun. replace (Z.to_nat p) with i in Hrun by lia.
  assert (Hlive_i : (remaining (cs !!! i) =? 0) = false).
  { apply Z.eqb_neq, Hlive, elem_of_cons. now left. }
  rewrite Hlive_i in Hrun.
  assert (Hlive_l : forall y, y ∈ l -> remaining (cs !!! y) <> 0).
  { intros y Hy. apply Hlive, elem_of_cons. now right. }
  destruct (remaining (cs !!! i) >? elapsed) eqn:Hk.
  - (* the entry stays *)
    set (cs1 := <[i := _]> cs) in Hrun.
    assert (Hl1 : length cs1 = length cs) by apply length_insert.
    assert (Hn1 : forall y, next (cs1 !!! y) = next (cs !!! y)).
    { intros y. unfold cs1. destruct (Nat.eq_dec i y) as [->|Hne].
      - now rewrite list_lookup_total_insert_eq.
      - now rewrite list_lookup_total_insert_ne. }
    assert (Hr1 : forall y, y <> i -> remaining (cs1 !!! y) = remaining (cs !!! y)).
    { intros y Hy. unfold cs1. now rewrite list_lookup_total_insert_ne by congruence. }
    assert (Hseg1 : lseg cs1 (load cs1 head (next_link i)) l).
    { simpl. rewrite Hn1. apply (sparse_lseg_frame cs); auto. }
    assert (Hlk1 : link_ok cs1 l (next_link i)) by (split; [lia|assumption]).
    assert (Hlive1 : forall y, y ∈ l -> remaining (cs1 !!! y) <> 0).
    { intros y Hy. rewrite Hr1 by congruence. now apply Hlive_l. }
    apply elem_of_cons in Hx as [->|Hx].
    + exfalso. apply Hnkx. now apply sparse_keeps_gtb.
    + apply (IH fuel cs1 head cooked (next_link i) (load cs1 head (next_link i))
               Hw ltac:(lia) Hlc ltac:(lia) Hnd Hseg1 Hlive1 eq_refl Hlk1
               ltac:(simpl in Hfuel; lia) cs' head' cooked' Hrun x Hx).
      unfold keeps in *. rewrite Hr1; [assumption|congruence].
  - (* the entry expires *)
    set (cooked1 := <[(i / MATRIX_COLS)%nat := _]> cooked) in Hrun.
    destruct (store cs head pp (next (cs !!! i))) as [cs2 head2] eqn:Hst.
    assert (Hlk0 : link_ok cs [] pp).
    { destruct pp as [|j]; simpl in *; [exact I|]. split; [tauto|apply not_elem_of_nil]. }
    destruct (sparse_store_spec _ _ _ _ _ _ Hst Hlk0) as (Hl2 & Hr2 & Hn2 & Hld2 & Hh2).
    set (cs3 := <[i := _]> cs2) in Hrun.
    assert (Hl3 : length cs3 = length cs) by (unfold cs3; now rewrite length_insert).
    assert (H3 : forall y, y <> i -> cs3 !!! y = cs2 !!! y).
    { intros y Hy. unfold cs3. now rewrite list_lookup_total_insert_ne by congruence. }
    assert (H3i : next (cs3 !!! i) = DEBOUNCE_NULL).
    { unfold cs3. now rewrite list_lookup_total_insert_eq by lia. }
    assert (Hppi : pp <> next_link i).
    { destruct pp as [|j]; [discriminate|]. simpl in Hlk. destruct Hlk as [_ Hj].
      apply not_elem_of_cons in Hj as [Hj _]. congruence. }
    assert (Hppl : forall y, y ∈ l -> pp <> next_link y).
    { intros y Hy. destruct pp as [|j]; [discriminate|]. simpl in Hlk.
      destruct Hlk as [_ Hj]. apply not_elem_of_cons in Hj as [_ Hj]. congruence. }
    assert (Hseg3 : lseg cs3 (next (cs !!! i)) l).
    { apply (sparse_lseg_frame cs); [assumption| |assumption].
      intros y Hy. rewrite H3 by congruence. apply Hn2. now apply Hppl. }
    assert (Hld3 : load cs3 head2 pp = next (cs !!! i)).
    { rewrite <- Hld2. destruct pp as [|j]; simpl; [reflexivity|].
      rewrite H3; [reflexivity|congruence]. }
    assert (Hlk3 : link_ok cs3 l pp).
    { destruct pp as [|j]; simpl in *; [exact I|]. destruct Hlk as [Hj Hjl].
      apply not_elem_of_cons in Hjl as [_ Hjl]. split; [lia|assumption]. }
    assert (Hlc1 : length cooked1 = num_rows) by (unfold cooked1; now rewrite length_insert).
    assert (Hrem3 : forall y, y <> i -> remaining (cs3 !!! y) = remaining (cs !!! y)).
    { intros y Hy. rewrite H3 by assumption. apply Hr2. }
    assert (Hlive3 : forall y, y ∈ l -> remaining (cs3 !!! y) <> 0).
    { intros y Hy. rewrite Hrem3 by congruence. now apply Hlive_l. }
    apply elem_of_cons in Hx as [->|Hx].
    + (* the entry itself: cleared, and out of reach of the rest of the walk *)
      destruct (sparse_settle_spec elapsed raw num_rows l fuel cs3 head2 cooked1 pp
                  (next (cs !!! i)) Hw ltac:(lia) Hlc1 ltac:(lia) Hnd Hseg3 Hlive3 Hld3 Hlk3
                  ltac:(simpl in Hfuel; lia)) as (out & Hout & Hs).
      rewrite Hrun in Hout. injection Hout as <-.
      destruct Hs as (_ & _ & _ & _ & _ & Hnext & _).
      rewrite Hnext by assumption. exact H3i.
    + apply (IH fuel cs3 head2 cooked1 pp (next (cs !!! i))
               Hw ltac:(lia) Hlc1 ltac:(lia) Hnd Hseg3 Hlive3 Hld3 Hlk3
               ltac:(simpl in Hfuel; lia) cs' head' cooked' Hrun x Hx).
      unfold keeps in *. rewrite Hrem3; [assumption|congruence].
Qed.

(** The settle pass keeps idle entries unlinked. *)
Lemma sparse_settle_idle elapsed raw cooked num_rows cs head cs1 head1 cooked1 :
  config_ok ->
  0 <= elapsed ->
  engine_ok num_rows cs head ->
  length cooked = num_rows ->
  idle_unlinked cs ->
  settle (S (length cs)) elapsed raw cs head cooked head_link head
    = Some (cs1, head1, cooked1) ->
  idle_unlinked cs1.
Proof.
  intros (Hw & _) He (Hlen & Hn & Hrange & l & Hnd & Hl & Hmem) Hlc Hidle Hrun.
  pose proof (sparse_lseg_length cs head l Hnd Hl) as Hll.
  assert (Hlive : forall i, i ∈ l -> remaining (cs !!! i) <> 0).
  { intros i Hi. apply Hmem; [|assumption]. eapply sparse_lseg_bound; eauto. }
  destruct (sparse_settle_spec elapsed raw num_rows l (S (length cs)) cs head cooked head_link head
              ltac:(lia) Hlen Hlc ltac:(lia) Hnd Hl Hlive eq_refl I ltac:(lia))
    as (out & Hout & Hs).
  rewrite Hrun in Hout. injection Hout as <-.
  destruct Hs as (_ & _ & _ & _ & Hrem & Hnext & Hin & _).
  pose proof (sparse_settle_unlinks elapsed raw num_rows l (S (length cs)) cs head cooked
                head_link head ltac:(lia) Hlen Hlc ltac:(lia) Hnd Hl Hlive eq_refl I
                ltac:(lia) cs1 head1 cooked1 Hrun) as Hun.
  intros i H0.
  assert (Hdec : i ∈ l \/ i ∉ l).
  { destruct (Nat.lt_ge_cases i (length cs)) as [Hlt|Hge].
    - destruct (Z.eq_dec (remaining (cs !!! i)) 0) as [Hz|Hnz].
      + right. intros Hi. apply Hmem in Hi; [congruence|assumption].
      + left. now apply Hmem.
    - right. intros Hi. pose proof (sparse_lseg_bound cs head l i Hl Hi). lia. }
  destruct Hdec as [Hi|Hi].
  - apply Hun; [assumption|]. intros Hkeep. unfold keeps in Hkeep.
    rewrite (Hin i Hi) in H0. pose proof (Hrange i).
    destruct (Z.gtb_spec (remaining (cs !!! i)) elapsed); [|lia].
    rewrite uint8_small in H0 by lia. lia.
  - rewrite Hnext by (assumption || discriminate). apply Hidle.
    rewrite <- (Hrem i Hi). exact H0.
Qed.

(** The arm pass touches only entries it leaves with time on them. *)
Lemma sparse_arm_col_idle elapsed cooked_row raw_row col cs head p :
  config_ok ->
  0 <= elapsed ->
  (forall i, (p <= i)%nat -> 0 <= remaining (cs !!! i)) ->
  headroom elapsed p cs ->
  idle_unlinked cs ->
  let '(cs', head', p') := arm_col_body elapsed cooked_row raw_row col (cs, head, p) in
  p' = S p /\
  (forall i, (S p <= i)%nat -> 0 <= remaining (cs' !!! i)) /\
  headroom elapsed (S p) cs' /\
  idle_unlinked cs'.
Proof.
  intros (_ & Hdown & Hup & _) He Hpos Hroom Hidle. unfold arm_col_body.
  destruct (nonzero _).
  - destruct (Z.eqb_spec (remaining (cs !!! p)) 0) as [H0|H0].
    + split; [reflexivity|]. split; [|split].
      * intros i Hi. rewrite list_lookup_total_insert_ne by lia. apply Hpos. lia.
      * intros i Hi. rewrite list_lookup_total_insert_ne by lia. apply Hroom. lia.
      * intros i Hz. destruct (Nat.eq_dec p i) as [<-|Hne].
        -- destruct (Nat.lt_ge_cases p (length cs)) as [Hlt|Hge].
           ++ rewrite list_lookup_total_insert_eq in Hz by assumption. simpl in Hz.
              rewrite uint8_small in Hz; destruct (nonzero _); lia.
           ++ rewrite list_insert_ge by lia. apply Hidle.
              now rewrite list_insert_ge in Hz by lia.
        -- rewrite list_lookup_total_insert_ne in * by assumption. now apply Hidle.
    + split; [reflexivity|]. split; [|split].
      * intros i Hi. rewrite list_lookup_total_insert_ne by lia. apply Hpos. lia.
      * intros i Hi. rewrite list_lookup_total_insert_ne by lia. apply Hroom. lia.
      * intros i Hz. destruct (Nat.eq_dec p i) as [<-|Hne].
        -- destruct (Nat.lt_ge_cases p (length cs)) as [Hlt|Hge].
           ++ rewrite list_lookup_total_insert_eq in Hz by assumption. simpl in Hz.
              pose proof (Hpos p ltac:(lia)). destruct (Hroom p ltac:(lia)); [lia|].
              rewrite uint8_small in Hz by lia. lia.
           ++ rewrite list_insert_ge by lia. apply Hidle.
              now rewrite list_insert_ge in Hz by lia.
        -- rewrite list_lookup_total_insert_ne in * by assumption. now apply Hidle.
  - split; [reflexivity|]. split; [|split].
    + intros i Hi. apply Hpos. lia.
    + intros i Hi. apply Hroom. lia.
    + assumption.
Qed.

Lemma sparse_arm_idle elapsed raw cooked num_rows cs head :
  config_ok ->
  0 <= elapsed ->
  (forall i, 0 <= remaining (cs !!! i)) ->
  headroom elapsed 0 cs ->
  idle_unlinked cs ->
  idle_unlinked (fst (arm elapsed raw cooked num_rows cs head)).
Proof.
  intros Hcfg He Hpos Hroom Hidle. unfold arm.
  pose (Q := fun (q : nat) (a : list debounce_counter_t * Z * nat) =>
               let '(cs1, _, p) := a in
               p = q /\
               (forall i, (q <= i)%nat -> 0 <= remaining (cs1 !!! i)) /\
               headroom elapsed q cs1 /\
               idle_unlinked cs1).
  assert (H : Q ((0 + num_rows) * MATRIX_COLS)%nat
                (for_loop num_rows 0 (arm_row_body elapsed raw cooked) (cs, head, O))).
  { apply (for_loop_inv (fun r => Q (r * MATRIX_COLS)%nat)).
    - unfold Q. simpl. split; [reflexivity|]. split; [intros; apply Hpos|]. split; assumption.
    - intros r [[cs1 head1] p1] Hr (Hp1 & Hpos1 & Hroom1 & Hidle1). subst p1.
      unfold arm_row_body.
      destruct (Z.lxor (cooked !!! r) (raw !!! r) =? 0).
      + unfold Q. split; [lia|]. split; [|split].
        * intros i Hi. apply Hpos1. lia.
        * intros i Hi. apply Hroom1. lia.
        * assumption.
      + replace (S r * MATRIX_COLS)%nat with (r * MATRIX_COLS + (0 + MATRIX_COLS))%nat by lia.
        apply (for_loop_inv (fun c => Q (r * MATRIX_COLS + c)%nat)).
        * unfold Q. rewrite Nat.add_0_r. auto.
        * intros c [[cs2 head2] p2] Hc (Hp2 & Hpos2 & Hroom2 & Hidle2). subst p2.
          pose proof (sparse_arm_col_idle elapsed (cooked !!! r) (raw !!! r) c cs2 head2
                        (r * MATRIX_COLS + c)%nat Hcfg He Hpos2 Hroom2 Hidle2) as Hstep.
          destruct (arm_col_body _ _ _ _ _) as [[cs3 head3] p3].
          destruct Hstep as (Hp3 & Hpos3 & Hroom3 & Hidle3).
          unfold Q. replace (r * MATRIX_COLS + S c)%nat with (S (r * MATRIX_COLS + c)) by lia.
          auto. }
  destruct (for_loop num_rows 0 _ _) as [[cs' head'] p']. simpl.
  now destruct H as (_ & _ & _ & H).
Qed.

(** A call keeps idle entries unlinked. *)
Lemma sparse_debounce_idle e now raw cooked num_rows changed e' cooked' :
  config_ok ->
  engine_ok num_rows (debounce_counters e) (debounce_list_head e) ->
  length cooked = num_rows ->
  idle_unlinked (debounce_counters e) ->
  debounce e now raw cooked num_rows changed = Some (e', cooked') ->
  idle_unlinked (debounce_counters e').
Proof.
  intros Hcfg Hok Hlc Hidle. unfold debounce.
  pose proof (sparse_get_elapsed_range e now) as He.
  destruct (sparse_get_elapsed_counters e now) as [Hcs Hh].
  destruct (get_elapsed e now) as [elapsed e1]. simpl in *.
  rewrite Hcs, Hh. unfold debounce_with.
  destruct (sparse_settle_ok elapsed raw cooked num_rows (debounce_counters e)
              (debounce_list_head e) Hcfg (proj1 He) Hok Hlc)
    as (cs1 & head1 & cooked1 & Hrun & Hok1 & Hroom1 & _).
  pose proof (sparse_settle_idle elapsed raw cooked num_rows _ _ cs1 head1 cooked1
                Hcfg (proj1 He) Hok Hlc Hidle Hrun) as Hidle1.
  rewrite Hrun. destruct changed.
  - pose proof (sparse_arm_idle elapsed raw cooked1 num_rows cs1 head1 Hcfg (proj1 He)
                  ltac:(intros i; destruct Hok1 as (_ & _ & Hr & _); apply Hr)
                  Hroom1 Hidle1) as Hidle2.
    destruct (arm elapsed raw cooked1 num_rows cs1 head1) as [cs2 head2].
    intros H. injection H as <- <-. exact Hidle2.
  - intros H. injection H as <- <-. exact Hidle1.
Qed.

Lemma sparse_reached_idle num_rows e :
  config_ok ->
  (num_rows * MATRIX_COLS < 255)%nat ->
  reached num_rows e ->
  idle_unlinked (debounce_counters e).
Proof.
  intros Hcfg Hn Hr.
  induction Hr as [block old Hlen | e now raw cooked changed e' cooked' Hr IH Hlc Hrun].
  - destruct (sparse_init_counters num_rows block old Hlen) as [-> _].
    intros i _. destruct (Nat.lt_ge_cases i (num_rows * MATRIX_COLS)) as [Hlt|Hge].
    + now rewrite lookup_total_replicate_2.
    + rewrite list_lookup_total_alt, lookup_ge_None_2; [reflexivity|].
      rewrite length_replicate. lia.
  - eapply sparse_debounce_idle; eauto. now apply sparse_reached_ok.
Qed.

(** The link of a listed entry is the end of the list or the next
    entry. *)
Lemma sparse_lseg_next cs p l i :
  lseg cs p l -> i ∈ l ->
  next (cs !!! i) = DEBOUNCE_NULL \/
  exists j, next (cs !!! i) = Z.of_nat j /\ (j < length cs)%nat.
Proof.
  revert p. induction l as [|k l IH]; intros p Hl Hi; [now apply not_elem_of_nil in Hi|].
  simpl in Hl. destruct Hl as (_ & _ & Hl).
  apply elem_of_cons in Hi as [->|Hi]; [|eauto].
  destruct l as [|j l]; simpl in Hl; [now left|].
  right. exists j. tauto.
Qed.

(** The links of a well-formed engine whose idle entries are unlinked
    stay inside the array. *)
Lemma sparse_ok_links num_rows cs head :
  engine_ok num_rows cs head ->
  idle_unlinked cs ->
  valid_link num_rows head /\ forall i, valid_link num_rows (next (cs !!! i)).
Proof.
  intros (Hlen & _ & Hrange & l & Hnd & Hl & Hmem) Hidle. split.
  - destruct l as [|i l]; simpl in Hl; [now left|].
    right. destruct Hl as (-> & Hi & _). lia.
  - intros i.
    destruct (Z.eq_dec (remaining (cs !!! i)) 0) as [Hz|Hnz].
    + left. now apply Hidle.
    + assert (Hi : (i < length cs)%nat).
      { destruct (Nat.lt_ge_cases i (length cs)) as [|Hge]; [assumption|].
        exfalso. apply Hnz. now rewrite list_lookup_total_alt, lookup_ge_None_2 by lia. }
      destruct (sparse_lseg_next cs head l i Hl ltac:(now apply Hmem)) as [HN|(j & -> & Hj)].
      * now left.
      * right. lia.
Qed.

(** *** The rows the settle pass writes *)

Lemma sparse_links_insert num_rows (cs : list debounce_counter_t) (i : nat) x :
  (forall j, valid_link num_rows (next (cs !!! j))) ->
  valid_link num_rows (next x) ->
  forall j, valid_link num_rows (next (<[i := x]> cs !!! j)).
Proof.
  intros Hcs Hx j. destruct (Nat.eq_dec i j) as [<-|Hne].
  - destruct (Nat.lt_ge_cases i (length cs)) as [Hlt|Hge].
    + now rewrite list_lookup_total_insert_eq.
    + rewrite list_insert_ge by lia. apply Hcs.
  - rewrite list_lookup_total_insert_ne by assumption. apply Hcs.
Qed.

(** With links that stay inside the array, the settle pass writes the
    first [num_rows] rows of the cooked matrix only. *)
Lemma sparse_settle_rows elapsed raw num_rows :
  forall fuel cs head (cooked : list Z) pp p cs' head' cooked',
    (forall j, valid_link num_rows (next (cs !!! j))) ->
    valid_link num_rows p ->
    settle fuel elapsed raw cs head cooked pp p = Some (cs', head', cooked') ->
    length cooked' = length cooked /\
    forall r, (num_rows <= r)%nat -> cooked' !!! r = cooked !!! r.
Proof.
  induction fuel as [|fuel IH]; intros cs head cooked pp p cs' head' cooked' Hcs Hp Hrun;
    simpl in Hrun; [discriminate|].
  destruct (Z.eqb_spec p DEBOUNCE_NULL) as [HN|HN].
  { injection Hrun as <- <- <-. auto. }
  destruct (remaining (cs !!! Z.to_nat p) =? 0); [discriminate|].
  destruct (remaining (cs !!! Z.to_nat p) >? elapsed).
  - apply IH in Hrun; [assumption| |].
    + apply sparse_links_insert; [assumption | apply Hcs].
    + simpl. apply sparse_links_insert; [assumption | apply Hcs].
  - destruct (store cs head pp (next (cs !!! Z.to_nat p))) as [cs2 head2] eqn:Hst.
    assert (Hcs2 : forall j, valid_link num_rows (next (cs2 !!! j))).
    { destruct pp as [|k]; simpl in Hst; injection Hst as <- <-; [assumption|].
      apply sparse_links_insert; [assumption | apply Hcs]. }
    apply IH in Hrun.
    + destruct Hrun as [Hl Hrows]. rewrite length_insert in Hl. split; [assumption|].
      intros r Hr. rewrite Hrows by assumption.
      apply list_lookup_total_insert_ne.
      destruct Hp as [|Hp]; [contradiction|].
      assert (Hi : (Z.to_nat p < num_rows * MATRIX_COLS)%nat) by lia.
      assert (Hq : (Z.to_nat p / MATRIX_COLS < num_rows)%nat).
      { apply Nat.Div0.div_lt_upper_bound. lia. }
      lia.
    + apply sparse_links_insert; [assumption | now left].
    + apply Hcs.
Qed.

(** Whether the settle pass returns does not depend on the cooked
    matrix. *)
Lemma sparse_settle_any_cooked elapsed raw :
  forall fuel cs head (cooked1 cooked2 : list Z) pp p,
    is_Some (settle fuel elapsed raw cs head cooked1 pp p) ->
    is_Some (settle fuel elapsed raw cs head cooked2 pp p).
Proof.
  induction fuel as [|fuel IH]; intros cs head cooked1 cooked2 pp p; simpl; [auto|].
  destruct (p =? DEBOUNCE_NULL); [eauto|].
  destruct (remaining (cs !!! Z.to_nat p) =? 0); [auto|].
  destruct (remaining (cs !!! Z.to_nat p) >? elapsed); [apply IH|].
  destruct (store cs head pp (next (cs !!! Z.to_nat p))) as [cs2 head2]. apply IH.
Qed.

(** A call on a cooked matrix of any size returns, and writes its
    first [num_rows] rows only. *)
Lemma sparse_debounce_rows e now raw (cooked : list Z) num_rows changed :
  config_ok ->
  engine_ok num_rows (debounce_counters e) (debounce_list_head e) ->
  idle_unlinked (debounce_counters e) ->
  exists e' cooked',
    debounce e now raw cooked num_rows changed = Some (e', cooked') /\
    length cooked' = length cooked /\
    forall r, (num_rows <= r)%nat -> cooked' !!! r = cooked !!! r.
Proof.
  intros Hcfg Hok Hidle. unfold debounce.
  pose proof (sparse_get_elapsed_range e now) as He.
  destruct (sparse_get_elapsed_counters e now) as [Hcs Hh].
  destruct (get_elapsed e now) as [elapsed e1]. simpl in *.
  rewrite Hcs, Hh. unfold debounce_with.
  destruct (sparse_settle_ok elapsed raw (replicate num_rows 0) num_rows
              (debounce_counters e) (debounce_list_head e) Hcfg (proj1 He) Hok
              ltac:(apply length_replicate))
    as (cs0 & head0 & cooked0 & Hrun0 & _).
  destruct (sparse_settle_any_cooked elapsed raw (S (length (debounce_counters e)))
              (debounce_counters e) (debounce_list_head e) (replicate num_rows 0) cooked
              head_link (debounce_list_head e) ltac:(rewrite Hrun0; eauto))
    as [[[cs1 head1] cooked1] Hrun].
  destruct (sparse_ok_links num_rows _ _ Hok Hidle) as [Hhead Hlinks].
  pose proof (sparse_settle_rows elapsed raw num_rows _ _ _ _ _ _ _ _ _
                Hlinks Hhead Hrun) as Hrows.
  rewrite Hrun. destruct changed.
  - destruct (arm elapsed raw cooked1 num_rows cs1 head1) as [cs2 head2].
    eexists _, cooked1. split; [reflexivity | exact Hrows].
  - eexists _, cooked1. split; [reflexivity | exact Hrows].
Qed.

Lemma sparse_init_flags num_rows block old :
  last_time_initialized (debounce_init num_rows block old) = false.
Proof. unfold debounce_init. now destruct (for_loop _ _ _ _). Qed.

(** The first call after [debounce_init] does not depend on the block
    [malloc] returned nor on the statics before the initialization. *)
Lemma sparse_init_first_call num_rows block1 old1 block2 old2 now raw cooked changed :
  length block1 = (num_rows * MATRIX_COLS)%nat ->
  length block2 = (num_rows * MATRIX_COLS)%nat ->
  debounce (debounce_init num_rows block1 old1) now raw cooked num_rows changed =
  debounce (debounce_init num_rows block2 old2) now raw cooked num_rows changed.
Proof.
  intros H1 H2.
  destruct (sparse_init_counters num_rows block1 old1 H1) as [Hc1 Hh1].
  destruct (sparse_init_counters num_rows block2 old2 H2) as [Hc2 Hh2].
  unfold debounce, get_elapsed.
  rewrite !sparse_init_flags, Hc1, Hh1, Hc2, Hh2. reflexivity.
Qed.
End WithConfig.
End Sparse.
(** ** The quiescing strategy ([quantum/debounce/fancy.c]) *)

Module Fancy.

(** The anonymous enum of the file. *)
Inductive key_phase := WAITING | DEBOUNCING | QUIESCING.

Record key_state_t := { state : key_phase; remaining : Z }.

#[global] Instance key_state_inhabited : Inhabited key_state_t :=
  populate {| state := WAITING; remaining := 0 |}.

(** The file-scope statics. *)
Record engine := {
  key_states : list key_state_t;
  last_time_initialized : bool;
  last_time : Z;
  first_time : Z
}.

(** The variables the column loop carries from one key to the next. *)
Record col_vars := {
  cv_states : list key_state_t;
  cv_cooked_row : Z;
  cv_col_mask : Z;
  cv_p : nat
}.

Section WithConfig.
Context `{cfg : Config}.

(** The defaults of the file: one window for both directions. *)
Definition DEBOUNCE : Z := 5.

(** The body of the column loop of [debounce_init]; the loop carries
    the block and the running pointer [p]. *)
Definition init_col_body (c : nat) (a : list key_state_t * nat) : list key_state_t * nat :=
  let '(states, p) := a in
  (<[p := {| state := WAITING; remaining := remaining (states !!! p) |}]> states, S p).

(** [debounce_init]; [block] is what [malloc] returns, one entry per
    key with whatever the memory holds: [remaining] stays unset. *)
Definition debounce_init (num_rows : nat) (block : list key_state_t) (old : engine) : engine :=
  let '(states, _) :=
    for_loop num_rows 0 (fun _ => for_loop MATRIX_COLS 0 init_col_body) (block, O) in
  {| key_states := states;
     last_time_initialized := false;
     last_time := last_time old;
     first_time := first_time old |}.

(** [debounce_free]: the block goes back to the allocator and the
    pointer is [NULL], so that no key state is left to read; the clock
    baseline is dropped. *)
Definition debounce_free (e : engine) : engine :=
  {| key_states := [];
     last_time_initialized := false;
     last_time := last_time e;
     first_time := first_time e |}.

(** [get_elapsed], without [DEBOUNCE_USE_FRAMES]; [now] is what
    [timer_read_fast] returns. *)
Definition get_elapsed (e : engine) (now : Z) : Z * engine :=
  if negb (last_time_initialized e) then
    (1, {| key_states := key_states e; last_time_initialized := true;
           last_time := now; first_time := now |})
  else
    let elapsed_time := timer_diff TIMER_BITS now (last_time e) in
    (uint8 (if elapsed_time >? 255 then 255 else elapsed_time),
     {| key_states := key_states e; last_time_initialized := true;
        last_time := now; first_time := first_time e |}).

(** [get_time]: the clock relative to the first call, an unsigned
    subtraction in [fast_timer_t]; [now] is what [timer_read_fast]
    returns. *)
Definition get_time (e : engine) (now : Z) : Z :=
  (now - first_time e) mod 2 ^ Z.of_nat TIMER_BITS.

(** The body of the column loop, the [switch] on the key's state.
    [raw_ptr] is the value of the pointer [raw]: the WAITING case
    tests [raw & col_mask] on the array pointer itself, not on
    [raw_row]. *)
Definition col_body (raw_ptr elapsed delta : Z) (v : col_vars) : col_vars :=
  let p := cv_p v in
  let col_mask := cv_col_mask v in
  let ks := cv_states v !!! p in
  let '(states, cooked_row) :=
    match state ks with
    | WAITING =>
        if nonzero (Z.land delta col_mask) then
          (<[p := {| state := DEBOUNCING;
                     remaining := uint8 (if nonzero (Z.land raw_ptr col_mask)
                                         then DEBOUNCE_DOWN else DEBOUNCE_UP) |}]>
             (cv_states v),
           cv_cooked_row v)
        else (cv_states v, cv_cooked_row v)
    | DEBOUNCING =>
        if Z.land delta col_mask =? 0 then
          (<[p := {| state := WAITING; remaining := remaining ks |}]> (cv_states v),
           cv_cooked_row v)
        else if remaining ks >? elapsed then
          (<[p := {| state := DEBOUNCING;
                     remaining := uint8 (remaining ks - elapsed) |}]> (cv_states v),
           cv_cooked_row v)
        else
          (<[p := {| state := QUIESCING;
                     remaining := uint8 DEBOUNCE_QUIESCE |}]> (cv_states v),
           row_t (Z.lxor (cv_cooked_row v) col_mask))
    | QUIESCING =>
        if remaining ks >? elapsed then
          (<[p := {| state := QUIESCING;
                     remaining := uint8 (remaining ks - elapsed) |}]> (cv_states v),
           cv_cooked_row v)
        else
          (<[p := {| state := WAITING; remaining := remaining ks |}]> (cv_states v),
           cv_cooked_row v)
    end in
  {| cv_states := states;
     cv_cooked_row := cooked_row;
     cv_col_mask := row_t (Z.shiftl col_mask 1);
     cv_p := S p |}.

(** The body of the row loop; the loop carries the key states, the
    cooked matrix and the running pointer [p]. *)
Definition row_body (raw_ptr elapsed : Z) (raw : list Z) (r : nat)
    (a : list key_state_t * list Z * nat) : list key_state_t * list Z * nat :=
  let '(states, cooked, p) := a in
  let raw_row := raw !!! r in
  let cooked_row := cooked !!! r in
  let delta := Z.lxor cooked_row raw_row in
  let v := for_loop MATRIX_COLS 0 (fun _ => col_body raw_ptr elapsed delta)
             {| cv_states := states; cv_cooked_row := cooked_row;
                cv_col_mask := 1; cv_p := p |} in
  (cv_states v, <[r := cv_cooked_row v]> cooked, cv_p v).

(** [debounce] once [elapsed] is known. *)
Definition debounce_with (elapsed raw_ptr : Z) (raw cooked : list Z) (num_rows : nat)
    (states : list key_state_t) : list key_state_t * list Z :=
  let '(states', cooked', _) :=
    for_loop num_rows 0 (row_body raw_ptr elapsed raw) (states, cooked, O) in
  (states', cooked').

(** [debounce]: the strategy never reads [changed]. *)
Definition debounce (e : engine) (now raw_ptr : Z) (raw cooked : list Z)
    (num_rows : nat) (changed : bool) : engine * list Z :=
  let '(elapsed, e1) := get_elapsed e now in
  let '(states, cooked') :=
    debounce_with elapsed raw_ptr raw cooked num_rows (key_states e1) in
  ({| key_states := states; last_time_initialized := last_time_initialized e1;
      last_time := last_time e1; first_time := first_time e1 |}, cooked').

(** A sequence of calls, the cooked matrix handed from each to the
    next. *)
Fixpoint run (raw_ptr : Z) (num_rows : nat) (e : engine) (cooked : list Z)
    (calls : list call) : engine * list Z :=
  match calls with
  | [] => (e, cooked)
  | cl :: calls' =>
      let '(e', cooked') :=
        debounce e (c_now cl) raw_ptr (c_raw cl) cooked num_rows (c_changed cl) in
      run raw_ptr num_rows e' cooked' calls'
  end.

(** The cooked matrix after each of a sequence of calls, given the
    deltas they apply. *)
Fixpoint cooked_trace (raw_ptr : Z) (num_rows : nat) (states : list key_state_t)
    (cooked : list Z) (frames : list frame) : list (list Z) :=
  match frames with
  | [] => []
  | f :: frames' =>
      let '(states', cooked') :=
        debounce_with (f_elapsed f) raw_ptr (f_raw f) cooked num_rows states in
      cooked' :: cooked_trace raw_ptr num_rows states' cooked' frames'
  end.

(** What one call does to one key: its next state, and whether its
    cooked bit is flipped.  [ptr_bit] is the bit of the pointer [raw]
    at the key's column, [mismatch] tells whether raw and cooked
    differ at the key. *)
Definition key_step (ptr_bit mismatch : bool) (elapsed : Z) (ks : key_state_t)
    : key_state_t * bool :=
  match state ks with
  | WAITING =>
      if mismatch then
        ({| state := DEBOUNCING;
            remaining := uint8 (if ptr_bit then DEBOUNCE_DOWN else DEBOUNCE_UP) |}, false)
      else (ks, false)
  | DEBOUNCING =>
      if mismatch then
        if remaining ks >? elapsed then
          ({| state := DEBOUNCING; remaining := uint8 (remaining ks - elapsed) |}, false)
        else ({| state := QUIESCING; remaining := uint8 DEBOUNCE_QUIESCE |}, true)
      else ({| state := WAITING; remaining := remaining ks |}, false)
  | QUIESCING =>
      if remaining ks >? elapsed then
        ({| state := QUIESCING; remaining := uint8 (remaining ks - elapsed) |}, false)
      else ({| state := WAITING; remaining := remaining ks |}, false)
  end.


(** *** One key at a time *)

(** The column body, for a mask that is the bit of column [c]. *)
Lemma fancy_col_body_key raw_ptr elapsed delta v (c : nat) :
  (c < ROW_BITS)%nat ->
  cv_col_mask v = 2 ^ Z.of_nat c ->
  (cv_p v < length (cv_states v))%nat ->
  let k := key_step (row_bit raw_ptr c) (row_bit delta c) elapsed
             (cv_states v !!! cv_p v) in
  col_body raw_ptr elapsed delta v =
    {| cv_states := <[cv_p v := fst k]> (cv_states v);
       cv_cooked_row := if snd k then row_t (Z.lxor (cv_cooked_row v) (2 ^ Z.of_nat c))
                        else cv_cooked_row v;
       cv_col_mask := row_t (Z.shiftl (2 ^ Z.of_nat c) 1);
       cv_p := S (cv_p v) |}.
Proof.
  intros Hc Hm Hp k. subst k. unfold col_body, key_step, row_bit.
  rewrite Hm.
  assert (Hid : <[cv_p v := cv_states v !!! cv_p v]> (cv_states v) = cv_states v).
  { apply list_insert_id. now apply list_lookup_lookup_total_lt. }
  assert (Hz : (Z.land delta (2 ^ Z.of_nat c) =? 0) = negb (Z.testbit delta (Z.of_nat c))).
  { rewrite <- (nonzero_land_pow2 delta (Z.of_nat c)) by lia.
    unfold nonzero. now rewrite negb_involutive. }
  rewrite Hz, !nonzero_land_pow2 by lia.
  destruct (state (cv_states v !!! cv_p v));
    destruct (Z.testbit delta (Z.of_nat c)); simpl;
    try destruct (remaining (cv_states v !!! cv_p v) >? elapsed); simpl;
    rewrite ?Hid; reflexivity.
Qed.

(** What the column loop has done after [k] keys of a row that
    starts at [p0] with the cooked word [cr0]. *)
Definition col_inv (raw_ptr elapsed delta : Z) (ks0 : list key_state_t) (cr0 : Z)
    (p0 k : nat) (v : col_vars) : Prop :=
  cv_p v = (p0 + k)%nat /\
  ((k < ROW_BITS)%nat -> cv_col_mask v = 2 ^ Z.of_nat k) /\
  length (cv_states v) = length ks0 /\
  (forall j, (j < k)%nat ->
     let s := key_step (row_bit raw_ptr j) (row_bit delta j) elapsed
                (ks0 !!! (p0 + j)%nat) in
     cv_states v !!! (p0 + j)%nat = fst s /\
     row_bit (cv_cooked_row v) j = xorb (row_bit cr0 j) (snd s)) /\
  (forall j, (k <= j < ROW_BITS)%nat -> row_bit (cv_cooked_row v) j = row_bit cr0 j) /\
  (forall i, (i < p0 \/ p0 + k <= i)%nat -> cv_states v !!! i = ks0 !!! i).

Lemma fancy_col_inv_step raw_ptr elapsed delta ks0 cr0 p0 k v :
  (MATRIX_COLS <= ROW_BITS)%nat ->
  (p0 + MATRIX_COLS <= length ks0)%nat ->
  (k < MATRIX_COLS)%nat ->
  col_inv raw_ptr elapsed delta ks0 cr0 p0 k v ->
  col_inv raw_ptr elapsed delta ks0 cr0 p0 (S k) (col_body raw_ptr elapsed delta v).
Proof.
  intros Hw Hlen Hk (Hp & Hm & Hl & Hdone & Hbits & Hrest).
  specialize (Hm ltac:(lia)).
  rewrite (fancy_col_body_key raw_ptr elapsed delta v k) by (try rewrite Hp, Hl; lia || assumption).
  rewrite Hp, (Hrest (p0 + k)%nat) by lia.
  set (s := key_step _ _ _ _).
  unfold col_inv; simpl. repeat split.
  - lia.
  - intros Hk'. now apply row_t_shift.
  - now rewrite length_insert.
  - destruct (Nat.eq_dec j k) as [->|Hne].
    + rewrite list_lookup_total_insert_eq by lia. reflexivity.
    + rewrite list_lookup_total_insert_ne by lia. apply Hdone. lia.
  - destruct (Nat.eq_dec j k) as [->|Hne].
    + fold s. destruct (snd s).
      * rewrite row_t_bit, row_bit_lxor, row_bit_pow2, Nat.eqb_refl by lia.
        f_equal. apply Hbits. lia.
      * rewrite xorb_false_r. apply Hbits. lia.
    + assert (Hj : (j < k)%nat) by lia. destruct (snd s).
      * rewrite row_t_bit, row_bit_lxor, row_bit_pow2 by lia.
        replace (Nat.eqb k j) with false by (symmetry; apply Nat.eqb_neq; lia).
        rewrite xorb_false_r. apply Hdone, Hj.
      * apply Hdone, Hj.
  - intros j Hj. destruct (snd s).
    + rewrite row_t_bit, row_bit_lxor, row_bit_pow2 by lia.
      replace (Nat.eqb k j) with false by (symmetry; apply Nat.eqb_neq; lia).
      rewrite xorb_false_r. apply Hbits. lia.
    + apply Hbits. lia.
  - intros i Hi. rewrite list_lookup_total_insert_ne by lia. apply Hrest. lia.
Qed.

(** The step of key [(r, c)] in one call. *)
Definition key_at (raw_ptr elapsed : Z) (raw cooked : list Z)
    (states : list key_state_t) (r c : nat) : key_state_t * bool :=
  key_step (row_bit raw_ptr c)
           (xorb (row_bit (cooked !!! r) c) (row_bit (raw !!! r) c))
           elapsed (states !!! (r * MATRIX_COLS + c)%nat).

(** What the row loop has done after [r] rows. *)
Definition row_inv (raw_ptr elapsed : Z) (raw cooked0 : list Z)
    (ks0 : list key_state_t) (r : nat)
    (a : list key_state_t * list Z * nat) : Prop :=
  let '(states, cooked, p) := a in
  p = (r * MATRIX_COLS)%nat /\
  length states = length ks0 /\
  length cooked = length cooked0 /\
  (forall r' c, (r' < r)%nat -> (c < MATRIX_COLS)%nat ->
     let s := key_at raw_ptr elapsed raw cooked0 ks0 r' c in
     states !!! (r' * MATRIX_COLS + c)%nat = fst s /\
     row_bit (cooked !!! r') c = xorb (row_bit (cooked0 !!! r') c) (snd s)) /\
  (forall r', (r <= r')%nat -> cooked !!! r' = cooked0 !!! r') /\
  (forall i, (r * MATRIX_COLS <= i)%nat -> states !!! i = ks0 !!! i).

Lemma fancy_row_inv_step raw_ptr elapsed raw cooked0 ks0 num_rows r a :
  (MATRIX_COLS <= ROW_BITS)%nat ->
  length ks0 = (num_rows * MATRIX_COLS)%nat ->
  length cooked0 = num_rows ->
  (r < num_rows)%nat ->
  row_inv raw_ptr elapsed raw cooked0 ks0 r a ->
  row_inv raw_ptr elapsed raw cooked0 ks0 (S r) (row_body raw_ptr elapsed raw r a).
Proof.
  intros Hw Hlen Hlc Hr. destruct a as [[states cooked] p].
  intros (Hp & Hl & Hl' & Hdone & Hrows & Hrest).
  unfold row_body.
  set (delta := Z.lxor (cooked !!! r) (raw !!! r)).
  set (v0 := {| cv_states := states; cv_cooked_row := cooked !!! r;
                cv_col_mask := 1; cv_p := p |}).
  assert (Hv : col_inv raw_ptr elapsed delta states (cooked !!! r) p
                 (0 + MATRIX_COLS)
                 (for_loop MATRIX_COLS 0 (fun _ => col_body raw_ptr elapsed delta) v0)).
  { apply (for_loop_inv (col_inv raw_ptr elapsed delta states (cooked !!! r) p)).
    - unfold col_inv, v0; simpl. repeat split; try lia; try reflexivity.
    - intros k x Hk Hx. apply fancy_col_inv_step; try assumption; try lia.
      rewrite Hl, Hlen, Hp. nia. }
  destruct Hv as (Hp' & _ & Hl2 & Hd2 & _ & Hr2).
  set (v := for_loop _ _ _ _) in *.
  unfold row_inv. repeat split.
  - rewrite Hp', Hp. lia.
  - congruence.
  - now rewrite length_insert.
  - destruct (Nat.eq_dec r' r) as [->|Hne].
    + destruct (Hd2 c ltac:(lia)) as [Hs _]. rewrite <- Hp, Hs.
      unfold key_at, delta. rewrite row_bit_lxor, Hrows, Hrest, Hp by lia. reflexivity.
    + rewrite Hr2 by nia. apply Hdone; lia.
  - destruct (Nat.eq_dec r' r) as [->|Hne].
    + destruct (Hd2 c ltac:(lia)) as [_ Hs].
      rewrite list_lookup_total_insert_eq by lia. rewrite Hs.
      unfold key_at, delta. rewrite row_bit_lxor, Hrows, Hrest, Hp by lia. reflexivity.
    + rewrite list_lookup_total_insert_ne by lia. apply Hdone; lia.
  - intros r' Hr'. rewrite list_lookup_total_insert_ne by lia. apply Hrows. lia.
  - intros i Hi. rewrite Hr2 by lia. apply Hrest. lia.
Qed.

(** Every key takes exactly its own step: the new state of key
    [(r, c)] and its cooked bit depend on that key alone. *)
Lemma fancy_debounce_with_key elapsed raw_ptr raw cooked num_rows states r c :
  (MATRIX_COLS <= ROW_BITS)%nat ->
  length states = (num_rows * MATRIX_COLS)%nat ->
  length cooked = num_rows ->
  (r < num_rows)%nat -> (c < MATRIX_COLS)%nat ->
  let s := key_at raw_ptr elapsed raw cooked states r c in
  let out := debounce_with elapsed raw_ptr raw cooked num_rows states in
  fst out !!! (r * MATRIX_COLS + c)%nat = fst s /\
  row_bit (snd out !!! r) c = xorb (row_bit (cooked !!! r) c) (snd s) /\
  length (fst out) = length states /\
  length (snd out) = length cooked.
Proof.
  intros Hw Hlen Hlc Hr Hc s out. subst out. unfold debounce_with.
  assert (Hinv : row_inv raw_ptr elapsed raw cooked states (0 + num_rows)
                   (for_loop num_rows 0 (row_body raw_ptr elapsed raw) (states, cooked, O))).
  { apply (for_loop_inv (row_inv raw_ptr elapsed raw cooked states)).
    - unfold row_inv. repeat split; intros; lia.
    - intros k x Hk Hx. apply (fancy_row_inv_step _ _ _ _ _ num_rows); try assumption; lia. }
  destruct (for_loop num_rows 0 _ _) as [[states' cooked'] p'].
  destruct Hinv as (_ & Hl & Hl' & Hdone & _ & _). simpl.
  destruct (Hdone r c ltac:(lia) Hc) as [H1 H2]. auto.
Qed.

(** *** Calls of [debounce] *)

Lemma fancy_get_elapsed_range e now : 0 <= fst (get_elapsed e now) <= 255.
Proof.
  unfold get_elapsed. destruct (negb (last_time_initialized e)); simpl; [lia|].
  apply uint8_range.
Qed.

Lemma fancy_get_elapsed_states e now : key_states (snd (get_elapsed e now)) = key_states e.
Proof. unfold get_elapsed. destruct (negb (last_time_initialized e)); reflexivity. Qed.

(** A call of [debounce] treats every key on its own, with the delta
    [get_elapsed] reports. *)
Lemma fancy_debounce_key e now raw_ptr raw cooked num_rows changed r c :
  (MATRIX_COLS <= ROW_BITS)%nat ->
  length (key_states e) = (num_rows * MATRIX_COLS)%nat ->
  length cooked = num_rows ->
  (r < num_rows)%nat -> (c < MATRIX_COLS)%nat ->
  let s := key_at raw_ptr (fst (get_elapsed e now)) raw cooked (key_states e) r c in
  let out := debounce e now raw_ptr raw cooked num_rows changed in
  key_states (fst out) !!! (r * MATRIX_COLS + c)%nat = fst s /\
  row_bit (snd out !!! r) c = xorb (row_bit (cooked !!! r) c) (snd s) /\
  length (key_states (fst out)) = length (key_states e) /\
  length (snd out) = length cooked.
Proof.
  intros Hw Hlen Hlc Hr Hc s out. subst s out. unfold debounce.
  pose proof (fancy_get_elapsed_states e now) as Hks.
  destruct (get_elapsed e now) as [elapsed e1]. simpl in *. rewrite Hks.
  pose proof (fancy_debounce_with_key elapsed raw_ptr raw cooked num_rows (key_states e) r c
                Hw Hlen Hlc Hr Hc) as H.
  cbv zeta in H.
  destruct (debounce_with elapsed raw_ptr raw cooked num_rows (key_states e)) as [st' cooked'].
  exact H.
Qed.

(** *** The rows a call writes *)

(** The row loop writes the first [num_rows] rows of the cooked matrix
    only. *)
Lemma fancy_debounce_with_rows elapsed raw_ptr raw (cooked : list Z) num_rows states :
  let out := debounce_with elapsed raw_ptr raw cooked num_rows states in
  length (snd out) = length cooked /\
  forall r, (num_rows <= r)%nat -> snd out !!! r = cooked !!! r.
Proof.
  unfold debounce_with.
  pose (P := fun (k : nat) (a : list key_state_t * list Z * nat) =>
               length (snd (fst a)) = length cooked /\
               forall r, (num_rows <= r)%nat -> snd (fst a) !!! r = cooked !!! r).
  assert (H : P (0 + num_rows)%nat
                (for_loop num_rows 0 (row_body raw_ptr elapsed raw) (states, cooked, O))).
  { apply (for_loop_inv P).
    - unfold P. simpl. auto.
    - intros k [[states1 cooked1] p1] Hk [Hl Hrows]. simpl in Hl, Hrows.
      unfold P, row_body. simpl.
      split; [now rewrite length_insert|].
      intros r Hr. rewrite list_lookup_total_insert_ne by lia. now apply Hrows. }
  destruct (for_loop num_rows 0 _ _) as [[states' cooked'] p']. exact H.
Qed.

(** *** What [debounce_init] leaves unset is never read *)

(** Two key states that no call can tell apart: the same state, and
    the same counter unless the key is WAITING, where the counter is
    written before it is read. *)
Definition key_sim (k1 k2 : key_state_t) : Prop :=
  state k1 = state k2 /\ (state k1 <> WAITING -> remaining k1 = remaining k2).

(** Two engines that no call can tell apart. *)
Definition engine_sim (e1 e2 : engine) : Prop :=
  Forall2 key_sim (key_states e1) (key_states e2) /\
  last_time_initialized e1 = last_time_initialized e2 /\
  (last_time_initialized e1 = true -> last_time e1 = last_time e2).

Lemma fancy_key_sim_lookup l1 l2 p :
  Forall2 key_sim l1 l2 -> key_sim (l1 !!! p) (l2 !!! p).
Proof.
  intros H. revert p. induction H as [|k1 k2 l1 l2 Hk _ IH]; intros p.
  - split; [reflexivity|]. intros _. reflexivity.
  - destruct p; [exact Hk | apply IH].
Qed.

Lemma fancy_col_body_sim raw_ptr elapsed delta v1 v2 :
  Forall2 key_sim (cv_states v1) (cv_states v2) ->
  cv_cooked_row v1 = cv_cooked_row v2 ->
  cv_col_mask v1 = cv_col_mask v2 ->
  cv_p v1 = cv_p v2 ->
  let v1' := col_body raw_ptr elapsed delta v1 in
  let v2' := col_body raw_ptr elapsed delta v2 in
  Forall2 key_sim (cv_states v1') (cv_states v2') /\
  cv_cooked_row v1' = cv_cooked_row v2' /\
  cv_col_mask v1' = cv_col_mask v2' /\
  cv_p v1' = cv_p v2'.
Proof.
  intros Hs Hc Hm Hp. unfold col_body. rewrite <- Hc, <- Hm, <- Hp.
  destruct (fancy_key_sim_lookup _ _ (cv_p v1) Hs) as [Hst Hrem].
  rewrite <- Hst.
  destruct (state (cv_states v1 !!! cv_p v1)) eqn:Hk.
  - destruct (nonzero _); simpl; (split; [|auto]);
      [apply Forall2_insert; [assumption|] | assumption].
    split; [reflexivity | reflexivity].
  - rewrite <- (Hrem ltac:(discriminate)).
    destruct (_ =? 0); [|destruct (_ >? _)]; simpl; (split; [|auto]);
      (apply Forall2_insert; [assumption|]); split; reflexivity.
  - rewrite <- (Hrem ltac:(discriminate)).
    destruct (_ >? _); simpl; (split; [|auto]);
      (apply Forall2_insert; [assumption|]); split; reflexivity.
Qed.

Lemma fancy_debounce_with_sim elapsed raw_ptr raw cooked num_rows states1 states2 :
  Forall2 key_sim states1 states2 ->
  let out1 := debounce_with elapsed raw_ptr raw cooked num_rows states1 in
  let out2 := debounce_with elapsed raw_ptr raw cooked num_rows states2 in
  Forall2 key_sim (fst out1) (fst out2) /\ snd out1 = snd out2.
Proof.
  intros Hs. unfold debounce_with.
  pose (Rc := fun (v1 v2 : col_vars) =>
                Forall2 key_sim (cv_states v1) (cv_states v2) /\
                cv_cooked_row v1 = cv_cooked_row v2 /\
                cv_col_mask v1 = cv_col_mask v2 /\
                cv_p v1 = cv_p v2).
  pose (Rr := fun (a1 a2 : list key_state_t * list Z * nat) =>
                Forall2 key_sim (fst (fst a1)) (fst (fst a2)) /\
                snd (fst a1) = snd (fst a2) /\ snd a1 = snd a2).
  assert (H : Rr (for_loop num_rows 0 (row_body raw_ptr elapsed raw) (states1, cooked, O))
                 (for_loop num_rows 0 (row_body raw_ptr elapsed raw) (states2, cooked, O))).
  { apply (for_loop_rel Rr).
    - unfold Rr. simpl. auto.
    - intros r [[s1 c1] p1] [[s2 c2] p2] (H1 & H2 & H3). simpl in H1, H2, H3. subst c2 p2.
      unfold row_body.
      assert (Hc : Rc (for_loop MATRIX_COLS 0
                         (fun _ => col_body raw_ptr elapsed (Z.lxor (c1 !!! r) (raw !!! r)))
                         {| cv_states := s1; cv_cooked_row := c1 !!! r;
                            cv_col_mask := 1; cv_p := p1 |})
                      (for_loop MATRIX_COLS 0
                         (fun _ => col_body raw_ptr elapsed (Z.lxor (c1 !!! r) (raw !!! r)))
                         {| cv_states := s2; cv_cooked_row := c1 !!! r;
                            cv_col_mask := 1; cv_p := p1 |})).
      { apply (for_loop_rel Rc).
        - unfold Rc. simpl. auto.
        - intros k v1 v2 (Ha & Hb & Hc & Hd). now apply fancy_col_body_sim. }
      destruct Hc as (Ha & Hb & _ & Hd). unfold Rr. simpl. rewrite Hb. auto. }
  destruct (for_loop num_rows 0 _ (states1, _, _)) as [[s1 c1] p1].
  destruct (for_loop num_rows 0 _ (states2, _, _)) as [[s2 c2] p2].
  destruct H as (H1 & H2 & _). simpl in *. auto.
Qed.

Lemma fancy_debounce_sim e1 e2 now raw_ptr raw cooked num_rows changed :
  engine_sim e1 e2 ->
  let out1 := debounce e1 now raw_ptr raw cooked num_rows changed in
  let out2 := debounce e2 now raw_ptr raw cooked num_rows changed in
  engine_sim (fst out1) (fst out2) /\ snd out1 = snd out2.
Proof.
  intros (Hs & Hi & Ht). unfold debounce, get_elapsed. rewrite <- Hi.
  destruct (last_time_initialized e1) eqn:Hinit; simpl.
  - rewrite <- (Ht eq_refl).
    pose proof (fancy_debounce_with_sim
                  (uint8 (if timer_diff TIMER_BITS now (last_time e1) >? 255 then 255
                          else timer_diff TIMER_BITS now (last_time e1)))
                  raw_ptr raw cooked num_rows _ _ Hs) as H.
    cbv zeta in H.
    destruct (debounce_with _ _ _ _ _ (key_states e1)) as [s1 c1].
    destruct (debounce_with _ _ _ _ _ (key_states e2)) as [s2 c2].
    destruct H as [H1 H2]. simpl in *. unfold engine_sim. simpl. auto.
  - pose proof (fancy_debounce_with_sim 1 raw_ptr raw cooked num_rows _ _ Hs) as H.
    cbv zeta in H.
    destruct (debounce_with _ _ _ _ _ (key_states e1)) as [s1 c1].
    destruct (debounce_with _ _ _ _ _ (key_states e2)) as [s2 c2].
    destruct H as [H1 H2]. simpl in *. unfold engine_sim. simpl. auto.
Qed.

Lemma fancy_run_sim raw_ptr num_rows calls :
  forall e1 e2 cooked,
    engine_sim e1 e2 ->
    let out1 := run raw_ptr num_rows e1 cooked calls in
    let out2 := run raw_ptr num_rows e2 cooked calls in
    engine_sim (fst out1) (fst out2) /\ snd out1 = snd out2.
Proof.
  induction calls as [|cl calls IH]; intros e1 e2 cooked Hsim; simpl; [auto|].
  pose proof (fancy_debounce_sim e1 e2 (c_now cl) raw_ptr (c_raw cl) cooked num_rows
                (c_changed cl) Hsim) as H.
  cbv zeta in H.
  destruct (debounce e1 _ _ _ _ _ _) as [e1' c1].
  destruct (debounce e2 _ _ _ _ _ _) as [e2' c2].
  destruct H as [H1 H2]. simpl in H1, H2. subst c2. now apply IH.
Qed.

(** [debounce_init] sets every key to WAITING and leaves its counter
    as the block held it. *)
Lemma fancy_init_states num_rows block old :
  length block = (num_rows * MATRIX_COLS)%nat ->
  length (key_states (debounce_init num_rows block old)) = (num_rows * MATRIX_COLS)%nat /\
  forall i, (i < num_rows * MATRIX_COLS)%nat ->
    key_states (debounce_init num_rows block old) !!! i =
      {| state := WAITING; remaining := remaining (block !!! i) |}.
Proof.
  intros Hlen. unfold debounce_init.
  pose (Q := fun (k : nat) (a : list key_state_t * nat) =>
               snd a = k /\ length (fst a) = (num_rows * MATRIX_COLS)%nat /\
               (forall i, (i < k)%nat ->
                  fst a !!! i = {| state := WAITING; remaining := remaining (block !!! i) |}) /\
               (forall i, (k <= i)%nat -> fst a !!! i = block !!! i)).
  assert (H : Q ((0 + num_rows) * MATRIX_COLS)%nat
                (for_loop num_rows 0 (fun _ => for_loop MATRIX_COLS 0 init_col_body)
                   (block, O))).
  { apply (for_loop_inv (fun r => Q (r * MATRIX_COLS)%nat)).
    - unfold Q. simpl. split; [reflexivity|]. split; [assumption|]. split; [intros; lia|auto].
    - intros r a Hr Ha.
      replace (S r * MATRIX_COLS)%nat with (r * MATRIX_COLS + (0 + MATRIX_COLS))%nat by lia.
      apply (for_loop_inv (fun c => Q (r * MATRIX_COLS + c)%nat)).
      + now rewrite Nat.add_0_r.
      + intros c [ks p] Hc (Hp & Hl & Hdone & Hrest). simpl in Hp, Hl, Hdone, Hrest. subst p.
        unfold Q, init_col_body. simpl. split; [lia|]. split; [now rewrite length_insert|].
        split.
        * intros i Hi. destruct (Nat.eq_dec i (r * MATRIX_COLS + c)%nat) as [->|Hne].
          -- rewrite list_lookup_total_insert_eq by (rewrite Hl; nia).
             now rewrite Hrest by lia.
          -- rewrite list_lookup_total_insert_ne by congruence. apply Hdone. lia.
        * intros i Hi. rewrite list_lookup_total_insert_ne by lia. apply Hrest. lia. }
  destruct (for_loop num_rows 0 _ _) as [ks p]. destruct H as (_ & Hl & Hdone & _).
  simpl in *. auto.
Qed.

Lemma fancy_init_flags num_rows block old :
  last_time_initialized (debounce_init num_rows block old) = false.
Proof. unfold debounce_init. now destruct (for_loop _ _ _ _). Qed.

(** Engines that [debounce_init] set up on two blocks of the same size
    cannot be told apart, whatever the blocks held and whatever the
    statics were before. *)
Lemma fancy_init_sim num_rows block1 old1 block2 old2 :
  length block1 = (num_rows * MATRIX_COLS)%nat ->
  length block2 = (num_rows * MATRIX_COLS)%nat ->
  engine_sim (debounce_init num_rows block1 old1) (debounce_init num_rows block2 old2).
Proof.
  intros H1 H2.
  destruct (fancy_init_states num_rows block1 old1 H1) as [Hl1 Hs1].
  destruct (fancy_init_states num_rows block2 old2 H2) as [Hl2 Hs2].
  split; [|split].
  - apply Forall2_same_length_lookup_2; [congruence|].
    intros i k1 k2 Hk1 Hk2.
    assert (Hi : (i < num_rows * MATRIX_COLS)%nat).
    { rewrite <- Hl1. apply lookup_lt_is_Some. eauto. }
    apply list_lookup_total_correct in Hk1, Hk2.
    rewrite Hs1 in Hk1 by assumption. rewrite Hs2 in Hk2 by assumption.
    subst k1 k2. split; [reflexivity|]. simpl. congruence.
  - now rewrite !fancy_init_flags.
  - rewrite fancy_init_flags. discriminate.
Qed.

(** *** The clock of the first call *)

Lemma fancy_debounce_first_time e now raw_ptr raw cooked num_rows changed :
  let e' := fst (debounce e now raw_ptr raw cooked num_rows changed) in
  last_time_initialized e' = true /\
  first_time e' = if last_time_initialized e then first_time e else now.
Proof.
  unfold debounce, get_elapsed.
  destruct (last_time_initialized e); simpl;
    destruct (debounce_with _ _ _ _ _ _); simpl; auto.
Qed.

Lemma fancy_run_first_time raw_ptr num_rows calls :
  forall e cooked,
    last_time_initialized e = true ->
    first_time (fst (run raw_ptr num_rows e cooked calls)) = first_time e.
Proof.
  induction calls as [|cl calls IH]; intros e cooked Hinit; simpl; [reflexivity|].
  pose proof (fancy_debounce_first_time e (c_now cl) raw_ptr (c_raw cl) cooked num_rows
                (c_changed cl)) as H.
  cbv zeta in H.
  destruct (debounce e _ _ _ _ _ _) as [e' cooked']. simpl in H. destruct H as [H1 H2].
  rewrite IH by assumption. now rewrite H2, Hinit.
Qed.
End WithConfig.
End Fancy.

(** * The properties of the specification *)

(** ** Sample configurations

    The windows each file defaults to, on a matrix of three columns
    whose rows are bytes and a 16-bit clock. *)

Definition asym_default : Config :=
  {| MATRIX_COLS := 3; ROW_BITS := 8; TIMER_BITS := 16;
     DEBOUNCE_DOWN := Asym.DEBOUNCE; DEBOUNCE_UP := Asym.DEBOUNCE;
     DEBOUNCE_QUIESCE := 0 |}.

Definition sparse_default : Config :=
  {| MATRIX_COLS := 3; ROW_BITS := 8; TIMER_BITS := 16;
     DEBOUNCE_DOWN := Sparse.DEBOUNCE; DEBOUNCE_UP := Sparse.DEBOUNCE * 2;
     DEBOUNCE_QUIESCE := 0 |}.

Definition fancy_default : Config :=
  {| MATRIX_COLS := 3; ROW_BITS := 8; TIMER_BITS := 16;
     DEBOUNCE_DOWN := Fancy.DEBOUNCE; DEBOUNCE_UP := Fancy.DEBOUNCE;
     DEBOUNCE_QUIESCE := 30 |}.

(** [fancy.c] built with the windows of the sparse file: a release
    waits twice as long as a press. *)
Definition fancy_asymmetric : Config :=
  {| MATRIX_COLS := 3; ROW_BITS := 8; TIMER_BITS := 16;
     DEBOUNCE_DOWN := 5; DEBOUNCE_UP := 10; DEBOUNCE_QUIESCE := 30 |}.

Lemma asym_default_ok : @config_ok asym_default.
Proof. unfold config_ok; simpl; unfold Asym.DEBOUNCE; lia. Qed.

Lemma sparse_default_ok : @config_ok sparse_default.
Proof. unfold config_ok; simpl; unfold Sparse.DEBOUNCE; lia. Qed.

Lemma fancy_default_ok : @config_ok fancy_default.
Proof. unfold config_ok; simpl; unfold Fancy.DEBOUNCE; lia. Qed.

(** ** The test scenarios of the repository on the quiescing strategy *)

(** The cooked matrix of the quiescing strategy, one row, after each of
    a sequence of calls that follows [debounce_init]. *)
Fixpoint fancy_cooked_trace `{Config} (e : Fancy.engine) (cooked : list Z) (calls : list call)
    : list (list Z) :=
  match calls with
  | [] => []
  | cl :: calls' =>
      let '(e', cooked') :=
        Fancy.debounce e (c_now cl) 8192 (c_raw cl) cooked 1 (c_changed cl) in
      cooked' :: fancy_cooked_trace e' cooked' calls'
  end.

Definition fancy_blank : Fancy.engine :=
  {| Fancy.key_states := []; Fancy.last_time_initialized := false;
     Fancy.last_time := 0; Fancy.first_time := 0 |}.

(** The quiescing engine of one row after [debounce_init] on a block
    that held three keys counting. *)
Definition fancy_fresh : Fancy.engine :=
  @Fancy.debounce_init fancy_default 1
    (replicate 3 {| Fancy.state := Fancy.DEBOUNCING; Fancy.remaining := 77 |}) fancy_blank.

Definition scan (t raw_row : Z) : call :=
  {| c_now := t; c_raw := [raw_row]; c_changed := true |}.

(** [FastBounceOnPress]: key (0, 1) down at 0, up at 1, down at 2; the
    press shows at 7. *)
Example fancy_fast_bounce_on_press :
  @fancy_cooked_trace fancy_default
    fancy_fresh [0]
    [scan 0 2; scan 1 0; scan 2 2; scan 3 2; scan 4 2; scan 5 2; scan 6 2; scan 7 2]
  = [[0]; [0]; [0]; [0]; [0]; [0]; [0]; [2]].
Proof. vm_compute. reflexivity. Qed.

(** [OneKeyShort1]: down at 0 shows at 5; after the quiescence, up at 57
    shows at 62. *)
Example fancy_one_key_short :
  @fancy_cooked_trace fancy_default
    fancy_fresh [0]
    [scan 0 2; scan 5 2; scan 40 2; scan 57 0; scan 61 0; scan 62 0]
  = [[0]; [2]; [2]; [2]; [2]; [0]].
Proof. vm_compute. reflexivity. Qed.

(** ** The quiescing strategy arms the window of the pointer's bit *)

(** An idle key of [fancy.c] whose raw and cooked bits differ starts
    counting, with the window chosen by the bit of the pointer [raw] at
    the key's column. *)
Lemma fancy_waiting_arms `{cfg : Config} e now raw_ptr raw cooked num_rows changed r c :
  (MATRIX_COLS <= ROW_BITS)%nat ->
  length (Fancy.key_states e) = (num_rows * MATRIX_COLS)%nat ->
  length cooked = num_rows ->
  (r < num_rows)%nat -> (c < MATRIX_COLS)%nat ->
  Fancy.state (Fancy.key_states e !!! (r * MATRIX_COLS + c)%nat) = Fancy.WAITING ->
  row_bit (raw !!! r) c <> row_bit (cooked !!! r) c ->
  Fancy.key_states (fst (Fancy.debounce e now raw_ptr raw cooked num_rows changed))
    !!! (r * MATRIX_COLS + c)%nat =
  {| Fancy.state := Fancy.DEBOUNCING;
     Fancy.remaining := uint8 (if row_bit raw_ptr c then DEBOUNCE_DOWN else DEBOUNCE_UP) |}.
Proof.
  intros Hw Hlen Hlc Hr Hc Hst Hne.
  destruct (Fancy.fancy_debounce_key e now raw_ptr raw cooked num_rows changed r c
              Hw Hlen Hlc Hr Hc) as (H1 & _).
  rewrite H1. unfold Fancy.key_at, Fancy.key_step. rewrite Hst.
  destruct (row_bit (cooked !!! r) c), (row_bit (raw !!! r) c); simpl; congruence.
Qed.

(** C3, on the code: [fancy.c] built with a press window of 5 and a
    release window of 10, the array [raw] at address 0x2000, key (0, 1)
    idle and released in cooked, pressed in raw.  The key starts counting,
    but with the release window: line 171 tests [raw & col_mask] on the
    pointer, not on [raw_row]. *)
Example fancy_press_armed_with_release_window :
  let e := {| Fancy.key_states :=
                replicate 3 {| Fancy.state := Fancy.WAITING; Fancy.remaining := 0 |};
              Fancy.last_time_initialized := false;
              Fancy.last_time := 0; Fancy.first_time := 0 |} in
  let raw := [2] in
  let cooked := [0] in
  row_bit (raw !!! O) 1 = true /\
  row_bit (cooked !!! O) 1 = false /\
  @DEBOUNCE_DOWN fancy_asymmetric = 5 /\
  Fancy.key_states
    (fst (@Fancy.debounce fancy_asymmetric e 0 8192 raw cooked 1 true)) !!! 1%nat =
  {| Fancy.state := Fancy.DEBOUNCING; Fancy.remaining := 10 |}.
Proof. vm_compute. repeat split. Qed.

(** ** The settling window of the quiescing strategy *)

(** C9: a key of the quiescing strategy that is settling (QUIESCING)
    ignores its raw bit: whatever raw holds, the call leaves its cooked
    bit as it is and never moves it to DEBOUNCING, and it moves it to
    WAITING exactly when the time left does not exceed the elapsed delta;
    otherwise it stays QUIESCING with the delta taken from the time
    left, so that the key goes to WAITING at the first call by which
    the deltas have used up the quiesce counter.  A key that goes to
    WAITING keeps its counter as it was. *)
Theorem quiescing_key_ignores_raw `{cfg : Config} e now raw_ptr raw cooked num_rows changed r c :
  (MATRIX_COLS <= ROW_BITS)%nat ->
  length (Fancy.key_states e) = (num_rows * MATRIX_COLS)%nat ->
  length cooked = num_rows ->
  (r < num_rows)%nat -> (c < MATRIX_COLS)%nat ->
  Fancy.state (Fancy.key_states e !!! (r * MATRIX_COLS + c)%nat) = Fancy.QUIESCING ->
  let elapsed := fst (Fancy.get_elapsed e now) in
  let left := Fancy.remaining (Fancy.key_states e !!! (r * MATRIX_COLS + c)%nat) in
  let out := Fancy.debounce e now raw_ptr raw cooked num_rows changed in
  let key' := Fancy.key_states (fst out) !!! (r * MATRIX_COLS + c)%nat in
  row_bit (snd out !!! r) c = row_bit (cooked !!! r) c /\
  Fancy.state key' <> Fancy.DEBOUNCING /\
  (Fancy.state key' = Fancy.WAITING <-> left <= elapsed) /\
  (Fancy.state key' = Fancy.QUIESCING <-> elapsed < left) /\
  (elapsed < left <= 255 -> Fancy.remaining key' = left - elapsed) /\
  (left <= elapsed -> Fancy.remaining key' = left).
Proof.
  intros Hw Hlen Hlc Hr Hc Hst elapsed left out key'.
  destruct (Fancy.fancy_debounce_key e now raw_ptr raw cooked num_rows changed r c
              Hw Hlen Hlc Hr Hc) as (H1 & H2 & _).
  fold out in H1, H2. fold key' in H1. rewrite H1, H2.
  unfold Fancy.key_at, Fancy.key_step. rewrite Hst. fold elapsed left.
  pose proof (Fancy.fancy_get_elapsed_range e now) as Hel. fold elapsed in Hel.
  destruct (Z.gtb_spec left elapsed); simpl; rewrite xorb_false_r;
    repeat split; intros; try discriminate; try lia; try reflexivity.
  apply uint8_small. lia.
Qed.

Definition fancy_settling : Fancy.engine :=
  {| Fancy.key_states :=
       [ {| Fancy.state := Fancy.WAITING; Fancy.remaining := 0 |};
         {| Fancy.state := Fancy.QUIESCING; Fancy.remaining := 3 |};
         {| Fancy.state := Fancy.WAITING; Fancy.remaining := 0 |} ];
     Fancy.last_time_initialized := true;
     Fancy.last_time := 100;
     Fancy.first_time := 0 |}.

(** The theorem at work: key (0, 1) has 3 units of settling left and is
    released in raw.  A call five units later finds it idle and still
    pressed; a call one unit later instead finds it settling with 2
    units left, and still pressed. *)
Lemma quiescing_key_ignores_raw_witness :
  let out := @Fancy.debounce fancy_default fancy_settling 105 8192 [0] [2] 1 true in
  let sooner := @Fancy.debounce fancy_default fancy_settling 101 8192 [0] [2] 1 true in
  (row_bit (snd out !!! O) 1 = row_bit ([2] !!! O) 1 /\
   Fancy.state (Fancy.key_states (fst out) !!! 1%nat) = Fancy.WAITING) /\
  (row_bit (snd sooner !!! O) 1 = row_bit ([2] !!! O) 1 /\
   Fancy.state (Fancy.key_states (fst sooner) !!! 1%nat) = Fancy.QUIESCING /\
   Fancy.remaining (Fancy.key_states (fst sooner) !!! 1%nat) = 2).
Proof.
  pose proof (@quiescing_key_ignores_raw fancy_default fancy_settling 105 8192 [0] [2] 1 true
                O 1%nat ltac:(simpl; lia) eq_refl eq_refl ltac:(lia) ltac:(simpl; lia) eq_refl)
    as (H1 & _ & H3 & _).
  pose proof (@quiescing_key_ignores_raw fancy_default fancy_settling 101 8192 [0] [2] 1 true
                O 1%nat ltac:(simpl; lia) eq_refl eq_refl ltac:(lia) ltac:(simpl; lia) eq_refl)
    as (G1 & _ & _ & G4 & G5 & _).
  split; [split; [exact H1|] | split; [exact G1 | split]].
  - apply H3. vm_compute. discriminate.
  - apply G4. vm_compute. reflexivity.
  - apply G5. vm_compute. split; [reflexivity | discriminate].
Defined.

(** ** Elapsed-time accounting *)

(** What the specification asks of [get_elapsed], for an engine type
    whose clock state is read by [initialized] and [baseline]: the first
    call reports 1 and records the reading; a later call reports the
    time since the recorded reading, taken modulo the width of the clock
    and capped at 255, and records the new reading; no call reports more
    than 255. *)
Definition elapsed_contract `{Config} {E : Type} (initialized : E -> bool) (baseline : E -> Z)
    (get : E -> Z -> Z * E) : Prop :=
  (forall e now,
     initialized e = false ->
     fst (get e now) = 1 /\
     initialized (snd (get e now)) = true /\
     baseline (snd (get e now)) = now) /\
  (forall e t0 t1,
     initialized e = true ->
     baseline e = t0 mod 2 ^ Z.of_nat TIMER_BITS ->
     0 <= t1 - t0 < 2 ^ Z.of_nat TIMER_BITS ->
     let now := t1 mod 2 ^ Z.of_nat TIMER_BITS in
     fst (get e now) = Z.min (t1 - t0) 255 /\
     initialized (snd (get e now)) = true /\
     baseline (snd (get e now)) = now) /\
  (forall e now, 0 <= fst (get e now) <= 255).

Lemma timer_diff_wraps (bits : nat) (t0 t1 : Z) :
  0 <= t1 - t0 < 2 ^ Z.of_nat bits ->
  timer_diff bits (t1 mod 2 ^ Z.of_nat bits) (t0 mod 2 ^ Z.of_nat bits) = t1 - t0.
Proof.
  intros H. unfold timer_diff. rewrite <- Zminus_mod. now apply Z.mod_small.
Qed.

Lemma clamp_min (d : Z) : 0 <= d -> uint8 (if d >? 255 then 255 else d) = Z.min d 255.
Proof.
  intros Hd. destruct (Z.gtb_spec d 255); rewrite uint8_small; lia.
Qed.

(** What the asymmetric strategy does instead, having no
    [get_elapsed]: [debounce_init] records the clock reading as the
    baseline, and a call applies the time between its clock reading and
    the baseline [last_time], taken modulo the 16 bits of [timer_read]
    and capped at 255; no call applies more than 255. *)
Definition asym_elapsed_contract `{Config} : Prop :=
  (forall num_rows now, Asym.last_time (Asym.debounce_init num_rows now) = now) /\
  (forall e t0 t1,
     Asym.last_time e = t0 mod 2 ^ 16 ->
     0 <= t1 - t0 < 2 ^ 16 ->
     Asym.elapsed_of e (t1 mod 2 ^ 16) = Z.min (t1 - t0) 255) /\
  (forall e now, 0 <= Asym.elapsed_of e now <= 255).

(** The claim of the specification fails on the asymmetric strategy:
    with [debounce_init] at clock 100, the first call of [debounce] at
    clock 107 takes a delta, 7, where the specification has it report 1
    and take none. *)
Example asym_first_call_takes_a_delta :
  let e := @Asym.debounce_init asym_default 1 100 in
  Asym.elapsed_of e 107 = 7 /\ Asym.elapsed_of e 107 <> 1.
Proof. vm_compute. split; [reflexivity | discriminate]. Qed.

(** C4: [get_elapsed] of the sparse and of the quiescing strategy keeps
    the contract of the specification: 1 on the first call after
    initialization, with the clock reading recorded and no delta taken;
    afterwards the whole time units since the previous call, by
    subtraction modulo the clock width, capped at 255; it is a total
    function.  The asymmetric strategy has no first-call case: the
    baseline is the clock reading of [debounce_init], and every call,
    the first included, applies the time between its clock reading and
    the baseline, by subtraction modulo 16 bits, capped at 255. *)
Theorem get_elapsed_accounting `{cfg : Config} :
  elapsed_contract Sparse.last_time_initialized Sparse.last_time Sparse.get_elapsed /\
  elapsed_contract Fancy.last_time_initialized Fancy.last_time Fancy.get_elapsed /\
  asym_elapsed_contract.
Proof.
  split; [|split]; (split; [|split]).
  - intros e now Hi. unfold Sparse.get_elapsed. rewrite Hi. simpl. auto.
  - intros e t0 t1 Hi Hb Ht now. unfold Sparse.get_elapsed. rewrite Hi, Hb. simpl.
    unfold now. rewrite timer_diff_wraps by assumption.
    rewrite clamp_min by lia. auto.
  - apply Sparse.sparse_get_elapsed_range.
  - intros e now Hi. unfold Fancy.get_elapsed. rewrite Hi. simpl. auto.
  - intros e t0 t1 Hi Hb Ht now. unfold Fancy.get_elapsed. rewrite Hi, Hb. simpl.
    unfold now. rewrite timer_diff_wraps by assumption.
    rewrite clamp_min by lia. auto.
  - apply Fancy.fancy_get_elapsed_range.
  - reflexivity.
  - intros e t0 t1 Hb Ht. unfold Asym.elapsed_of. rewrite Hb.
    change 16 with (Z.of_nat 16). rewrite timer_diff_wraps by assumption.
    apply clamp_min. lia.
  - apply Asym.asym_elapsed_of_range.
Qed.

(** The theorem at work on a 16-bit clock that wraps between two
    readings: the quiescing strategy, whose previous call read 65530,
    reads 4 and reports 10; the sparse strategy does the same, and
    reports 1 at its first call; the asymmetric strategy, initialized at
    65530, reads 4 at its first call and applies 10. *)
Lemma get_elapsed_accounting_witness :
  fst (@Fancy.get_elapsed fancy_default
         {| Fancy.key_states := []; Fancy.last_time_initialized := true;
            Fancy.last_time := 65530; Fancy.first_time := 0 |} 4) = 10 /\
  fst (@Sparse.get_elapsed sparse_default
         {| Sparse.debounce_counters := []; Sparse.debounce_list_head := 255;
            Sparse.last_time_initialized := true; Sparse.last_time := 65530 |} 4) = 10 /\
  fst (@Sparse.get_elapsed sparse_default
         {| Sparse.debounce_counters := []; Sparse.debounce_list_head := 255;
            Sparse.last_time_initialized := false; Sparse.last_time := 65530 |} 4) = 1 /\
  Asym.elapsed_of (@Asym.debounce_init asym_default 1 65530) 4 = 10.
Proof.
  destruct (@get_elapsed_accounting fancy_default) as (_ & (_ & Hfancy & _) & _).
  destruct (@get_elapsed_accounting sparse_default) as ((Hfirst & Hsparse & _) & _ & _).
  destruct (@get_elapsed_accounting asym_default) as (_ & _ & (_ & Hasym & _)).
  split; [|split; [|split]].
  - apply (Hfancy {| Fancy.key_states := []; Fancy.last_time_initialized := true;
                     Fancy.last_time := 65530; Fancy.first_time := 0 |} 65530 65540);
      [reflexivity | reflexivity | simpl; lia].
  - apply (Hsparse {| Sparse.debounce_counters := []; Sparse.debounce_list_head := 255;
                      Sparse.last_time_initialized := true; Sparse.last_time := 65530 |}
                   65530 65540);
      [reflexivity | reflexivity | simpl; lia].
  - apply (Hfirst {| Sparse.debounce_counters := []; Sparse.debounce_list_head := 255;
                     Sparse.last_time_initialized := false; Sparse.last_time := 65530 |} 4).
    reflexivity.
  - apply (Hasym (@Asym.debounce_init asym_default 1 65530) 65530 65540);
      [reflexivity | lia].
Defined.

(** ** The list of the sparse strategy follows the counters *)

(** C5: in every state the sparse strategy reaches, after
    [debounce_init] and after every call of [debounce], a key can be
    reached from [debounce_list_head] through the [next] fields exactly
    when its [remaining] is not zero; and from every such state the next
    call returns (the walk of the list ends and its assertion that a
    listed entry has time left holds), so the engine goes on to a state
    of the same kind. *)
Theorem sparse_list_lockstep `{cfg : Config} num_rows e :
  config_ok ->
  (num_rows * MATRIX_COLS < 255)%nat ->
  Sparse.reached num_rows e ->
  (forall i, (i < num_rows * MATRIX_COLS)%nat ->
     Sparse.reachable (Sparse.debounce_counters e) (Sparse.debounce_list_head e) i <->
     Sparse.remaining (Sparse.debounce_counters e !!! i) <> 0) /\
  (forall now raw cooked changed,
     length cooked = num_rows ->
     exists e' cooked',
       Sparse.debounce e now raw cooked num_rows changed = Some (e', cooked') /\
       Sparse.reached num_rows e').
Proof.
  intros Hcfg Hn Hr.
  pose proof (Sparse.sparse_reached_ok num_rows e Hcfg Hn Hr) as Hok.
  split.
  - intros i Hi. apply (Sparse.sparse_engine_ok_lockstep num_rows); [assumption|].
    destruct Hok as (Hlen & _). lia.
  - intros now raw cooked changed Hlc.
    destruct (Sparse.sparse_debounce_spec e now raw cooked num_rows changed Hcfg Hok Hlc)
      as (e' & cooked' & Hrun & _).
    exists e', cooked'. split; [assumption|].
    now apply (Sparse.reached_call num_rows e now raw cooked changed e' cooked').
Qed.

Definition sparse_blank : Sparse.engine :=
  {| Sparse.debounce_counters := []; Sparse.debounce_list_head := 0;
     Sparse.last_time_initialized := false; Sparse.last_time := 0 |}.

(** The sparse engine of one row after [debounce_init] on a block of
    stale entries. *)
Definition sparse_fresh : Sparse.engine :=
  @Sparse.debounce_init sparse_default 1
    (replicate 3 {| Sparse.remaining := 7; Sparse.next := 1 |}) sparse_blank.

Lemma sparse_fresh_reached : @Sparse.reached sparse_default 1 sparse_fresh.
Proof. apply Sparse.reached_init. reflexivity. Defined.

(** The sparse engine of one row after [debounce_init] and a call that
    sees key (0, 1) pressed. *)
Definition sparse_pressed : Sparse.engine :=
  {| Sparse.debounce_counters :=
       [ {| Sparse.remaining := 0; Sparse.next := 255 |};
         {| Sparse.remaining := 5; Sparse.next := 255 |};
         {| Sparse.remaining := 0; Sparse.next := 255 |} ];
     Sparse.debounce_list_head := 1;
     Sparse.last_time_initialized := true; Sparse.last_time := 0 |}.

Lemma sparse_pressed_reached : @Sparse.reached sparse_default 1 sparse_pressed.
Proof.
  apply (@Sparse.reached_call sparse_default 1
           sparse_fresh 0 [2] [0] true
           sparse_pressed [0]).
  - apply sparse_fresh_reached.
  - reflexivity.
  - vm_compute. reflexivity.
Defined.

(** The theorem at work: after the press of key (0, 1) the list holds
    that key, and no other. *)
Lemma sparse_list_lockstep_witness :
  Sparse.reachable (Sparse.debounce_counters sparse_pressed)
                   (Sparse.debounce_list_head sparse_pressed) 1 /\
  ~ Sparse.reachable (Sparse.debounce_counters sparse_pressed)
                     (Sparse.debounce_list_head sparse_pressed) 2.
Proof.
  destruct (@sparse_list_lockstep sparse_default 1 sparse_pressed
              sparse_default_ok ltac:(simpl; lia) sparse_pressed_reached) as [Hiff _].
  split.
  - apply (Hiff 1%nat); [simpl; lia | vm_compute; discriminate].
  - intros H. apply (Hiff 2%nat) in H; [|simpl; lia]. apply H. reflexivity.
Defined.

(** ** The row counts of the asymmetric strategy *)

(** C6: in every state the asymmetric strategy reaches, after
    [debounce_init] and after every call of [debounce], [row_counts] of a
    row is the number of keys of that row whose [count] is not zero; and
    the row counts decide nothing but which rows are stepped over: in a
    call, the new count and the new cooked bit of every key are those of
    the key's own step, computed from its count, its raw and cooked bits,
    the change flag and the elapsed delta alone. *)
Theorem asym_row_counts_exact `{cfg : Config} num_rows e :
  config_ok ->
  Asym.reached num_rows e ->
  (forall row, (row < num_rows)%nat ->
     Asym.row_counts e !!! row = Z.of_nat (Asym.row_active (Asym.state e) row)) /\
  (forall now raw cooked changed r c,
     length cooked = num_rows ->
     (r < num_rows)%nat -> (c < MATRIX_COLS)%nat ->
     let s := Asym.key_step changed
                (xorb (row_bit (raw !!! r) c) (row_bit (cooked !!! r) c))
                (row_bit (raw !!! r) c) (Asym.elapsed_of e now)
                (Asym.count (Asym.state e !!! (r * MATRIX_COLS + c)%nat)) in
     let out := Asym.debounce e now raw cooked num_rows changed in
     Asym.count (Asym.state (fst out) !!! (r * MATRIX_COLS + c)%nat) = fst s /\
     row_bit (snd out !!! r) c =
       (if snd s then row_bit (raw !!! r) c else row_bit (cooked !!! r) c)).
Proof.
  intros Hcfg Hr. destruct (Asym.asym_reached_counts num_rows e Hcfg Hr) as [Hag Hok].
  split.
  - apply Hag.
  - intros now raw cooked changed r c Hlc Hrr Hc s out.
    destruct (Asym.asym_debounce_key e now raw cooked num_rows changed r c
                Hcfg Hag Hlc Hrr Hc) as (H1 & H2 & _).
    split; assumption.
Qed.

(** The asymmetric engine of one row after [debounce_init] at time 0
    and a call that sees key (0, 1) pressed. *)
Definition asym_pressed : Asym.engine :=
  fst (@Asym.debounce asym_default (@Asym.debounce_init asym_default 1 0) 0 [2] [0] 1 true).

Lemma asym_pressed_reached : @Asym.reached asym_default 1 asym_pressed.
Proof. apply Asym.reached_call, Asym.reached_init. Defined.

(** The theorem at work: one key of row 0 is counting, and the row
    count is 1. *)
Lemma asym_row_counts_exact_witness :
  Asym.row_counts asym_pressed !!! O = 1.
Proof.
  destruct (@asym_row_counts_exact asym_default 1 asym_pressed
              asym_default_ok asym_pressed_reached) as [Hrows _].
  rewrite (Hrows O ltac:(lia)). vm_compute. reflexivity.
Defined.

(** ** The commit at expiry *)


(** The asymmetric engine of one row, initialized at time 0: key
    (0, 1) pressed at the first call, released again at the second. *)
Definition asym_bounced : Asym.engine :=
  fst (@Asym.debounce asym_default asym_pressed 0 [0] [0] 1 true).

Lemma asym_bounced_reached : @Asym.reached asym_default 1 asym_bounced.
Proof. apply Asym.reached_call, asym_pressed_reached. Defined.


(** ** A settled key stays settled *)

Lemma asym_settled_stays `{cfg : Config} num_rows r c b calls :
  config_ok ->
  (r < num_rows)%nat -> (c < MATRIX_COLS)%nat ->
  Forall (fun cl => row_bit (c_raw cl !!! r) c = b) calls ->
  forall e cooked,
    Asym.reached num_rows e ->
    length cooked = num_rows ->
    Asym.count (Asym.state e !!! (r * MATRIX_COLS + c)%nat) = 0 ->
    row_bit (cooked !!! r) c = b ->
    let out := Asym.run num_rows e cooked calls in
    row_bit (snd out !!! r) c = b /\
    Asym.count (Asym.state (fst out) !!! (r * MATRIX_COLS + c)%nat) = 0.
Proof.
  intros Hcfg Hr Hc Hall. induction Hall as [|cl calls Hraw Hall IH];
    intros e cooked Hre Hlc Hz Hb; simpl.
  - auto.
  - destruct (Asym.asym_reached_counts num_rows e Hcfg Hre) as [Hag _].
    destruct (Asym.asym_debounce_key e (c_now cl) (c_raw cl) cooked num_rows (c_changed cl) r c
                Hcfg Hag Hlc Hr Hc) as (H1 & H2 & H3).
    pose proof (Asym.reached_call num_rows e (c_now cl) (c_raw cl) cooked (c_changed cl) Hre)
      as Hre'.
    destruct (Asym.debounce e (c_now cl) (c_raw cl) cooked num_rows (c_changed cl))
      as [e' cooked'].
    simpl in H1, H2, H3, Hre'.
    unfold Asym.key_at, Asym.key_step in H1, H2.
    rewrite Hz, Hraw, Hb, xorb_nilpotent, andb_false_r in H1, H2.
    pose proof (Asym.asym_elapsed_of_range e (c_now cl)) as He.
    destruct (Z.gtb_spec 0 (Asym.elapsed_of e (c_now cl))) as [Hgt|_]; [lia|].
    simpl in H1, H2.
    apply IH; [assumption | congruence | assumption | assumption].
Qed.

Lemma sparse_settled_stays `{cfg : Config} num_rows r c b calls :
  config_ok ->
  (num_rows * MATRIX_COLS < 255)%nat ->
  (r < num_rows)%nat -> (c < MATRIX_COLS)%nat ->
  Forall (fun cl => row_bit (c_raw cl !!! r) c = b) calls ->
  forall e cooked,
    Sparse.reached num_rows e ->
    length cooked = num_rows ->
    Sparse.remaining (Sparse.debounce_counters e !!! (r * MATRIX_COLS + c)%nat) = 0 ->
    row_bit (cooked !!! r) c = b ->
    exists e' cooked',
      Sparse.run num_rows e cooked calls = Some (e', cooked') /\
      row_bit (cooked' !!! r) c = b /\
      Sparse.remaining (Sparse.debounce_counters e' !!! (r * MATRIX_COLS + c)%nat) = 0.
Proof.
  intros Hcfg Hn Hr Hc Hall. induction Hall as [|cl calls Hraw Hall IH];
    intros e cooked Hre Hlc Hz Hb; simpl.
  - eauto.
  - pose proof (Sparse.sparse_reached_ok num_rows e Hcfg Hn Hre) as Hok.
    destruct (Sparse.sparse_debounce_spec e (c_now cl) (c_raw cl) cooked num_rows (c_changed cl)
                Hcfg Hok Hlc) as (e1 & cooked1 & Hrun & _ & Hlc1 & Hkeys).
    destruct (Hkeys r c Hr Hc) as [H1 H2].
    unfold Sparse.key_step, Sparse.settle_key, Sparse.arm_key in H1, H2.
    rewrite Hz, Hraw, Hb in H1, H2. simpl in H1, H2. rewrite xorb_nilpotent in H1.
    assert (H1' : Sparse.remaining (Sparse.debounce_counters e1 !!! (r * MATRIX_COLS + c)%nat) = 0)
      by (destruct (c_changed cl); exact H1).
    rewrite Hrun. apply IH; try assumption.
    now apply (Sparse.reached_call num_rows e (c_now cl) (c_raw cl) cooked (c_changed cl) e1 cooked1).
Qed.

Lemma fancy_settled_stays `{cfg : Config} raw_ptr num_rows r c b calls :
  (MATRIX_COLS <= ROW_BITS)%nat ->
  (r < num_rows)%nat -> (c < MATRIX_COLS)%nat ->
  Forall (fun cl => row_bit (c_raw cl !!! r) c = b) calls ->
  forall e cooked,
    length (Fancy.key_states e) = (num_rows * MATRIX_COLS)%nat ->
    length cooked = num_rows ->
    Fancy.state (Fancy.key_states e !!! (r * MATRIX_COLS + c)%nat) = Fancy.WAITING ->
    row_bit (cooked !!! r) c = b ->
    let out := Fancy.run raw_ptr num_rows e cooked calls in
    row_bit (snd out !!! r) c = b /\
    Fancy.state (Fancy.key_states (fst out) !!! (r * MATRIX_COLS + c)%nat) = Fancy.WAITING.
Proof.
  intros Hw Hr Hc Hall. induction Hall as [|cl calls Hraw Hall IH];
    intros e cooked Hlen Hlc Hst Hb; simpl.
  - auto.
  - destruct (Fancy.fancy_debounce_key e (c_now cl) raw_ptr (c_raw cl) cooked num_rows
                (c_changed cl) r c Hw Hlen Hlc Hr Hc) as (H1 & H2 & H3 & H4).
    destruct (Fancy.debounce e (c_now cl) raw_ptr (c_raw cl) cooked num_rows (c_changed cl))
      as [e' cooked'].
    simpl in H1, H2, H3, H4.
    unfold Fancy.key_at, Fancy.key_step in H1, H2.
    rewrite Hst, Hraw, Hb, xorb_nilpotent in H1, H2. simpl in H1, H2.
    rewrite xorb_false_r in H2.
    apply IH; [congruence | congruence | now rewrite H1 | assumption].
Qed.

(** C8: in each of the three strategies, a key that is settled (count
    zero, off the list, or WAITING) with its cooked bit equal to its raw
    bit stays so through any number of calls in which its raw bit does
    not change: its cooked bit is unchanged and it is still settled,
    whatever the clock readings, the change flags and the other keys
    do. *)
Theorem settled_key_is_idempotent `{cfg : Config} num_rows r c b calls :
  config_ok ->
  (r < num_rows)%nat -> (c < MATRIX_COLS)%nat ->
  Forall (fun cl => row_bit (c_raw cl !!! r) c = b) calls ->
  forall cooked,
    length cooked = num_rows ->
    row_bit (cooked !!! r) c = b ->
    (forall e,
       Asym.reached num_rows e ->
       Asym.count (Asym.state e !!! (r * MATRIX_COLS + c)%nat) = 0 ->
       let out := Asym.run num_rows e cooked calls in
       row_bit (snd out !!! r) c = b /\
       Asym.count (Asym.state (fst out) !!! (r * MATRIX_COLS + c)%nat) = 0) /\
    (forall e,
       (num_rows * MATRIX_COLS < 255)%nat ->
       Sparse.reached num_rows e ->
       Sparse.remaining (Sparse.debounce_counters e !!! (r * MATRIX_COLS + c)%nat) = 0 ->
       exists e' cooked',
         Sparse.run num_rows e cooked calls = Some (e', cooked') /\
         row_bit (cooked' !!! r) c = b /\
         Sparse.remaining (Sparse.debounce_counters e' !!! (r * MATRIX_COLS + c)%nat) = 0) /\
    (forall e raw_ptr,
       length (Fancy.key_states e) = (num_rows * MATRIX_COLS)%nat ->
       Fancy.state (Fancy.key_states e !!! (r * MATRIX_COLS + c)%nat) = Fancy.WAITING ->
       let out := Fancy.run raw_ptr num_rows e cooked calls in
       row_bit (snd out !!! r) c = b /\
       Fancy.state (Fancy.key_states (fst out) !!! (r * MATRIX_COLS + c)%nat) = Fancy.WAITING).
Proof.
  intros Hcfg Hr Hc Hall cooked Hlc Hb. split; [|split].
  - intros e Hre Hz. now apply asym_settled_stays.
  - intros e Hn Hre Hz. now apply sparse_settled_stays.
  - intros e raw_ptr Hlen Hst. destruct Hcfg as ((Hw & _) & _). now apply fancy_settled_stays.
Qed.

(** Three calls at times 1, 2 and 40 that see key (0, 1) released
    while key (0, 0) is pressed and changes are flagged. *)
Definition idle_calls : list call :=
  [ {| c_now := 1; c_raw := [1]; c_changed := true |};
    {| c_now := 2; c_raw := [1]; c_changed := false |};
    {| c_now := 40; c_raw := [1]; c_changed := false |} ].

(** The theorem at work on the sparse strategy: key (0, 1) stays
    released and off the list while key (0, 0) is pressed and commits. *)
Lemma settled_key_is_idempotent_witness :
  exists e' cooked',
    @Sparse.run sparse_default 1 sparse_fresh
      [0] idle_calls = Some (e', cooked') /\
    row_bit (cooked' !!! O) 1 = false /\
    Sparse.remaining (Sparse.debounce_counters e' !!! 1%nat) = 0.
Proof.
  destruct (@settled_key_is_idempotent sparse_default 1 O 1%nat false idle_calls
              sparse_default_ok ltac:(lia) ltac:(simpl; lia)
              ltac:(repeat constructor) [0] eq_refl eq_refl) as (_ & Hsparse & _).
  apply (Hsparse sparse_fresh);
    [simpl; lia | apply sparse_fresh_reached | reflexivity].
Defined.

(** ** Counters never underflow *)

(** C7, as the claim states it, fails on the quiescing strategy: key
    (0, 1) is QUIESCING with 3 units left and the call comes 5 units
    after the previous one.  The key goes idle, but its counter is not
    set to zero: it keeps its 3. *)
Example fancy_expired_counter_not_zeroed :
  let out := @Fancy.debounce fancy_default fancy_settling 105 8192 [2] [2] 1 false in
  Fancy.remaining (Fancy.key_states fancy_settling !!! 1%nat) = 3 /\
  fst (@Fancy.get_elapsed fancy_default fancy_settling 105) = 5 /\
  Fancy.state (Fancy.key_states (fst out) !!! 1%nat) = Fancy.WAITING /\
  Fancy.remaining (Fancy.key_states (fst out) !!! 1%nat) <> 0.
Proof. vm_compute. repeat split. discriminate. Qed.

(** C7, amended: no counter leaves 0..255 and the elapsed delta is taken
    only from a counter that exceeds it, so no counter underflows or
    wraps.  In a call that does not re-arm the key, the asymmetric
    strategy sets a count that does not exceed the delta to zero; the
    sparse strategy sets such a counter to zero in every call, and gives
    a fluttering key the delta back without leaving a byte.  The
    quiescing strategy does not zero an expired counter: a key that
    counted to the end gets the quiesce period, a key that settled to the
    end keeps its counter and goes idle. *)
Theorem counters_never_underflow `{cfg : Config} num_rows r c (raw cooked : list Z) now changed :
  config_ok ->
  length cooked = num_rows ->
  (r < num_rows)%nat -> (c < MATRIX_COLS)%nat ->
  let i := (r * MATRIX_COLS + c)%nat in
  let rearm := changed && xorb (row_bit (raw !!! r) c) (row_bit (cooked !!! r) c) in
  let window := if row_bit (raw !!! r) c then DEBOUNCE_DOWN else DEBOUNCE_UP in
  (forall e,
     Asym.reached num_rows e ->
     let old := Asym.count (Asym.state e !!! i) in
     let elapsed := Asym.elapsed_of e now in
     let new := Asym.count (Asym.state (fst (Asym.debounce e now raw cooked num_rows changed)) !!! i) in
     0 <= old <= 255 /\ 0 <= new <= 255 /\
     (rearm = true -> new = window) /\
     (rearm = false -> elapsed < old -> new = old - elapsed) /\
     (rearm = false -> old <= elapsed -> new = 0)) /\
  (forall e,
     (num_rows * MATRIX_COLS < 255)%nat ->
     Sparse.reached num_rows e ->
     exists e' cooked',
       Sparse.debounce e now raw cooked num_rows changed = Some (e', cooked') /\
       let old := Sparse.remaining (Sparse.debounce_counters e !!! i) in
       let elapsed := fst (Sparse.get_elapsed e now) in
       let new := Sparse.remaining (Sparse.debounce_counters e' !!! i) in
       0 <= old <= 255 /\ 0 <= new <= 255 /\
       (old <> 0 -> old <= elapsed -> new = 0) /\
       (elapsed < old -> new = if rearm then old else old - elapsed) /\
       (old = 0 -> new = if rearm then window else 0)) /\
  (forall e raw_ptr,
     length (Fancy.key_states e) = (num_rows * MATRIX_COLS)%nat ->
     let key := Fancy.key_states e !!! i in
     let key' := Fancy.key_states (fst (Fancy.debounce e now raw_ptr raw cooked num_rows changed)) !!! i in
     let old := Fancy.remaining key in
     let elapsed := fst (Fancy.get_elapsed e now) in
     let new := Fancy.remaining key' in
     0 <= old <= 255 ->
     0 <= new <= 255 /\
     (Fancy.state key <> Fancy.WAITING -> elapsed < old ->
      row_bit (raw !!! r) c <> row_bit (cooked !!! r) c \/ Fancy.state key = Fancy.QUIESCING ->
      new = old - elapsed /\ Fancy.state key' = Fancy.state key) /\
     (Fancy.state key = Fancy.DEBOUNCING -> old <= elapsed ->
      row_bit (raw !!! r) c <> row_bit (cooked !!! r) c ->
      new = DEBOUNCE_QUIESCE /\ Fancy.state key' = Fancy.QUIESCING) /\
     (Fancy.state key = Fancy.QUIESCING -> old <= elapsed ->
      new = old /\ Fancy.state key' = Fancy.WAITING) /\
     (Fancy.state key = Fancy.DEBOUNCING ->
      row_bit (raw !!! r) c = row_bit (cooked !!! r) c ->
      new = old /\ Fancy.state key' = Fancy.WAITING)).
Proof.
  intros Hcfg Hlc Hr Hc i rearm window.
  pose proof Hcfg as ((Hw & _) & Hdown & Hup & Hq).
  assert (Hwin : uint8 window = window /\ 0 <= window <= 255).
  { unfold window. destruct (row_bit (raw !!! r) c); rewrite uint8_small; lia. }
  split; [|split].
  - intros e Hre old elapsed new.
    destruct (Asym.asym_reached_counts num_rows e Hcfg Hre) as [Hag Hok].
    destruct (Asym.asym_debounce_key e now raw cooked num_rows changed r c
                Hcfg Hag Hlc Hr Hc) as (H1 & _).
    fold i in H1. fold new in H1. unfold Asym.key_at, Asym.key_step in H1.
    fold i old elapsed rearm window in H1.
    pose proof (Hok i) as Hold. fold old in Hold.
    pose proof (Asym.asym_elapsed_of_range e now) as He. fold elapsed in He.
    destruct rearm; simpl in H1.
    + rewrite H1. destruct Hwin as [-> Hwr]. repeat split; intros; try lia; discriminate.
    + destruct (Z.gtb_spec old elapsed); simpl in H1.
      * rewrite uint8_small in H1 by lia. repeat split; intros; lia || discriminate.
      * destruct (nonzero old) eqn:Hnz; simpl in H1.
        -- repeat split; intros; lia || discriminate.
        -- apply nonzero_false in Hnz. repeat split; intros; lia || discriminate.
  - intros e Hn Hre.
    pose proof (Sparse.sparse_reached_ok num_rows e Hcfg Hn Hre) as Hok.
    destruct (Sparse.sparse_debounce_spec e now raw cooked num_rows changed Hcfg Hok Hlc)
      as (e' & cooked' & Hrun & _ & _ & Hkeys).
    exists e', cooked'. split; [assumption|]. intros old elapsed new.
    destruct (Hkeys r c Hr Hc) as [H1 _]. fold i in H1. fold old elapsed new in H1.
    destruct Hok as (_ & _ & Hrange & _). pose proof (Hrange i) as Hold. fold old in Hold.
    pose proof (Sparse.sparse_get_elapsed_range e now) as He. fold elapsed in He.
    unfold Sparse.key_step, Sparse.settle_key, Sparse.arm_key in H1.
    fold window in H1. destruct Hwin as [Hwin Hwr]. rewrite Hwin in H1.
    unfold rearm. clear rearm.
    destruct (row_bit (cooked !!! r) c), (row_bit (raw !!! r) c), changed;
      destruct (Z.eqb_spec old 0) as [H0|H0];
      try (destruct (Z.gtb_spec old elapsed));
      simpl in H1 |- *;
      try (replace (old - elapsed =? 0) with false in H1 by (symmetry; apply Z.eqb_neq; lia));
      try (rewrite uint8_small in H1 by lia);
      try (rewrite H0 in H1; simpl in H1);
      repeat split; intros; lia.
  - intros e raw_ptr Hlen key key' old elapsed new Hold.
    destruct (Fancy.fancy_debounce_key e now raw_ptr raw cooked num_rows changed r c
                Hw Hlen Hlc Hr Hc) as (H1 & _).
    fold i in H1. fold key' in H1. unfold Fancy.key_at, Fancy.key_step in H1.
    fold i key in H1. fold old elapsed in H1.
    pose proof (Fancy.fancy_get_elapsed_range e now) as He. fold elapsed in He.
    assert (Hptr : 0 <= uint8 (if row_bit raw_ptr c then DEBOUNCE_DOWN else DEBOUNCE_UP) <= 255)
      by apply uint8_range.
    unfold new. rewrite H1. clear H1.
    destruct (Fancy.state key) eqn:Hst;
      destruct (row_bit (cooked !!! r) c), (row_bit (raw !!! r) c);
      try (destruct (Z.gtb_spec old elapsed));
      simpl; rewrite ?uint8_small by lia;
      repeat split; intros; try lia; try congruence; try tauto;
      try (exfalso; intuition congruence).
Qed.

(** ** No premature commit *)

(** The calls of a bounce, seen from key [(r, c)] whose cooked bit is
    [b]: the raw bit is away from [b], or back at [b]. *)
Definition away (r c : nat) (b : bool) (f : frame) : Prop :=
  row_bit (f_raw f !!! r) c = negb b /\ 0 <= f_elapsed f.

Definition back (r c : nat) (b : bool) (f : frame) : Prop :=
  row_bit (f_raw f !!! r) c = b /\ 0 <= f_elapsed f.

(** The window of the direction away from the cooked bit [b]: a press
    when the key is released, a release when it is pressed. *)
Definition window_from `{Config} (b : bool) : Z :=
  if negb b then DEBOUNCE_DOWN else DEBOUNCE_UP.

(** The cooked bit of key [(r, c)] is [b] in every matrix of a trace. *)
Definition holds_bit (r c : nat) (b : bool) (trace : list (list Z)) : Prop :=
  Forall (fun cooked => row_bit (cooked !!! r) c = b) trace.


Lemma asym_back_phase `{cfg : Config} num_rows r c b framesB :
  (MATRIX_COLS <= ROW_BITS)%nat ->
  (r < num_rows)%nat -> (c < MATRIX_COLS)%nat ->
  Forall (back r c b) framesB ->
  forall st rc cooked,
    length st = (num_rows * MATRIX_COLS)%nat ->
    length cooked = num_rows ->
    row_bit (cooked !!! r) c = b ->
    holds_bit r c b (Asym.cooked_trace num_rows st rc cooked framesB).
Proof.
  intros Hw Hr Hc Hall. induction Hall as [|f frames [Hraw He] Hall IH];
    intros st rc cooked Hlen Hlc Hb; simpl; [constructor|].
  pose proof (Asym.asym_debounce_with_key (f_elapsed f) (f_raw f) cooked num_rows (f_changed f)
                st rc r c Hw Hlen Hlc Hr Hc) as H.
  cbv zeta in H.
  destruct (Asym.debounce_with _ _ _ _ _ _ _) as [[st' rc'] cooked'].
  destruct H as (_ & H2 & Hl1 & _ & Hl3).
  assert (Hb' : row_bit (cooked' !!! r) c = b).
  { rewrite H2. destruct (_ && _); congruence. }
  constructor; [exact Hb'|]. apply IH; congruence.
Qed.


Lemma sparse_back_phase `{cfg : Config} num_rows r c b framesB :
  config_ok ->
  (r < num_rows)%nat -> (c < MATRIX_COLS)%nat ->
  Forall (back r c b) framesB ->
  forall cs head cooked,
    Sparse.engine_ok num_rows cs head ->
    length cooked = num_rows ->
    row_bit (cooked !!! r) c = b ->
    exists trace,
      Sparse.cooked_trace num_rows cs head cooked framesB = Some trace /\
      holds_bit r c b trace.
Proof.
  intros Hcfg Hr Hc Hall. induction Hall as [|f frames [Hraw He] Hall IH];
    intros cs head cooked Hok Hlc Hb; simpl.
  - exists []. split; [reflexivity|constructor].
  - destruct (Sparse.sparse_debounce_with_spec (f_elapsed f) (f_raw f) cooked num_rows
                (f_changed f) cs head Hcfg He Hok Hlc)
      as (cs' & head' & cooked' & Hrun & Hok' & Hlc' & Hkeys).
    rewrite Hrun. destruct (Hkeys r c Hr Hc) as [_ H2].
    unfold Sparse.key_step, Sparse.settle_key in H2. rewrite Hraw, Hb in H2.
    assert (Hb' : row_bit (cooked' !!! r) c = b).
    { rewrite H2. destruct (_ =? 0); [reflexivity|]. destruct (_ >? _); reflexivity. }
    destruct (IH cs' head' cooked' Hok' Hlc' Hb') as (trace & Htr & Hholds).
    rewrite Htr. exists (cooked' :: trace). split; [reflexivity|]. now constructor.
Qed.


Lemma fancy_back_phase `{cfg : Config} raw_ptr num_rows r c b framesB :
  (MATRIX_COLS <= ROW_BITS)%nat ->
  (r < num_rows)%nat -> (c < MATRIX_COLS)%nat ->
  Forall (back r c b) framesB ->
  forall states cooked,
    length states = (num_rows * MATRIX_COLS)%nat ->
    length cooked = num_rows ->
    row_bit (cooked !!! r) c = b ->
    holds_bit r c b (Fancy.cooked_trace raw_ptr num_rows states cooked framesB).
Proof.
  intros Hw Hr Hc Hall. induction Hall as [|f frames [Hraw He] Hall IH];
    intros states cooked Hlen Hlc Hb; simpl; [constructor|].
  pose proof (Fancy.fancy_debounce_with_key (f_elapsed f) raw_ptr (f_raw f) cooked num_rows
                states r c Hw Hlen Hlc Hr Hc) as H.
  cbv zeta in H.
  destruct (Fancy.debounce_with _ _ _ _ _ _) as [states' cooked'].
  destruct H as (_ & H2 & Hl1 & Hl2). simpl in H2, Hl1, Hl2.
  unfold Fancy.key_at, Fancy.key_step in H2.
  rewrite Hraw, Hb, xorb_nilpotent in H2.
  assert (Hb' : row_bit (cooked' !!! r) c = b).
  { rewrite H2. destruct (Fancy.state _); try destruct (_ >? _); simpl; now rewrite xorb_false_r. }
  constructor; [exact Hb'|]. apply IH; congruence.
Qed.


(** The asymmetric strategy takes its delta from the clock reading of
    [debounce_init], which [debounce] never refreshes: initialized at
    t = 0, a press seen at t = 100 is committed by the next call, at
    t = 101, with a delta of 101. *)
Example asym_delta_counts_from_init :
  let e0 := @Asym.debounce_init asym_default 1 0 in
  let '(e1, cooked1) := @Asym.debounce asym_default e0 100 [2] [0] 1 true in
  let '(e2, cooked2) := @Asym.debounce asym_default e1 101 [2] cooked1 1 false in
  cooked1 = [0] /\ Asym.elapsed_of e1 101 = 101 /\ cooked2 = [2].
Proof. vm_compute. repeat split. Qed.


(** The cooked matrix of the sparse strategy, one row, after the first
    [k] of a sequence of calls that follows [debounce_init]. *)
Definition sparse_cooked_after (calls : list call) (k : nat) : option (list Z) :=
  option_map snd
    (@Sparse.run sparse_default 1 sparse_fresh
       [0] (take k calls)).




(** ** Flutter in the sparse strategy *)

(** Ten calls on the sparse strategy, one row, one every tick from
    t = 0: key (0, 1) is pressed at the even ticks and released at the
    odd ones, and every call is flagged as a change. *)
Definition alternating_calls : list call :=
  map (fun t => {| c_now := t; c_raw := [if Z.even t then 2 else 0]; c_changed := true |})
      [0; 1; 2; 3; 4; 5; 6; 7; 8; 9].

(** C2, as the claim states it, fails: the raw bit of key (0, 1)
    alternates every tick for ten ticks, ending released, with the change
    flag set at every call, and the cooked bit, released at the start and
    after the first eight calls, is pressed after the ninth (t = 8).  The
    released frames are not deferred: each takes one unit off the press
    window of 5. *)
Example sparse_alternating_bounce_commits :
  Forall (fun cl => c_changed cl = true) alternating_calls /\
  map c_raw alternating_calls = [[2]; [0]; [2]; [0]; [2]; [0]; [2]; [0]; [2]; [0]] /\
  @DEBOUNCE_DOWN sparse_default = 5 /\
  sparse_cooked_after alternating_calls 0 = Some [0] /\
  sparse_cooked_after alternating_calls 8 = Some [0] /\
  sparse_cooked_after alternating_calls 9 = Some [2] /\
  sparse_cooked_after alternating_calls 10 = Some [2].
Proof. vm_compute. repeat split; repeat constructor. Qed.

(** C2, amended: in the sparse strategy a key on the list with more
    time left than the elapsed delta outlives the call, with its cooked
    bit unchanged and still on the list.  When the call is flagged as a
    change and sees the key still mismatched, the arm pass gives back the
    delta the settle pass took, instead of resetting the counter: the
    counter ends the call at its old value.  When the call sees the key
    matched, or is not flagged, the counter goes down by the delta.  So
    flutter defers the commit only by the frames that see the mismatch:
    in the ten alternating ticks the cooked bit stays released through
    the first eight calls and takes the press at the ninth. *)
Theorem sparse_flutter_defers `{cfg : Config} num_rows e now (raw cooked : list Z) changed r c :
  config_ok ->
  (num_rows * MATRIX_COLS < 255)%nat ->
  Sparse.reached num_rows e ->
  length cooked = num_rows ->
  (r < num_rows)%nat -> (c < MATRIX_COLS)%nat ->
  let i := (r * MATRIX_COLS + c)%nat in
  let old := Sparse.remaining (Sparse.debounce_counters e !!! i) in
  let elapsed := fst (Sparse.get_elapsed e now) in
  elapsed < old ->
  (exists e' cooked',
     Sparse.debounce e now raw cooked num_rows changed = Some (e', cooked') /\
     let new := Sparse.remaining (Sparse.debounce_counters e' !!! i) in
     row_bit (cooked' !!! r) c = row_bit (cooked !!! r) c /\
     Sparse.reachable (Sparse.debounce_counters e') (Sparse.debounce_list_head e') i /\
     (changed = true -> row_bit (raw !!! r) c <> row_bit (cooked !!! r) c -> new = old) /\
     (row_bit (raw !!! r) c = row_bit (cooked !!! r) c -> new = old - elapsed) /\
     (changed = false -> new = old - elapsed)) /\
  map (sparse_cooked_after alternating_calls) (seq 1 10) =
    [Some [0]; Some [0]; Some [0]; Some [0]; Some [0]; Some [0]; Some [0]; Some [0];
     Some [2]; Some [2]].
Proof.
  intros Hcfg Hn Hre Hlc Hr Hc i old elapsed Hlt. split; [|vm_compute; reflexivity].
  pose proof (Sparse.sparse_reached_ok num_rows e Hcfg Hn Hre) as Hok.
  destruct (Sparse.sparse_debounce_spec e now raw cooked num_rows changed Hcfg Hok Hlc)
    as (e' & cooked' & Hrun & Hok' & Hlc' & Hkeys).
  exists e', cooked'. split; [assumption|]. intros new.
  destruct (Hkeys r c Hr Hc) as [H1 H2]. fold i in H1. fold old elapsed new in H1.
  fold i old elapsed in H2.
  destruct Hok as (_ & _ & Hrange & _). pose proof (Hrange i) as Hold. fold old in Hold.
  pose proof (Sparse.sparse_get_elapsed_range e now) as He. fold elapsed in He.
  unfold Sparse.key_step, Sparse.settle_key, Sparse.arm_key in H1, H2.
  replace (old =? 0) with false in H1, H2 by (symmetry; apply Z.eqb_neq; lia).
  replace (old >? elapsed) with true in H1, H2
    by (symmetry; destruct (Z.gtb_spec old elapsed); [reflexivity|lia]).
  simpl in H1, H2.
  replace (old - elapsed =? 0) with false in H1 by (symmetry; apply Z.eqb_neq; lia).
  rewrite uint8_small in H1 by lia.
  split; [exact H2|]. split.
  - apply (Sparse.sparse_engine_ok_lockstep num_rows); [assumption| |].
    + destruct Hok' as (Hlen' & _). rewrite Hlen'. unfold i. nia.
    + fold new.
      destruct (row_bit (cooked !!! r) c), (row_bit (raw !!! r) c), changed;
        simpl in H1; lia.
  - destruct (row_bit (cooked !!! r) c), (row_bit (raw !!! r) c), changed;
      simpl in H1; repeat split; intros; try congruence; lia.
Qed.

(** The theorem at work: after the press of key (0, 1) at t = 0, a
    flagged call at t = 1 that still sees it pressed leaves its counter
    at 5. *)
Lemma sparse_flutter_defers_witness :
  exists e' cooked',
    @Sparse.debounce sparse_default sparse_pressed 1 [2] [0] 1 true = Some (e', cooked') /\
    Sparse.remaining (Sparse.debounce_counters e' !!! 1%nat) = 5.
Proof.
  destruct (@sparse_flutter_defers sparse_default 1 sparse_pressed 1 [2] [0] true O 1%nat
              sparse_default_ok ltac:(simpl; lia) sparse_pressed_reached eq_refl
              ltac:(lia) ltac:(simpl; lia) ltac:(vm_compute; reflexivity))
    as [(e' & cooked' & Hrun & _ & _ & Hdefer & _) _].
  exists e', cooked'. split; [exact Hrun|].
  apply Hdefer; [reflexivity | vm_compute; discriminate].
Defined.

(** The theorem [counters_never_underflow] at work on the asymmetric
    strategy: the key that bounced counts 5, and a call three units
    after the start leaves it 2. *)
Lemma counters_never_underflow_witness :
  Asym.count
    (Asym.state (fst (@Asym.debounce asym_default asym_bounced 3 [0] [0] 1 false)) !!! 1%nat)
  = 5 - 3.
Proof.
  destruct (@counters_never_underflow asym_default 1 O 1%nat [0] [0] 3 false
              asym_default_ok eq_refl ltac:(lia) ltac:(simpl; lia)) as [Hasym _].
  destruct (Hasym asym_bounced asym_bounced_reached) as (_ & _ & _ & Hdown & _).
  apply Hdown; [reflexivity | vm_compute; reflexivity].
Defined.

(** * Further properties of the three strategies *)

(** The cooked matrix a sequence of calls ends with: the last of the
    trace, or the matrix it started from when no call was made. *)
Definition final_cooked (cooked : list Z) (trace : list (list Z)) : list Z :=
  default cooked (last trace).

Lemma final_cooked_cons cooked cooked' trace :
  final_cooked cooked (cooked' :: trace) = final_cooked cooked' trace.
Proof.
  unfold final_cooked. rewrite last_cons. now destruct (last trace).
Qed.

Lemma holds_bit_final r c b cooked trace :
  row_bit (cooked !!! r) c = b ->
  holds_bit r c b trace ->
  row_bit (final_cooked cooked trace !!! r) c = b.
Proof.
  intros Hb H. revert cooked Hb. induction H as [|x trace Hx _ IH]; intros cooked Hb.
  - exact Hb.
  - rewrite final_cooked_cons. now apply IH.
Qed.

(** ** The asymmetric strategy measures time from [debounce_init] *)

Lemma asym_run_last_time `{cfg : Config} num_rows calls :
  forall e cooked,
    Asym.last_time (fst (Asym.run num_rows e cooked calls)) = Asym.last_time e.
Proof.
  induction calls as [|cl calls IH]; intros e cooked; simpl; [reflexivity|].
  destruct (Asym.debounce e (c_now cl) (c_raw cl) cooked num_rows (c_changed cl))
    as [e' cooked'] eqn:Hd.
  rewrite IH. unfold Asym.debounce in Hd.
  destruct (Asym.debounce_with _ _ _ _ _ _ _) as [[st rc] ck] in Hd.
  inversion Hd; subst. reflexivity.
Qed.

Lemma asym_run_reached `{cfg : Config} num_rows calls :
  forall e cooked,
    Asym.reached num_rows e ->
    Asym.reached num_rows (fst (Asym.run num_rows e cooked calls)).
Proof.
  induction calls as [|cl calls IH]; intros e cooked He; simpl; [exact He|].
  pose proof (Asym.reached_call num_rows e (c_now cl) (c_raw cl) cooked (c_changed cl) He) as H.
  destruct (Asym.debounce e (c_now cl) (c_raw cl) cooked num_rows (c_changed cl))
    as [e' cooked'].
  apply IH. exact H.
Qed.

(** X1.  The asymmetric strategy never refreshes [last_time]: whatever
    calls [debounce] has served since [debounce_init] read the clock at
    [t0], the baseline is still [t0], and a call at clock reading [now]
    applies the 16-bit difference of [now] and [t0], clamped to 255. *)
Theorem asym_elapsed_counts_from_init `{cfg : Config} num_rows t0 cooked calls now :
  let e := fst (Asym.run num_rows (Asym.debounce_init num_rows t0) cooked calls) in
  Asym.last_time e = t0 /\
  Asym.elapsed_of e now = Z.min ((now - t0) mod 2 ^ 16) 255.
Proof.
  intros e.
  assert (Hlt : Asym.last_time e = t0) by (unfold e; now rewrite asym_run_last_time).
  split; [exact Hlt|].
  unfold Asym.elapsed_of, timer_diff. rewrite Hlt.
  change (Z.of_nat 16) with 16.
  apply clamp_min. pose proof (Z.mod_pos_bound (now - t0) (2 ^ 16)). lia.
Qed.

(** X2.  Hence the debounce window collapses once the clock is 255 or
    more past [debounce_init] (within the 16-bit period): a key in
    flight is settled, with the raw bit committed, by the first call
    that does not re-arm it, however recently it was armed. *)
Theorem asym_stale_baseline_settles_at_once `{cfg : Config}
    num_rows t0 cooked0 calls now (raw cooked : list Z) changed r c :
  config_ok ->
  length cooked = num_rows ->
  (r < num_rows)%nat -> (c < MATRIX_COLS)%nat ->
  let e := fst (Asym.run num_rows (Asym.debounce_init num_rows t0) cooked0 calls) in
  255 <= (now - t0) mod 2 ^ 16 ->
  Asym.count (Asym.state e !!! (r * MATRIX_COLS + c)%nat) <> 0 ->
  changed = false \/ row_bit (raw !!! r) c = row_bit (cooked !!! r) c ->
  let out := Asym.debounce e now raw cooked num_rows changed in
  row_bit (snd out !!! r) c = row_bit (raw !!! r) c /\
  Asym.count (Asym.state (fst out) !!! (r * MATRIX_COLS + c)%nat) = 0.
Proof.
  intros Hcfg Hlc Hr Hc e Hold Hcnt Hflag out.
  assert (Hre : Asym.reached num_rows e)
    by (apply asym_run_reached, Asym.reached_init).
  destruct (Asym.asym_reached_counts num_rows e Hcfg Hre) as [Hag Hok].
  assert (Hel : Asym.elapsed_of e now = 255).
  { unfold Asym.elapsed_of, timer_diff.
    assert (Hlt : Asym.last_time e = t0) by (unfold e; now rewrite asym_run_last_time).
    rewrite Hlt. change (Z.of_nat 16) with 16.
    rewrite clamp_min by lia. lia. }
  destruct (Asym.asym_debounce_key e now raw cooked num_rows changed r c
              Hcfg Hag Hlc Hr Hc) as (H1 & H2 & _).
  fold out in H1, H2. unfold Asym.key_at, Asym.key_step in H1, H2.
  assert (Harm : changed && xorb (row_bit (raw !!! r) c) (row_bit (cooked !!! r) c) = false).
  { destruct Hflag as [->| ->]; [reflexivity|]. now rewrite xorb_nilpotent, andb_false_r. }
  rewrite Harm, Hel in H1, H2.
  pose proof (Hok (r * MATRIX_COLS + c)%nat) as Hrange.
  destruct (Z.gtb_spec (Asym.count (Asym.state e !!! (r * MATRIX_COLS + c)%nat)) 255)
    as [Hgt|_]; [lia|].
  assert (Hnz : nonzero (Asym.count (Asym.state e !!! (r * MATRIX_COLS + c)%nat)) = true)
    by (apply nonzero_true; lia).
  rewrite Hnz in H1, H2. simpl in H1, H2. split; assumption.
Qed.

(** The theorem at work: [debounce_init] at time 0, key (0, 1) pressed
    at time 300; the call one unit later already shows it pressed. *)
Lemma asym_stale_baseline_settles_at_once_witness :
  let e := fst (@Asym.run asym_default 1 (@Asym.debounce_init asym_default 1 0) [0]
                  [ {| c_now := 300; c_raw := [2]; c_changed := true |} ]) in
  let out := @Asym.debounce asym_default e 301 [2] [0] 1 false in
  row_bit (snd out !!! O) 1 = true /\
  Asym.count (Asym.state (fst out) !!! 1%nat) = 0.
Proof.
  apply (@asym_stale_baseline_settles_at_once asym_default 1 0 [0]
           [ {| c_now := 300; c_raw := [2]; c_changed := true |} ] 301 [2] [0] false O 1%nat
           asym_default_ok eq_refl ltac:(lia) ltac:(simpl; lia)
           ltac:(vm_compute; discriminate) ltac:(vm_compute; discriminate)
           ltac:(left; reflexivity)).
Defined.

(** ** How long a held key waits *)

(** A call that is not flagged as a change and sees the raw bit of the
    key at [v]. *)
Definition quiet (r c : nat) (v : bool) (f : frame) : Prop :=
  f_changed f = false /\ row_bit (f_raw f !!! r) c = v /\ 0 <= f_elapsed f.

Lemma quiet_total_nonneg r c v frames :
  Forall (quiet r c v) frames -> 0 <= total_elapsed frames.
Proof.
  intros H. apply total_elapsed_nonneg. eapply Forall_impl; [exact H|].
  now intros f (_ & _ & Hf).
Qed.

(** Unflagged calls count a key down and commit the raw bit when the
    deltas reach its count. *)
Lemma asym_countdown `{cfg : Config} num_rows r c v frames :
  config_ok ->
  (r < num_rows)%nat -> (c < MATRIX_COLS)%nat ->
  Forall (quiet r c v) frames ->
  forall st rc cooked,
    Asym.counts_agree num_rows st rc -> Asym.state_ok st ->
    length cooked = num_rows ->
    let cnt := Asym.count (st !!! (r * MATRIX_COLS + c)%nat) in
    row_bit (final_cooked cooked (Asym.cooked_trace num_rows st rc cooked frames) !!! r) c =
      if (0 <? cnt) && (cnt <=? total_elapsed frames) then v else row_bit (cooked !!! r) c.
Proof.
  intros Hcfg Hr Hc Hall.
  induction Hall as [|f frames (Hch & Hraw & He) Hall IH]; intros st rc cooked Hag Hok Hlc cnt.
  - simpl. unfold final_cooked. simpl.
    destruct (Z.ltb_spec 0 cnt), (Z.leb_spec cnt 0); simpl; try reflexivity; lia.
  - pose proof (quiet_total_nonneg _ _ _ _ Hall) as HT.
    simpl.
    pose proof (Asym.asym_debounce_with_key_exact (f_elapsed f) (f_raw f) cooked num_rows
                  (f_changed f) st rc r c Hcfg He Hag Hlc Hr Hc) as Hkey.
    pose proof (Asym.asym_debounce_with_counts (f_elapsed f) (f_raw f) cooked num_rows
                  (f_changed f) st rc Hcfg He Hag Hok) as Hinv.
    pose proof (Asym.asym_debounce_with_key (f_elapsed f) (f_raw f) cooked num_rows
                  (f_changed f) st rc r c ltac:(destruct Hcfg as [[? ?] ?]; assumption)
                  ltac:(destruct Hag; assumption) Hlc Hr Hc) as Hlen.
    cbv zeta in Hkey, Hlen.
    destruct (Asym.debounce_with _ _ _ _ _ _ _) as [[st' rc'] cooked'].
    destruct Hkey as [H1 H2]. destruct Hinv as [Hag' Hok'].
    destruct Hlen as (_ & _ & _ & _ & Hlc').
    rewrite final_cooked_cons.
    rewrite (IH st' rc' cooked' Hag' Hok' ltac:(congruence)).
    rewrite H1, H2. unfold Asym.key_at, Asym.key_step. rewrite Hch. simpl.
    fold cnt. pose proof (Hok (r * MATRIX_COLS + c)%nat) as Hrange. fold cnt in Hrange.
    destruct (Z.gtb_spec cnt (f_elapsed f)) as [Hgt|Hle]; simpl.
    + rewrite uint8_small by lia.
      destruct (Z.ltb_spec 0 (cnt - f_elapsed f)), (Z.ltb_spec 0 cnt),
        (Z.leb_spec (cnt - f_elapsed f) (total_elapsed frames)),
        (Z.leb_spec cnt (f_elapsed f + total_elapsed frames)); simpl; try reflexivity; lia.
    + unfold nonzero. destruct (Z.eqb_spec cnt 0) as [H0|Hn0]; simpl.
      * rewrite H0. simpl. destruct (Z.ltb_spec 0 cnt); [lia|]. reflexivity.
      * rewrite Hraw.
        destruct (Z.ltb_spec 0 cnt), (Z.leb_spec cnt (f_elapsed f + total_elapsed frames));
          simpl; try reflexivity; lia.
Qed.

(** X3.  Asymmetric strategy: a settled key whose change is flagged
    once and then held through unflagged calls is reported exactly when
    the deltas of the calls after the arming one reach the window of
    its direction: not before, and by then at the latest. *)
Theorem asym_held_key_latency `{cfg : Config} num_rows r c b e f0 frames (cooked : list Z) :
  config_ok ->
  (r < num_rows)%nat -> (c < MATRIX_COLS)%nat ->
  Asym.reached num_rows e ->
  length cooked = num_rows ->
  Asym.count (Asym.state e !!! (r * MATRIX_COLS + c)%nat) = 0 ->
  row_bit (cooked !!! r) c = b ->
  f_changed f0 = true -> row_bit (f_raw f0 !!! r) c = negb b -> 0 <= f_elapsed f0 ->
  Forall (quiet r c (negb b)) frames ->
  row_bit (final_cooked cooked
             (Asym.cooked_trace num_rows (Asym.state e) (Asym.row_counts e) cooked
                (f0 :: frames)) !!! r) c =
    if window_from b <=? total_elapsed frames then negb b else b.
Proof.
  intros Hcfg Hr Hc Hre Hlc Hcnt Hb Hch Hraw He Hall.
  destruct (Asym.asym_reached_counts num_rows e Hcfg Hre) as [Hag Hok].
  simpl.
  pose proof (Asym.asym_debounce_with_key_exact (f_elapsed f0) (f_raw f0) cooked num_rows
                (f_changed f0) (Asym.state e) (Asym.row_counts e) r c
                Hcfg He Hag Hlc Hr Hc) as Hkey.
  pose proof (Asym.asym_debounce_with_counts (f_elapsed f0) (f_raw f0) cooked num_rows
                (f_changed f0) (Asym.state e) (Asym.row_counts e) Hcfg He Hag Hok) as Hinv.
  pose proof (Asym.asym_debounce_with_key (f_elapsed f0) (f_raw f0) cooked num_rows
                (f_changed f0) (Asym.state e) (Asym.row_counts e) r c
                ltac:(destruct Hcfg as [[? ?] ?]; assumption)
                ltac:(destruct Hag; assumption) Hlc Hr Hc) as Hlen.
  cbv zeta in Hkey, Hlen.
  destruct (Asym.debounce_with _ _ _ _ _ _ _) as [[st' rc'] cooked'].
  destruct Hkey as [H1 H2]. destruct Hinv as [Hag' Hok'].
  destruct Hlen as (_ & _ & _ & _ & Hlc').
  rewrite final_cooked_cons.
  rewrite (asym_countdown num_rows r c (negb b) frames Hcfg Hr Hc Hall
             st' rc' cooked' Hag' Hok' ltac:(congruence)).
  unfold Asym.key_at, Asym.key_step in H1, H2.
  rewrite Hch, Hraw, Hb in H1, H2.
  replace (xorb (negb b) b) with true in H1, H2 by (now destruct b).
  simpl in H1, H2. rewrite H1, H2.
  assert (HW : 0 < window_from b <= 255).
  { unfold window_from. destruct Hcfg as (_ & ? & ? & _). destruct b; simpl; lia. }
  fold (window_from b). rewrite uint8_small by lia.
  destruct (Z.ltb_spec 0 (window_from b)); [|lia]. reflexivity.
Qed.

(** The theorem at work: key (0, 1) pressed at a flagged call and held
    for four calls of one unit each is still shown released. *)
Lemma asym_held_key_latency_witness :
  let e := @Asym.debounce_init asym_default 1 0 in
  let held := {| f_elapsed := 1; f_raw := [2]; f_changed := false |} in
  row_bit (final_cooked [0]
             (@Asym.cooked_trace asym_default 1 (Asym.state e) (Asym.row_counts e) [0]
                ({| f_elapsed := 1; f_raw := [2]; f_changed := true |}
                 :: [held; held; held; held])) !!! O) 1 = false.
Proof.
  apply (@asym_held_key_latency asym_default 1 O 1%nat false
           (@Asym.debounce_init asym_default 1 0)
           {| f_elapsed := 1; f_raw := [2]; f_changed := true |}
           (replicate 4 {| f_elapsed := 1; f_raw := [2]; f_changed := false |}) [0]
           asym_default_ok ltac:(lia) ltac:(simpl; lia) (Asym.reached_init 1 0)
           eq_refl eq_refl eq_refl eq_refl eq_refl ltac:(simpl; lia)).
  repeat constructor; simpl; lia.
Defined.

Lemma sparse_countdown `{cfg : Config} num_rows r c v frames :
  config_ok ->
  (r < num_rows)%nat -> (c < MATRIX_COLS)%nat ->
  Forall (quiet r c v) frames ->
  forall cs head (cooked : list Z),
    Sparse.engine_ok num_rows cs head ->
    length cooked = num_rows ->
    let rem := Sparse.remaining (cs !!! (r * MATRIX_COLS + c)%nat) in
    exists trace,
      Sparse.cooked_trace num_rows cs head cooked frames = Some trace /\
      row_bit (final_cooked cooked trace !!! r) c =
        if (0 <? rem) && (rem <=? total_elapsed frames) then v else row_bit (cooked !!! r) c.
Proof.
  intros Hcfg Hr Hc Hall.
  induction Hall as [|f frames (Hch & Hraw & He) Hall IH]; intros cs head cooked Hok Hlc rem.
  - exists []. split; [reflexivity|]. unfold final_cooked. simpl.
    destruct (Z.ltb_spec 0 rem), (Z.leb_spec rem 0); simpl; try reflexivity; lia.
  - pose proof (quiet_total_nonneg _ _ _ _ Hall) as HT.
    destruct (Sparse.sparse_debounce_with_spec (f_elapsed f) (f_raw f) cooked num_rows
                (f_changed f) cs head Hcfg He Hok Hlc)
      as (cs' & head' & cooked' & Hrun & Hok' & Hlc' & Hkeys).
    destruct (Hkeys r c Hr Hc) as [H1 H2].
    destruct (IH cs' head' cooked' Hok' Hlc') as (trace & Htr & Hfin).
    exists (cooked' :: trace). split.
    + simpl. rewrite Hrun, Htr. reflexivity.
    + rewrite final_cooked_cons, Hfin, H1, H2.
      unfold Sparse.key_step, Sparse.settle_key. rewrite Hch. fold rem.
      assert (Hrange : 0 <= rem <= 255) by (destruct Hok as (_ & _ & Hb & _); apply Hb).
      destruct (Z.eqb_spec rem 0) as [H0|Hn0]; simpl.
      * rewrite H0. reflexivity.
      * destruct (Z.gtb_spec rem (f_elapsed f)) as [Hgt|Hle]; simpl.
        -- destruct (Z.ltb_spec 0 (rem - f_elapsed f)), (Z.ltb_spec 0 rem),
             (Z.leb_spec (rem - f_elapsed f) (total_elapsed frames)),
             (Z.leb_spec rem (f_elapsed f + total_elapsed frames)); simpl; try reflexivity; lia.
        -- rewrite Hraw.
           destruct (Z.ltb_spec 0 rem), (Z.leb_spec rem (f_elapsed f + total_elapsed frames));
             simpl; try reflexivity; lia.
Qed.

(** X4.  Sparse strategy: a settled key whose change is flagged once
    and then held through unflagged calls is reported exactly when the
    deltas of the calls after the arming one reach the window of its
    direction; every call of the sequence returns. *)
Theorem sparse_held_key_latency `{cfg : Config} num_rows r c b e f0 frames (cooked : list Z) :
  config_ok ->
  (num_rows * MATRIX_COLS < 255)%nat ->
  (r < num_rows)%nat -> (c < MATRIX_COLS)%nat ->
  Sparse.reached num_rows e ->
  length cooked = num_rows ->
  Sparse.remaining (Sparse.debounce_counters e !!! (r * MATRIX_COLS + c)%nat) = 0 ->
  row_bit (cooked !!! r) c = b ->
  f_changed f0 = true -> row_bit (f_raw f0 !!! r) c = negb b -> 0 <= f_elapsed f0 ->
  Forall (quiet r c (negb b)) frames ->
  exists trace,
    Sparse.cooked_trace num_rows (Sparse.debounce_counters e) (Sparse.debounce_list_head e)
      cooked (f0 :: frames) = Some trace /\
    row_bit (final_cooked cooked trace !!! r) c =
      if window_from b <=? total_elapsed frames then negb b else b.
Proof.
  intros Hcfg Hn Hr Hc Hre Hlc Hrem Hb Hch Hraw He Hall.
  pose proof (Sparse.sparse_reached_ok num_rows e Hcfg Hn Hre) as Hok.
  destruct (Sparse.sparse_debounce_with_spec (f_elapsed f0) (f_raw f0) cooked num_rows
              (f_changed f0) _ _ Hcfg He Hok Hlc)
    as (cs' & head' & cooked' & Hrun & Hok' & Hlc' & Hkeys).
  destruct (Hkeys r c Hr Hc) as [H1 H2].
  destruct (sparse_countdown num_rows r c (negb b) frames Hcfg Hr Hc Hall
              cs' head' cooked' Hok' Hlc') as (trace & Htr & Hfin).
  exists (cooked' :: trace). split.
  - simpl. rewrite Hrun, Htr. reflexivity.
  - rewrite final_cooked_cons, Hfin, H1, H2.
    unfold Sparse.key_step, Sparse.settle_key, Sparse.arm_key.
    rewrite Hch, Hrem, Hraw, Hb. simpl.
    replace (xorb b (negb b)) with true by (now destruct b). simpl.
    assert (HW : 0 < window_from b <= 255).
    { unfold window_from. destruct Hcfg as (_ & ? & ? & _). destruct b; simpl; lia. }
    fold (window_from b). rewrite uint8_small by lia.
    destruct (Z.ltb_spec 0 (window_from b)); [|lia]. reflexivity.
Qed.

(** The theorem at work: key (0, 1) pressed at a flagged call and held
    for five calls of one unit each is shown pressed. *)
Lemma sparse_held_key_latency_witness :
  exists trace,
    @Sparse.cooked_trace sparse_default 1 (Sparse.debounce_counters sparse_fresh)
      (Sparse.debounce_list_head sparse_fresh) [0]
      ({| f_elapsed := 1; f_raw := [2]; f_changed := true |}
       :: replicate 5 {| f_elapsed := 1; f_raw := [2]; f_changed := false |}) = Some trace /\
    row_bit (final_cooked [0] trace !!! O) 1 = true.
Proof.
  apply (@sparse_held_key_latency sparse_default 1 O 1%nat false sparse_fresh
           {| f_elapsed := 1; f_raw := [2]; f_changed := true |}
           (replicate 5 {| f_elapsed := 1; f_raw := [2]; f_changed := false |}) [0]
           sparse_default_ok ltac:(simpl; lia) ltac:(lia) ltac:(simpl; lia)
           sparse_fresh_reached eq_refl eq_refl eq_refl eq_refl eq_refl ltac:(simpl; lia)).
  repeat constructor; simpl; lia.
Defined.


(** A key in DEBOUNCING whose raw bit stays away from its cooked bit
    counts down and flips when the deltas reach its counter. *)
Lemma fancy_countdown `{cfg : Config} raw_ptr num_rows r c b frames :
  config_ok ->
  (r < num_rows)%nat -> (c < MATRIX_COLS)%nat ->
  Forall (away r c b) frames ->
  forall states (cooked : list Z),
    length states = (num_rows * MATRIX_COLS)%nat ->
    length cooked = num_rows ->
    row_bit (cooked !!! r) c = b ->
    let key := states !!! (r * MATRIX_COLS + c)%nat in
    Fancy.state key = Fancy.DEBOUNCING ->
    0 < Fancy.remaining key <= 255 ->
    row_bit (final_cooked cooked
               (Fancy.cooked_trace raw_ptr num_rows states cooked frames) !!! r) c =
      if Fancy.remaining key <=? total_elapsed frames then negb b else b.
Proof.
  intros Hcfg Hr Hc Hall.
  assert (Hw : (MATRIX_COLS <= ROW_BITS)%nat) by (destruct Hcfg as [[? ?] ?]; assumption).
  induction Hall as [|f frames [Hraw He] Hall IH];
    intros states cooked Hlen Hlc Hb key Hst Hrem.
  - unfold final_cooked. simpl.
    destruct (Z.leb_spec (Fancy.remaining key) 0) as [Hle|Hgt]; [lia|exact Hb].
  - assert (HT : 0 <= total_elapsed frames).
    { apply total_elapsed_nonneg. eapply Forall_impl; [exact Hall|]. now intros g [_ Hg]. }
    simpl.
    pose proof (Fancy.fancy_debounce_with_key (f_elapsed f) raw_ptr (f_raw f) cooked num_rows
                  states r c Hw Hlen Hlc Hr Hc) as H.
    cbv zeta in H.
    destruct (Fancy.debounce_with _ _ _ _ _ _) as [states' cooked'].
    destruct H as (H1 & H2 & Hl1 & Hl2). simpl in H1, H2, Hl1, Hl2.
    rewrite final_cooked_cons.
    unfold Fancy.key_at, Fancy.key_step in H1, H2. fold key in H1, H2.
    rewrite Hst, Hraw, Hb in H1, H2.
    replace (xorb b (negb b)) with true in H1, H2 by (now destruct b).
    destruct (Z.gtb_spec (Fancy.remaining key) (f_elapsed f)) as [Hgt|Hle];
      simpl in H1, H2.
    + rewrite xorb_false_r in H2.
      rewrite (IH states' cooked' ltac:(congruence) ltac:(congruence) H2);
        rewrite H1; simpl; [| reflexivity | rewrite uint8_small by lia; lia].
      rewrite uint8_small by lia.
      destruct (Z.leb_spec (Fancy.remaining key - f_elapsed f) (total_elapsed frames)),
        (Z.leb_spec (Fancy.remaining key) (f_elapsed f + total_elapsed frames));
        try reflexivity; lia.
    + rewrite xorb_true_r in H2.
      destruct (Z.leb_spec (Fancy.remaining key) (f_elapsed f + total_elapsed frames));
        [|lia].
      apply holds_bit_final; [exact H2|].
      apply (fancy_back_phase raw_ptr num_rows r c (negb b) frames Hw Hr Hc Hall);
        congruence.
Qed.

(** X5.  Quiescing strategy: a WAITING key whose raw bit moves away
    from its cooked bit and stays there is reported exactly when the
    deltas of the calls after the arming one reach the window it was
    armed with, the one picked by the bit of the pointer [raw] at the
    key's column. *)
Theorem fancy_held_key_latency `{cfg : Config} raw_ptr num_rows r c b f0 frames
    states (cooked : list Z) :
  config_ok ->
  (r < num_rows)%nat -> (c < MATRIX_COLS)%nat ->
  length states = (num_rows * MATRIX_COLS)%nat ->
  length cooked = num_rows ->
  Fancy.state (states !!! (r * MATRIX_COLS + c)%nat) = Fancy.WAITING ->
  row_bit (cooked !!! r) c = b ->
  Forall (away r c b) (f0 :: frames) ->
  let window := if row_bit raw_ptr c then DEBOUNCE_DOWN else DEBOUNCE_UP in
  row_bit (final_cooked cooked
             (Fancy.cooked_trace raw_ptr num_rows states cooked (f0 :: frames)) !!! r) c =
    if window <=? total_elapsed frames then negb b else b.
Proof.
  intros Hcfg Hr Hc Hlen Hlc Hst Hb Hall window.
  assert (Hw : (MATRIX_COLS <= ROW_BITS)%nat) by (destruct Hcfg as [[? ?] ?]; assumption).
  apply Forall_cons in Hall as [[Hraw He] Hall].
  simpl.
  pose proof (Fancy.fancy_debounce_with_key (f_elapsed f0) raw_ptr (f_raw f0) cooked num_rows
                states r c Hw Hlen Hlc Hr Hc) as H.
  cbv zeta in H.
  destruct (Fancy.debounce_with _ _ _ _ _ _) as [states' cooked'].
  destruct H as (H1 & H2 & Hl1 & Hl2). simpl in H1, H2, Hl1, Hl2.
  rewrite final_cooked_cons.
  unfold Fancy.key_at, Fancy.key_step in H1, H2.
  rewrite Hst, Hraw, Hb in H1, H2.
  replace (xorb b (negb b)) with true in H1, H2 by (now destruct b).
  simpl in H1, H2. rewrite xorb_false_r in H2.
  assert (HW : 0 < window <= 255).
  { unfold window. destruct Hcfg as (_ & ? & ? & _). destruct (row_bit raw_ptr c); lia. }
  fold window in H1. rewrite uint8_small in H1 by lia.
  rewrite (fancy_countdown raw_ptr num_rows r c b frames Hcfg Hr Hc Hall states' cooked'
             ltac:(congruence) ltac:(congruence) H2);
    rewrite H1; simpl; [reflexivity | reflexivity | lia].
Qed.

(** The theorem at work on the file's defaults: key (0, 1) pressed and
    held for five calls of one unit each after the arming one is shown
    pressed. *)
Lemma fancy_held_key_latency_witness :
  row_bit (final_cooked [0]
             (@Fancy.cooked_trace fancy_default 8192 1 (Fancy.key_states fancy_fresh) [0]
                (replicate 6 {| f_elapsed := 1; f_raw := [2]; f_changed := false |}))
           !!! O) 1 = true.
Proof.
  apply (@fancy_held_key_latency fancy_default 8192 1 O 1%nat false
           {| f_elapsed := 1; f_raw := [2]; f_changed := false |}
           (replicate 5 {| f_elapsed := 1; f_raw := [2]; f_changed := false |})
           (Fancy.key_states fancy_fresh) [0]
           fancy_default_ok ltac:(lia) ltac:(simpl; lia) eq_refl eq_refl eq_refl eq_refl).
  repeat constructor; simpl; lia.
Defined.

(** ** No output within the window *)

(** A call with a delta that is not negative, as [get_elapsed] gives
    it. *)
Definition timed (f : frame) : Prop := 0 <= f_elapsed f.

Lemma timed_tail_total frames :
  Forall timed frames -> 0 <= total_elapsed (tail frames) <= total_elapsed frames.
Proof.
  intros H. destruct H as [|f frames Hf H]; simpl; [lia|].
  pose proof (total_elapsed_nonneg frames H). unfold timed in Hf. lia.
Qed.

(** What keeps a key of the quiescing strategy from flipping during
    [frames]: a WAITING key gets less than the window after the call
    that may arm it, a DEBOUNCING key less than the time it has left,
    a QUIESCING key less than the time it has left and one window. *)
Definition fancy_calm (window : Z) (key : Fancy.key_state_t) (frames : list frame) : Prop :=
  match Fancy.state key with
  | Fancy.WAITING => total_elapsed (tail frames) < window
  | Fancy.DEBOUNCING =>
      total_elapsed frames < Fancy.remaining key /\ Fancy.remaining key <= window
  | Fancy.QUIESCING =>
      Fancy.remaining key <= 255 /\ total_elapsed frames < Fancy.remaining key + window
  end.

Lemma fancy_no_flip `{cfg : Config} raw_ptr num_rows r c frames :
  config_ok ->
  (r < num_rows)%nat -> (c < MATRIX_COLS)%nat ->
  Forall timed frames ->
  forall states (cooked : list Z),
    length states = (num_rows * MATRIX_COLS)%nat ->
    length cooked = num_rows ->
    fancy_calm (if row_bit raw_ptr c then DEBOUNCE_DOWN else DEBOUNCE_UP)
      (states !!! (r * MATRIX_COLS + c)%nat) frames ->
    holds_bit r c (row_bit (cooked !!! r) c)
      (Fancy.cooked_trace raw_ptr num_rows states cooked frames).
Proof.
  intros Hcfg Hr Hc Hall.
  assert (Hw : (MATRIX_COLS <= ROW_BITS)%nat) by (destruct Hcfg as [[? ?] ?]; assumption).
  set (window := if row_bit raw_ptr c then DEBOUNCE_DOWN else DEBOUNCE_UP).
  assert (HW : 0 < window <= 255).
  { unfold window. destruct Hcfg as (_ & ? & ? & _). destruct (row_bit raw_ptr c); lia. }
  induction Hall as [|f frames He Hall IH];
    intros states cooked Hlen Hlc Hcalm; simpl; [constructor|].
  pose proof (timed_tail_total frames Hall) as HT. unfold timed in He.
  pose proof (Fancy.fancy_debounce_with_key (f_elapsed f) raw_ptr (f_raw f) cooked num_rows
                states r c Hw Hlen Hlc Hr Hc) as H.
  cbv zeta in H.
  destruct (Fancy.debounce_with _ _ _ _ _ _) as [states' cooked'].
  destruct H as (H1 & H2 & Hl1 & Hl2). simpl in H1, H2, Hl1, Hl2.
  unfold Fancy.key_at, Fancy.key_step in H1, H2.
  unfold fancy_calm in Hcalm. simpl in Hcalm.
  assert (Hnext : row_bit (cooked' !!! r) c = row_bit (cooked !!! r) c /\
                  fancy_calm window (states' !!! (r * MATRIX_COLS + c)%nat) frames).
  { unfold fancy_calm. rewrite H1, H2. fold window.
    destruct (Fancy.state (states !!! (r * MATRIX_COLS + c)%nat)) eqn:Hst.
    - destruct (xorb _ _); simpl; rewrite xorb_false_r.
      + split; [reflexivity|]. rewrite uint8_small by lia. lia.
      + split; [reflexivity|]. rewrite Hst. lia.
    - destruct Hcalm as [Hlt Hle].
      destruct (xorb _ _); simpl.
      + destruct (Z.gtb_spec (Fancy.remaining (states !!! (r * MATRIX_COLS + c)%nat))
                             (f_elapsed f)); [|lia].
        simpl. rewrite xorb_false_r. split; [reflexivity|].
        rewrite uint8_small by lia. lia.
      + rewrite xorb_false_r. split; [reflexivity|]. lia.
    - destruct Hcalm as [Hle Hlt].
      destruct (Z.gtb_spec (Fancy.remaining (states !!! (r * MATRIX_COLS + c)%nat))
                           (f_elapsed f)); simpl; rewrite xorb_false_r.
      + split; [reflexivity|]. pose proof (uint8_range
          (Fancy.remaining (states !!! (r * MATRIX_COLS + c)%nat) - f_elapsed f)).
        rewrite uint8_small by lia. lia.
      + split; [reflexivity|]. lia. }
  destruct Hnext as [Hbit Hcalm'].
  constructor; [exact Hbit|]. rewrite <- Hbit.
  apply IH; congruence.
Qed.

(** X6.  Quiescing strategy: a QUIESCING key keeps its cooked bit
    through any calls whose deltas add up to less than the time left
    of its quiescence plus one debounce window, whatever the raw
    matrix shows during these calls: after a report the output holds
    for at least [DEBOUNCE_QUIESCE] and a window. *)
Theorem fancy_quiescence_lasts `{cfg : Config} raw_ptr num_rows r c frames states
    (cooked : list Z) :
  config_ok ->
  (r < num_rows)%nat -> (c < MATRIX_COLS)%nat ->
  Forall timed frames ->
  length states = (num_rows * MATRIX_COLS)%nat ->
  length cooked = num_rows ->
  let key := states !!! (r * MATRIX_COLS + c)%nat in
  let window := if row_bit raw_ptr c then DEBOUNCE_DOWN else DEBOUNCE_UP in
  Fancy.state key = Fancy.QUIESCING ->
  Fancy.remaining key <= 255 ->
  total_elapsed frames < Fancy.remaining key + window ->
  holds_bit r c (row_bit (cooked !!! r) c)
    (Fancy.cooked_trace raw_ptr num_rows states cooked frames).
Proof.
  intros Hcfg Hr Hc Hall Hlen Hlc key window Hst Hrem Htot.
  apply (fancy_no_flip raw_ptr num_rows r c frames Hcfg Hr Hc Hall); try assumption.
  unfold fancy_calm. fold key. rewrite Hst. auto.
Qed.

(** The theorem at work: a key that has just been reported pressed
    ignores a release seen during the next 34 units. *)
Lemma fancy_quiescence_lasts_witness :
  holds_bit O 1 true
    (@Fancy.cooked_trace fancy_default 8192 1
       [ {| Fancy.state := Fancy.WAITING; Fancy.remaining := 0 |};
         {| Fancy.state := Fancy.QUIESCING; Fancy.remaining := 30 |};
         {| Fancy.state := Fancy.WAITING; Fancy.remaining := 0 |} ] [2]
       [ {| f_elapsed := 14; f_raw := [0]; f_changed := true |};
         {| f_elapsed := 10; f_raw := [0]; f_changed := false |};
         {| f_elapsed := 10; f_raw := [0]; f_changed := false |} ]).
Proof.
  apply (@fancy_quiescence_lasts fancy_default 8192 1 O 1%nat
           [ {| f_elapsed := 14; f_raw := [0]; f_changed := true |};
             {| f_elapsed := 10; f_raw := [0]; f_changed := false |};
             {| f_elapsed := 10; f_raw := [0]; f_changed := false |} ]
           [ {| Fancy.state := Fancy.WAITING; Fancy.remaining := 0 |};
             {| Fancy.state := Fancy.QUIESCING; Fancy.remaining := 30 |};
             {| Fancy.state := Fancy.WAITING; Fancy.remaining := 0 |} ] [2]
           fancy_default_ok ltac:(lia) ltac:(simpl; lia)
           ltac:(repeat constructor; unfold timed; simpl; lia)
           eq_refl eq_refl eq_refl ltac:(simpl; lia)
           ltac:(simpl; unfold Fancy.DEBOUNCE; lia)).
Defined.

(** What keeps a counter of the asymmetric or of the sparse strategy
    from expiring during [frames]: an idle key gets less than the
    window after the call that may arm it, a key in flight less than
    the time it has left. *)
Definition counter_calm (window cnt : Z) (frames : list frame) : Prop :=
  (cnt = 0 /\ total_elapsed (tail frames) < window) \/
  (0 < cnt <= window /\ total_elapsed frames < cnt).

Lemma asym_no_flip `{cfg : Config} num_rows r c b frames :
  config_ok ->
  (r < num_rows)%nat -> (c < MATRIX_COLS)%nat ->
  Forall timed frames ->
  forall st rc (cooked : list Z),
    length st = (num_rows * MATRIX_COLS)%nat ->
    length cooked = num_rows ->
    row_bit (cooked !!! r) c = b ->
    counter_calm (window_from b) (Asym.count (st !!! (r * MATRIX_COLS + c)%nat)) frames ->
    holds_bit r c b (Asym.cooked_trace num_rows st rc cooked frames).
Proof.
  intros Hcfg Hr Hc Hall.
  assert (Hw : (MATRIX_COLS <= ROW_BITS)%nat) by (destruct Hcfg as [[? ?] ?]; assumption).
  assert (HW : 0 < window_from b <= 255).
  { unfold window_from. destruct Hcfg as (_ & ? & ? & _). destruct b; simpl; lia. }
  induction Hall as [|f frames He Hall IH];
    intros st rc cooked Hlen Hlc Hb Hcalm; simpl; [constructor|].
  pose proof (timed_tail_total frames Hall) as HT. unfold timed in He.
  pose proof (Asym.asym_debounce_with_key (f_elapsed f) (f_raw f) cooked num_rows (f_changed f)
                st rc r c Hw Hlen Hlc Hr Hc) as H.
  cbv zeta in H.
  destruct (Asym.debounce_with _ _ _ _ _ _ _) as [[st' rc'] cooked'].
  destruct H as (H1 & H2 & Hl1 & _ & Hl3).
  unfold Asym.key_at, Asym.key_step in H1, H2. rewrite Hb in H1, H2.
  unfold counter_calm in Hcalm. simpl in Hcalm.
  assert (Hnext : row_bit (cooked' !!! r) c = b /\
                  counter_calm (window_from b)
                    (Asym.count (st' !!! (r * MATRIX_COLS + c)%nat)) frames).
  { unfold counter_calm. rewrite H1, H2.
    destruct (Asym.scanned (f_changed f) rc r); simpl; [|split; [reflexivity | lia]].
    destruct (f_changed f && xorb (row_bit (f_raw f !!! r) c) b) eqn:Harm; simpl.
    - (* armed, or armed again: the raw bit is away from [b] *)
      assert (Hraw : row_bit (f_raw f !!! r) c = negb b).
      { apply andb_prop in Harm as [_ Hx].
        destruct (row_bit (f_raw f !!! r) c), b; simpl in Hx |- *; congruence. }
      rewrite Hraw. fold (window_from b). rewrite uint8_small by lia.
      split; [reflexivity|]. right. lia.
    - destruct Hcalm as [[H0 Ht]|[Hcnt Ht]].
      + rewrite H0. destruct (Z.gtb_spec 0 (f_elapsed f)); [lia|]. simpl.
        split; [reflexivity|]. left. lia.
      + destruct (Z.gtb_spec (Asym.count (st !!! (r * MATRIX_COLS + c)%nat)) (f_elapsed f));
          [|lia].
        simpl. rewrite uint8_small by lia. split; [reflexivity|]. right. lia. }
  destruct Hnext as [Hbit Hcalm'].
  constructor; [exact Hbit|]. apply IH; congruence.
Qed.

Lemma sparse_no_flip `{cfg : Config} num_rows r c b frames :
  config_ok ->
  (r < num_rows)%nat -> (c < MATRIX_COLS)%nat ->
  Forall timed frames ->
  forall cs head (cooked : list Z),
    Sparse.engine_ok num_rows cs head ->
    length cooked = num_rows ->
    row_bit (cooked !!! r) c = b ->
    counter_calm (window_from b) (Sparse.remaining (cs !!! (r * MATRIX_COLS + c)%nat)) frames ->
    exists trace,
      Sparse.cooked_trace num_rows cs head cooked frames = Some trace /\
      holds_bit r c b trace.
Proof.
  intros Hcfg Hr Hc Hall.
  assert (HW : 0 < window_from b <= 255).
  { unfold window_from. destruct Hcfg as (_ & ? & ? & _). destruct b; simpl; lia. }
  induction Hall as [|f frames He Hall IH];
    intros cs head cooked Hok Hlc Hb Hcalm.
  { exists []. split; [reflexivity | constructor]. }
  pose proof (timed_tail_total frames Hall) as HT. unfold timed in He.
  destruct (Sparse.sparse_debounce_with_spec (f_elapsed f) (f_raw f) cooked num_rows
              (f_changed f) cs head Hcfg He Hok Hlc)
    as (cs' & head' & cooked' & Hrun & Hok' & Hlc' & Hkeys).
  destruct (Hkeys r c Hr Hc) as [H1 H2].
  unfold Sparse.key_step, Sparse.settle_key, Sparse.arm_key in H1, H2. rewrite Hb in H1, H2.
  unfold counter_calm in Hcalm. simpl in Hcalm.
  assert (Hnext : row_bit (cooked' !!! r) c = b /\
                  counter_calm (window_from b)
                    (Sparse.remaining (cs' !!! (r * MATRIX_COLS + c)%nat)) frames).
  { unfold counter_calm. rewrite H1, H2.
    destruct Hcalm as [[H0 Ht]|[Hcnt Ht]].
    - rewrite H0. simpl.
      destruct (f_changed f); [|split; [reflexivity | left; lia]].
      destruct (xorb b (row_bit (f_raw f !!! r) c)) eqn:Hx; [|split; [reflexivity | left; lia]].
      assert (Hraw : row_bit (f_raw f !!! r) c = negb b).
      { destruct (row_bit (f_raw f !!! r) c), b; simpl in Hx |- *; congruence. }
      simpl. rewrite Hraw. fold (window_from b). rewrite uint8_small by lia.
      split; [reflexivity|]. right. lia.
    - destruct (Z.eqb_spec (Sparse.remaining (cs !!! (r * MATRIX_COLS + c)%nat)) 0); [lia|].
      destruct (Z.gtb_spec (Sparse.remaining (cs !!! (r * MATRIX_COLS + c)%nat)) (f_elapsed f));
        [|lia].
      simpl. destruct (f_changed f); [|split; [reflexivity | right; lia]].
      destruct (xorb b (row_bit (f_raw f !!! r) c)); [|split; [reflexivity | right; lia]].
      destruct (Z.eqb_spec (Sparse.remaining (cs !!! (r * MATRIX_COLS + c)%nat) - f_elapsed f) 0);
        [lia|].
      replace (Sparse.remaining (cs !!! (r * MATRIX_COLS + c)%nat) - f_elapsed f + f_elapsed f)
        with (Sparse.remaining (cs !!! (r * MATRIX_COLS + c)%nat)) by lia.
      rewrite uint8_small by lia. split; [reflexivity | right; lia]. }
  destruct Hnext as [Hbit Hcalm'].
  destruct (IH cs' head' cooked' Hok' Hlc' Hbit Hcalm') as (trace & Htr & Hh).
  exists (cooked' :: trace). split.
  - simpl. rewrite Hrun, Htr. reflexivity.
  - constructor; assumption.
Qed.

(** X7.  Whatever the raw bit of a settled key does, and whatever
    calls are flagged, its cooked bit does not move as long as the
    deltas of the calls after the first add up to less than the debounce
    window: no pattern of bounces shorter than the window gets
    through.  The window is the one of the direction away from the
    cooked bit; in the quiescing strategy it is the one the pointer
    [raw] picks. *)
Theorem short_burst_is_filtered `{cfg : Config} num_rows r c b frames (cooked : list Z) :
  config_ok ->
  (r < num_rows)%nat -> (c < MATRIX_COLS)%nat ->
  length cooked = num_rows ->
  row_bit (cooked !!! r) c = b ->
  Forall timed frames ->
  (forall e,
     Asym.reached num_rows e ->
     Asym.count (Asym.state e !!! (r * MATRIX_COLS + c)%nat) = 0 ->
     total_elapsed (tail frames) < window_from b ->
     holds_bit r c b
       (Asym.cooked_trace num_rows (Asym.state e) (Asym.row_counts e) cooked frames)) /\
  (forall e,
     (num_rows * MATRIX_COLS < 255)%nat ->
     Sparse.reached num_rows e ->
     Sparse.remaining (Sparse.debounce_counters e !!! (r * MATRIX_COLS + c)%nat) = 0 ->
     total_elapsed (tail frames) < window_from b ->
     exists trace,
       Sparse.cooked_trace num_rows (Sparse.debounce_counters e) (Sparse.debounce_list_head e)
         cooked frames = Some trace /\
       holds_bit r c b trace) /\
  (forall raw_ptr states,
     length states = (num_rows * MATRIX_COLS)%nat ->
     Fancy.state (states !!! (r * MATRIX_COLS + c)%nat) = Fancy.WAITING ->
     total_elapsed (tail frames) < (if row_bit raw_ptr c then DEBOUNCE_DOWN else DEBOUNCE_UP) ->
     holds_bit r c b (Fancy.cooked_trace raw_ptr num_rows states cooked frames)).
Proof.
  intros Hcfg Hr Hc Hlc Hb Hall. split; [|split].
  - intros e Hre Hcnt Htot.
    destruct (Asym.asym_reached_counts num_rows e Hcfg Hre) as [(Hlen & _) _].
    apply (asym_no_flip num_rows r c b frames Hcfg Hr Hc Hall); try assumption.
    left. auto.
  - intros e Hn Hre Hrem Htot.
    pose proof (Sparse.sparse_reached_ok num_rows e Hcfg Hn Hre) as Hok.
    apply (sparse_no_flip num_rows r c b frames Hcfg Hr Hc Hall); try assumption.
    left. auto.
  - intros raw_ptr states Hlen Hst Htot. rewrite <- Hb.
    apply (fancy_no_flip raw_ptr num_rows r c frames Hcfg Hr Hc Hall); try assumption.
    unfold fancy_calm. now rewrite Hst.
Qed.

(** The theorem at work: the sparse engine shows nothing of key
    (0, 1) fluttering at every unit for four calls. *)
Lemma short_burst_is_filtered_witness :
  exists trace,
    @Sparse.cooked_trace sparse_default 1 (Sparse.debounce_counters sparse_fresh)
      (Sparse.debounce_list_head sparse_fresh) [0]
      [ {| f_elapsed := 1; f_raw := [2]; f_changed := true |};
        {| f_elapsed := 1; f_raw := [0]; f_changed := true |};
        {| f_elapsed := 1; f_raw := [2]; f_changed := true |};
        {| f_elapsed := 1; f_raw := [0]; f_changed := true |} ] = Some trace /\
    holds_bit O 1 false trace.
Proof.
  destruct (@short_burst_is_filtered sparse_default 1 O 1%nat false
              [ {| f_elapsed := 1; f_raw := [2]; f_changed := true |};
                {| f_elapsed := 1; f_raw := [0]; f_changed := true |};
                {| f_elapsed := 1; f_raw := [2]; f_changed := true |};
                {| f_elapsed := 1; f_raw := [0]; f_changed := true |} ] [0]
              sparse_default_ok ltac:(lia) ltac:(simpl; lia) eq_refl eq_refl
              ltac:(repeat constructor; unfold timed; simpl; lia)) as (_ & Hsparse & _).
  apply (Hsparse sparse_fresh ltac:(simpl; lia) sparse_fresh_reached eq_refl).
  vm_compute. reflexivity.
Defined.

(** ** The change flag *)

(** A call flagged as a change that sees the key away from [b]. *)
Definition flagged_away (r c : nat) (b : bool) (f : frame) : Prop :=
  f_changed f = true /\ row_bit (f_raw f !!! r) c = negb b /\ 0 <= f_elapsed f.

(** A call that is not flagged as a change. *)
Definition unflagged (f : frame) : Prop :=
  f_changed f = false /\ 0 <= f_elapsed f.

Lemma asym_flagged_phase `{cfg : Config} num_rows r c b frames :
  (MATRIX_COLS <= ROW_BITS)%nat ->
  (r < num_rows)%nat -> (c < MATRIX_COLS)%nat ->
  Forall (flagged_away r c b) frames ->
  forall st rc (cooked : list Z),
    length st = (num_rows * MATRIX_COLS)%nat ->
    length cooked = num_rows ->
    row_bit (cooked !!! r) c = b ->
    holds_bit r c b (Asym.cooked_trace num_rows st rc cooked frames).
Proof.
  intros Hw Hr Hc Hall.
  induction Hall as [|f frames (Hch & Hraw & He) Hall IH];
    intros st rc cooked Hlen Hlc Hb; simpl; [constructor|].
  pose proof (Asym.asym_debounce_with_key (f_elapsed f) (f_raw f) cooked num_rows (f_changed f)
                st rc r c Hw Hlen Hlc Hr Hc) as H.
  cbv zeta in H.
  destruct (Asym.debounce_with _ _ _ _ _ _ _) as [[st' rc'] cooked'].
  destruct H as (_ & H2 & Hl1 & _ & Hl3).
  assert (Hb' : row_bit (cooked' !!! r) c = b).
  { rewrite H2. unfold Asym.key_at, Asym.key_step. rewrite Hch, Hraw, Hb.
    replace (xorb (negb b) b) with true by (now destruct b). simpl.
    rewrite andb_false_r. reflexivity. }
  constructor; [exact Hb'|]. apply IH; congruence.
Qed.

Lemma sparse_flagged_phase `{cfg : Config} num_rows r c b frames :
  config_ok ->
  (r < num_rows)%nat -> (c < MATRIX_COLS)%nat ->
  Forall (flagged_away r c b) frames ->
  Forall (fun f => f_elapsed f < window_from b) frames ->
  forall cs head (cooked : list Z),
    Sparse.engine_ok num_rows cs head ->
    length cooked = num_rows ->
    row_bit (cooked !!! r) c = b ->
    let rem := Sparse.remaining (cs !!! (r * MATRIX_COLS + c)%nat) in
    rem = 0 \/ rem = window_from b ->
    exists trace,
      Sparse.cooked_trace num_rows cs head cooked frames = Some trace /\
      holds_bit r c b trace.
Proof.
  intros Hcfg Hr Hc Hall.
  assert (HW : 0 < window_from b <= 255).
  { unfold window_from. destruct Hcfg as (_ & ? & ? & _). destruct b; simpl; lia. }
  induction Hall as [|f frames (Hch & Hraw & He) Hall IH];
    intros Hshort cs head cooked Hok Hlc Hb rem Hrem.
  - exists []. split; [reflexivity | constructor].
  - apply Forall_cons in Hshort as [Hlt Hshort].
    destruct (Sparse.sparse_debounce_with_spec (f_elapsed f) (f_raw f) cooked num_rows
                (f_changed f) cs head Hcfg He Hok Hlc)
      as (cs' & head' & cooked' & Hrun & Hok' & Hlc' & Hkeys).
    destruct (Hkeys r c Hr Hc) as [H1 H2].
    unfold Sparse.key_step, Sparse.settle_key, Sparse.arm_key in H1, H2.
    fold rem in H1, H2. rewrite Hch, Hraw, Hb in H1, H2.
    assert (Hb' : row_bit (cooked' !!! r) c = b /\
                  Sparse.remaining (cs' !!! (r * MATRIX_COLS + c)%nat) = window_from b).
    { destruct Hrem as [H0|HWr]; rewrite ?H0, ?HWr in H1, H2.
      - simpl in H1, H2. replace (xorb b (negb b)) with true in H1 by (now destruct b).
        simpl in H1. fold (window_from b) in H1. rewrite uint8_small in H1 by lia.
        split; assumption.
      - destruct (Z.eqb_spec (window_from b) 0) as [|_]; [lia|].
        destruct (Z.gtb_spec (window_from b) (f_elapsed f)) as [_|]; [|lia].
        simpl in H1, H2. replace (xorb b (negb b)) with true in H1 by (now destruct b).
        destruct (Z.eqb_spec (window_from b - f_elapsed f) 0) as [|_]; [lia|].
        replace (window_from b - f_elapsed f + f_elapsed f) with (window_from b) in H1 by lia.
        rewrite uint8_small in H1 by lia. split; assumption. }
    destruct Hb' as [Hb' Hrem'].
    destruct (IH Hshort cs' head' cooked' Hok' Hlc' Hb' (or_intror Hrem')) as (trace & Htr & Hh).
    exists (cooked' :: trace). split.
    + simpl. rewrite Hrun, Htr. reflexivity.
    + constructor; assumption.
Qed.

(** X8.  A held key is not reported while every call is flagged as a
    change.  The asymmetric strategy re-arms a mismatched key at each
    flagged call, so its cooked bit stays, however much time the calls
    let pass.  The sparse strategy gives the counter back the delta it
    has just taken, so the cooked bit of a key that was settled stays
    as long as each single delta is below the window. *)
Theorem flagged_calls_postpone_commit `{cfg : Config} num_rows r c b frames (cooked : list Z) :
  config_ok ->
  (r < num_rows)%nat -> (c < MATRIX_COLS)%nat ->
  length cooked = num_rows ->
  row_bit (cooked !!! r) c = b ->
  Forall (flagged_away r c b) frames ->
  (forall st rc,
     length st = (num_rows * MATRIX_COLS)%nat ->
     holds_bit r c b (Asym.cooked_trace num_rows st rc cooked frames)) /\
  (forall e,
     (num_rows * MATRIX_COLS < 255)%nat ->
     Sparse.reached num_rows e ->
     Sparse.remaining (Sparse.debounce_counters e !!! (r * MATRIX_COLS + c)%nat) = 0 ->
     Forall (fun f => f_elapsed f < window_from b) frames ->
     exists trace,
       Sparse.cooked_trace num_rows (Sparse.debounce_counters e) (Sparse.debounce_list_head e)
         cooked frames = Some trace /\
       holds_bit r c b trace).
Proof.
  intros Hcfg Hr Hc Hlc Hb Hall.
  assert (Hw : (MATRIX_COLS <= ROW_BITS)%nat) by (destruct Hcfg as [[? ?] ?]; assumption).
  split.
  - intros st rc Hlen.
    apply (asym_flagged_phase num_rows r c b frames Hw Hr Hc Hall); assumption.
  - intros e Hn Hre Hrem Hshort.
    pose proof (Sparse.sparse_reached_ok num_rows e Hcfg Hn Hre) as Hok.
    apply (sparse_flagged_phase num_rows r c b frames Hcfg Hr Hc Hall Hshort); auto.
Qed.

(** The theorem at work: the asymmetric engine never shows key (0, 1)
    pressed through three flagged calls that let 300 units pass. *)
Lemma flagged_calls_postpone_commit_witness :
  let e := @Asym.debounce_init asym_default 1 0 in
  holds_bit O 1 false
    (@Asym.cooked_trace asym_default 1 (Asym.state e) (Asym.row_counts e) [0]
       (replicate 3 {| f_elapsed := 100; f_raw := [2]; f_changed := true |})).
Proof.
  destruct (@flagged_calls_postpone_commit asym_default 1 O 1%nat false
              (replicate 3 {| f_elapsed := 100; f_raw := [2]; f_changed := true |}) [0]
              asym_default_ok ltac:(lia) ltac:(simpl; lia) eq_refl eq_refl
              ltac:(repeat constructor; simpl; lia)) as [Hasym _].
  apply Hasym. reflexivity.
Defined.

Lemma asym_unflagged_phase `{cfg : Config} num_rows r c frames :
  (MATRIX_COLS <= ROW_BITS)%nat ->
  (r < num_rows)%nat -> (c < MATRIX_COLS)%nat ->
  Forall unflagged frames ->
  forall st rc (cooked : list Z),
    length st = (num_rows * MATRIX_COLS)%nat ->
    length cooked = num_rows ->
    Asym.count (st !!! (r * MATRIX_COLS + c)%nat) = 0 ->
    holds_bit r c (row_bit (cooked !!! r) c) (Asym.cooked_trace num_rows st rc cooked frames).
Proof.
  intros Hw Hr Hc Hall.
  induction Hall as [|f frames (Hch & He) Hall IH];
    intros st rc cooked Hlen Hlc Hcnt; simpl; [constructor|].
  pose proof (Asym.asym_debounce_with_key (f_elapsed f) (f_raw f) cooked num_rows (f_changed f)
                st rc r c Hw Hlen Hlc Hr Hc) as H.
  cbv zeta in H.
  destruct (Asym.debounce_with _ _ _ _ _ _ _) as [[st' rc'] cooked'].
  destruct H as (H1 & H2 & Hl1 & _ & Hl3).
  unfold Asym.key_at, Asym.key_step in H1, H2. rewrite Hch, Hcnt in H1, H2.
  destruct (Z.gtb_spec 0 (f_elapsed f)) as [|_]; [lia|].
  simpl in H1, H2. rewrite andb_false_r in H2.
  assert (Hcnt' : Asym.count (st' !!! (r * MATRIX_COLS + c)%nat) = 0)
    by (rewrite H1; now destruct (Asym.scanned _ _ _)).
  constructor; [exact H2|]. rewrite <- H2. apply IH; congruence.
Qed.

Lemma sparse_unflagged_phase `{cfg : Config} num_rows r c frames :
  config_ok ->
  (r < num_rows)%nat -> (c < MATRIX_COLS)%nat ->
  Forall unflagged frames ->
  forall cs head (cooked : list Z),
    Sparse.engine_ok num_rows cs head ->
    length cooked = num_rows ->
    Sparse.remaining (cs !!! (r * MATRIX_COLS + c)%nat) = 0 ->
    exists trace,
      Sparse.cooked_trace num_rows cs head cooked frames = Some trace /\
      holds_bit r c (row_bit (cooked !!! r) c) trace.
Proof.
  intros Hcfg Hr Hc Hall.
  induction Hall as [|f frames (Hch & He) Hall IH]; intros cs head cooked Hok Hlc Hrem.
  - exists []. split; [reflexivity | constructor].
  - destruct (Sparse.sparse_debounce_with_spec (f_elapsed f) (f_raw f) cooked num_rows
                (f_changed f) cs head Hcfg He Hok Hlc)
      as (cs' & head' & cooked' & Hrun & Hok' & Hlc' & Hkeys).
    destruct (Hkeys r c Hr Hc) as [H1 H2].
    unfold Sparse.key_step, Sparse.settle_key in H1, H2.
    rewrite Hch, Hrem in H1, H2. simpl in H1, H2.
    destruct (IH cs' head' cooked' Hok' Hlc' H1) as (trace & Htr & Hh).
    exists (cooked' :: trace). split.
    + simpl. rewrite Hrun, Htr. reflexivity.
    + constructor; [exact H2|]. rewrite <- H2. exact Hh.
Qed.

(** X9.  The asymmetric and the sparse strategy start a debounce only
    in a call flagged as a change: through unflagged calls a settled
    key keeps its cooked bit whatever its raw bit shows, so a
    transition that arrives unflagged goes unnoticed until a flagged
    call. *)
Theorem unflagged_change_goes_unnoticed `{cfg : Config} num_rows r c frames (cooked : list Z) :
  config_ok ->
  (r < num_rows)%nat -> (c < MATRIX_COLS)%nat ->
  length cooked = num_rows ->
  Forall unflagged frames ->
  (forall e,
     Asym.reached num_rows e ->
     Asym.count (Asym.state e !!! (r * MATRIX_COLS + c)%nat) = 0 ->
     holds_bit r c (row_bit (cooked !!! r) c)
       (Asym.cooked_trace num_rows (Asym.state e) (Asym.row_counts e) cooked frames)) /\
  (forall e,
     (num_rows * MATRIX_COLS < 255)%nat ->
     Sparse.reached num_rows e ->
     Sparse.remaining (Sparse.debounce_counters e !!! (r * MATRIX_COLS + c)%nat) = 0 ->
     exists trace,
       Sparse.cooked_trace num_rows (Sparse.debounce_counters e) (Sparse.debounce_list_head e)
         cooked frames = Some trace /\
       holds_bit r c (row_bit (cooked !!! r) c) trace).
Proof.
  intros Hcfg Hr Hc Hlc Hall.
  assert (Hw : (MATRIX_COLS <= ROW_BITS)%nat) by (destruct Hcfg as [[? ?] ?]; assumption).
  split.
  - intros e Hre Hcnt.
    destruct (Asym.asym_reached_counts num_rows e Hcfg Hre) as [(Hlen & _) _].
    apply (asym_unflagged_phase num_rows r c frames Hw Hr Hc Hall); assumption.
  - intros e Hn Hre Hrem.
    pose proof (Sparse.sparse_reached_ok num_rows e Hcfg Hn Hre) as Hok.
    apply (sparse_unflagged_phase num_rows r c frames Hcfg Hr Hc Hall); assumption.
Qed.

(** The theorem at work: the sparse engine never shows key (0, 1)
    pressed when the press is held through unflagged calls only. *)
Lemma unflagged_change_goes_unnoticed_witness :
  exists trace,
    @Sparse.cooked_trace sparse_default 1 (Sparse.debounce_counters sparse_fresh)
      (Sparse.debounce_list_head sparse_fresh) [0]
      (replicate 3 {| f_elapsed := 10; f_raw := [2]; f_changed := false |}) = Some trace /\
    holds_bit O 1 false trace.
Proof.
  destruct (@unflagged_change_goes_unnoticed sparse_default 1 O 1%nat
              (replicate 3 {| f_elapsed := 10; f_raw := [2]; f_changed := false |}) [0]
              sparse_default_ok ltac:(lia) ltac:(simpl; lia) eq_refl
              ltac:(repeat constructor; simpl; lia)) as [_ Hsparse].
  apply (Hsparse sparse_fresh ltac:(simpl; lia) sparse_fresh_reached eq_refl).
Defined.

(** ** A cooked bit that agrees with raw is kept *)

(** X10.  In every state of the key (settled, counting down, expiring,
    quiescing), calls that see its raw bit equal to its cooked bit
    leave the cooked bit as it is: the filter moves an output only
    towards the input. *)
Theorem agreeing_bit_is_kept `{cfg : Config} num_rows r c b frames (cooked : list Z) :
  config_ok ->
  (r < num_rows)%nat -> (c < MATRIX_COLS)%nat ->
  length cooked = num_rows ->
  row_bit (cooked !!! r) c = b ->
  Forall (back r c b) frames ->
  (forall st rc,
     length st = (num_rows * MATRIX_COLS)%nat ->
     holds_bit r c b (Asym.cooked_trace num_rows st rc cooked frames)) /\
  (forall cs head,
     Sparse.engine_ok num_rows cs head ->
     exists trace,
       Sparse.cooked_trace num_rows cs head cooked frames = Some trace /\
       holds_bit r c b trace) /\
  (forall raw_ptr states,
     length states = (num_rows * MATRIX_COLS)%nat ->
     holds_bit r c b (Fancy.cooked_trace raw_ptr num_rows states cooked frames)).
Proof.
  intros Hcfg Hr Hc Hlc Hb Hall.
  assert (Hw : (MATRIX_COLS <= ROW_BITS)%nat) by (destruct Hcfg as [[? ?] ?]; assumption).
  split; [|split].
  - intros st rc Hlen. apply (asym_back_phase num_rows r c b frames Hw Hr Hc Hall); assumption.
  - intros cs head Hok.
    apply (sparse_back_phase num_rows r c b frames Hcfg Hr Hc Hall); assumption.
  - intros raw_ptr states Hlen.
    apply (fancy_back_phase raw_ptr num_rows r c b frames Hw Hr Hc Hall); assumption.
Qed.

(** The theorem at work: a key of the quiescing strategy that is about
    to flip (DEBOUNCING, one unit left) keeps its cooked bit when the
    raw bit is back. *)
Lemma agreeing_bit_is_kept_witness :
  holds_bit O 1 false
    (@Fancy.cooked_trace fancy_default 8192 1
       [ {| Fancy.state := Fancy.WAITING; Fancy.remaining := 0 |};
         {| Fancy.state := Fancy.DEBOUNCING; Fancy.remaining := 1 |};
         {| Fancy.state := Fancy.WAITING; Fancy.remaining := 0 |} ] [0]
       (replicate 3 {| f_elapsed := 10; f_raw := [0]; f_changed := false |})).
Proof.
  destruct (@agreeing_bit_is_kept fancy_default 1 O 1%nat false
              (replicate 3 {| f_elapsed := 10; f_raw := [0]; f_changed := false |}) [0]
              fancy_default_ok ltac:(lia) ltac:(simpl; lia) eq_refl eq_refl
              ltac:(repeat constructor; simpl; lia)) as (_ & _ & Hfancy).
  apply Hfancy. reflexivity.
Defined.

(** ** An output changes only when a counter expires *)

(** X11.  A call changes the cooked bit of a key only by committing an
    expired counter: the key had time on its counter, no more than the
    delta of the call, and the new cooked bit is the raw bit.  In the
    asymmetric strategy this happens in unflagged calls only, a flagged
    call re-arms the key instead; in the quiescing strategy the key
    was DEBOUNCING and enters QUIESCING. *)
Theorem cooked_changes_only_at_expiry `{cfg : Config}
    num_rows r c (raw cooked : list Z) now changed :
  config_ok ->
  length cooked = num_rows ->
  (r < num_rows)%nat -> (c < MATRIX_COLS)%nat ->
  let i := (r * MATRIX_COLS + c)%nat in
  (forall e,
     Asym.reached num_rows e ->
     let out := Asym.debounce e now raw cooked num_rows changed in
     row_bit (snd out !!! r) c <> row_bit (cooked !!! r) c ->
     changed = false /\
     0 < Asym.count (Asym.state e !!! i) <= Asym.elapsed_of e now /\
     Asym.count (Asym.state (fst out) !!! i) = 0 /\
     row_bit (snd out !!! r) c = row_bit (raw !!! r) c) /\
  (forall e e' cooked',
     (num_rows * MATRIX_COLS < 255)%nat ->
     Sparse.reached num_rows e ->
     Sparse.debounce e now raw cooked num_rows changed = Some (e', cooked') ->
     row_bit (cooked' !!! r) c <> row_bit (cooked !!! r) c ->
     0 < Sparse.remaining (Sparse.debounce_counters e !!! i)
       <= fst (Sparse.get_elapsed e now) /\
     Sparse.remaining (Sparse.debounce_counters e' !!! i) = 0 /\
     row_bit (cooked' !!! r) c = row_bit (raw !!! r) c) /\
  (forall e raw_ptr,
     length (Fancy.key_states e) = (num_rows * MATRIX_COLS)%nat ->
     let out := Fancy.debounce e now raw_ptr raw cooked num_rows changed in
     row_bit (snd out !!! r) c <> row_bit (cooked !!! r) c ->
     Fancy.state (Fancy.key_states e !!! i) = Fancy.DEBOUNCING /\
     Fancy.remaining (Fancy.key_states e !!! i) <= fst (Fancy.get_elapsed e now) /\
     Fancy.state (Fancy.key_states (fst out) !!! i) = Fancy.QUIESCING /\
     row_bit (snd out !!! r) c = row_bit (raw !!! r) c).
Proof.
  intros Hcfg Hlc Hr Hc i.
  assert (Hw : (MATRIX_COLS <= ROW_BITS)%nat) by (destruct Hcfg as [[? ?] ?]; assumption).
  split; [|split].
  - intros e Hre out Hflip.
    destruct (Asym.asym_reached_counts num_rows e Hcfg Hre) as [Hag Hok].
    destruct (Asym.asym_debounce_key e now raw cooked num_rows changed r c
                Hcfg Hag Hlc Hr Hc) as (H1 & H2 & _).
    fold out i in H1, H2. unfold Asym.key_at, Asym.key_step in H1, H2. fold i in H1, H2.
    pose proof (Hok i) as Hrange.
    destruct (changed && xorb (row_bit (raw !!! r) c) (row_bit (cooked !!! r) c)) eqn:Harm;
      [simpl in H2; congruence|].
    destruct (Z.gtb_spec (Asym.count (Asym.state e !!! i)) (Asym.elapsed_of e now));
      [simpl in H2; congruence|].
    unfold nonzero in H1, H2.
    destruct (Z.eqb_spec (Asym.count (Asym.state e !!! i)) 0);
      simpl in H1, H2; [congruence|].
    split; [|split; [lia | split; assumption]].
    destruct changed; [|reflexivity]. simpl in Harm.
    rewrite H2 in Hflip. destruct (row_bit (raw !!! r) c), (row_bit (cooked !!! r) c);
      simpl in Harm; congruence.
  - intros e e' cooked' Hn Hre Hrun Hflip.
    pose proof (Sparse.sparse_reached_ok num_rows e Hcfg Hn Hre) as Hok.
    destruct (Sparse.sparse_debounce_spec e now raw cooked num_rows changed Hcfg Hok Hlc)
      as (e2 & cooked2 & Hrun2 & _ & _ & Hkeys).
    rewrite Hrun in Hrun2. injection Hrun2 as <- <-.
    destruct (Hkeys r c Hr Hc) as [H1 H2]. fold i in H1, H2.
    unfold Sparse.key_step, Sparse.settle_key in H1, H2.
    assert (Hrange : 0 <= Sparse.remaining (Sparse.debounce_counters e !!! i) <= 255)
      by (destruct Hok as (_ & _ & Hb & _); apply Hb).
    destruct (Z.eqb_spec (Sparse.remaining (Sparse.debounce_counters e !!! i)) 0);
      [simpl in H2; congruence|].
    destruct (Z.gtb_spec (Sparse.remaining (Sparse.debounce_counters e !!! i))
                         (fst (Sparse.get_elapsed e now)));
      [simpl in H2; congruence|].
    simpl in H1, H2. rewrite xorb_nilpotent in H1. unfold Sparse.arm_key in H1.
    split; [lia|]. split; [now destruct changed | assumption].
  - intros e raw_ptr Hlen out Hflip.
    destruct (Fancy.fancy_debounce_key e now raw_ptr raw cooked num_rows changed r c
                Hw Hlen Hlc Hr Hc) as (H1 & H2 & _).
    fold out i in H1, H2. unfold Fancy.key_at, Fancy.key_step in H1, H2. fold i in H1, H2.
    destruct (Fancy.state (Fancy.key_states e !!! i)) eqn:Hst.
    + destruct (xorb _ _) in H1, H2; simpl in H2; rewrite xorb_false_r in H2; congruence.
    + destruct (xorb (row_bit (cooked !!! r) c) (row_bit (raw !!! r) c)) eqn:Hmis;
        [|simpl in H2; rewrite xorb_false_r in H2; congruence].
      destruct (Z.gtb_spec (Fancy.remaining (Fancy.key_states e !!! i))
                           (fst (Fancy.get_elapsed e now)));
        [simpl in H2; rewrite xorb_false_r in H2; congruence|].
      simpl in H1, H2. rewrite H1. simpl.
      split; [reflexivity|]. split; [assumption|]. split; [reflexivity|].
      rewrite H2. destruct (row_bit (cooked !!! r) c), (row_bit (raw !!! r) c);
        simpl in Hmis |- *; congruence.
    + destruct (_ >? _) in H1, H2; simpl in H2; rewrite xorb_false_r in H2; congruence.
Qed.

(** The theorem at work: the call that shows key (0, 1) of the
    asymmetric engine pressed is unflagged and finds its count
    expired. *)
Lemma cooked_changes_only_at_expiry_witness :
  let out := @Asym.debounce asym_default asym_pressed 6 [2] [0] 1 false in
  0 < Asym.count (Asym.state asym_pressed !!! 1%nat) <= Asym.elapsed_of asym_pressed 6 /\
  Asym.count (Asym.state (fst out) !!! 1%nat) = 0.
Proof.
  destruct (@cooked_changes_only_at_expiry asym_default 1 O 1%nat [2] [0] 6 false
              asym_default_ok eq_refl ltac:(lia) ltac:(simpl; lia)) as [Hasym _].
  destruct (Hasym asym_pressed asym_pressed_reached ltac:(vm_compute; discriminate))
    as (_ & H1 & H2 & _).
  split; [exact H1 | exact H2].
Defined.

(** ** The links of the sparse list *)

(** X12.  Sparse strategy: in every state the engine reaches, the head
    of the list and the [next] field of every entry hold either
    [DEBOUNCE_NULL] or the index of a key of the matrix, and an entry
    with no time left has [DEBOUNCE_NULL] for its [next]: the walk of
    the list never leaves the array. *)
Theorem sparse_links_stay_in_bounds `{cfg : Config} num_rows e :
  config_ok ->
  (num_rows * MATRIX_COLS < 255)%nat ->
  Sparse.reached num_rows e ->
  Sparse.valid_link num_rows (Sparse.debounce_list_head e) /\
  (forall i, Sparse.valid_link num_rows (Sparse.next (Sparse.debounce_counters e !!! i))) /\
  (forall i, Sparse.remaining (Sparse.debounce_counters e !!! i) = 0 ->
             Sparse.next (Sparse.debounce_counters e !!! i) = Sparse.DEBOUNCE_NULL).
Proof.
  intros Hcfg Hn Hre.
  pose proof (Sparse.sparse_reached_idle num_rows e Hcfg Hn Hre) as Hidle.
  pose proof (Sparse.sparse_reached_ok num_rows e Hcfg Hn Hre) as Hok.
  destruct (Sparse.sparse_ok_links num_rows _ _ Hok Hidle) as [Hhead Hlinks].
  auto.
Qed.

(** The theorem at work: after the press of key (0, 1) the head holds
    the index of that key, and the idle entry 0 points nowhere. *)
Lemma sparse_links_stay_in_bounds_witness :
  @Sparse.valid_link sparse_default 1 (Sparse.debounce_list_head sparse_pressed) /\
  Sparse.next (Sparse.debounce_counters sparse_pressed !!! O) = Sparse.DEBOUNCE_NULL.
Proof.
  destruct (@sparse_links_stay_in_bounds sparse_default 1 sparse_pressed
              sparse_default_ok ltac:(simpl; lia) sparse_pressed_reached) as (H1 & _ & H3).
  split; [exact H1 | apply H3; reflexivity].
Defined.

(** ** The rows a call writes *)

(** X13.  A call of [debounce] with [num_rows] rows writes the first
    [num_rows] rows of the cooked matrix only: the matrix keeps its
    size and every further row, as a split keyboard needs for the rows
    of its other half. *)
Theorem debounce_writes_its_rows_only `{cfg : Config}
    num_rows (raw cooked : list Z) now changed :
  (forall e,
     let out := Asym.debounce e now raw cooked num_rows changed in
     length (snd out) = length cooked /\
     forall r, (num_rows <= r)%nat -> snd out !!! r = cooked !!! r) /\
  (forall e,
     config_ok ->
     (num_rows * MATRIX_COLS < 255)%nat ->
     Sparse.reached num_rows e ->
     exists e' cooked',
       Sparse.debounce e now raw cooked num_rows changed = Some (e', cooked') /\
       length cooked' = length cooked /\
       forall r, (num_rows <= r)%nat -> cooked' !!! r = cooked !!! r) /\
  (forall e raw_ptr,
     let out := Fancy.debounce e now raw_ptr raw cooked num_rows changed in
     length (snd out) = length cooked /\
     forall r, (num_rows <= r)%nat -> snd out !!! r = cooked !!! r).
Proof.
  split; [|split].
  - intros e out. unfold out, Asym.debounce.
    pose proof (Asym.asym_debounce_with_rows (Asym.elapsed_of e now) raw cooked num_rows
                  changed (Asym.state e) (Asym.row_counts e)) as H.
    destruct (Asym.debounce_with _ _ _ _ _ _ _) as [[st rc] cooked']. exact H.
  - intros e Hcfg Hn Hre.
    apply Sparse.sparse_debounce_rows; [assumption | |].
    + now apply Sparse.sparse_reached_ok.
    + now apply (Sparse.sparse_reached_idle num_rows).
  - intros e raw_ptr out. unfold out, Fancy.debounce.
    destruct (Fancy.get_elapsed e now) as [elapsed e1].
    pose proof (Fancy.fancy_debounce_with_rows elapsed raw_ptr raw cooked num_rows
                  (Fancy.key_states e1)) as H.
    cbv zeta in H.
    destruct (Fancy.debounce_with _ _ _ _ _ _) as [states cooked']. exact H.
Qed.

(** The theorem at work: the sparse engine of one row commits the
    press of key (0, 1) into row 0 and leaves row 1 of the matrix it
    is handed as it was. *)
Lemma debounce_writes_its_rows_only_witness :
  exists e' cooked',
    @Sparse.debounce sparse_default sparse_pressed 10 [2] [0; 7] 1 false = Some (e', cooked') /\
    cooked' !!! 1%nat = 7.
Proof.
  destruct (@debounce_writes_its_rows_only sparse_default 1 [2] [0; 7] 10 false)
    as (_ & Hsparse & _).
  destruct (Hsparse sparse_pressed sparse_default_ok ltac:(simpl; lia) sparse_pressed_reached)
    as (e' & cooked' & Hrun & _ & Hrows).
  exists e', cooked'. split; [exact Hrun|]. apply (Hrows 1%nat). lia.
Defined.

(** ** Freeing and initializing again *)

(** X14.  Sparse strategy: an engine that is freed and initialized
    again behaves as one initialized for the first time, whatever the
    freed engine was doing, whatever the new block holds and whatever
    time has passed: the sequences of calls give the same results,
    the first of them counting one unit. *)
Theorem sparse_free_then_init_is_fresh `{cfg : Config}
    num_rows e block block' old (cooked : list Z) cl calls :
  length block = (num_rows * MATRIX_COLS)%nat ->
  length block' = (num_rows * MATRIX_COLS)%nat ->
  let again := Sparse.debounce_init num_rows block (Sparse.debounce_free e) in
  let first := Sparse.debounce_init num_rows block' old in
  fst (Sparse.get_elapsed again (c_now cl)) = 1 /\
  Sparse.run num_rows again cooked (cl :: calls) =
  Sparse.run num_rows first cooked (cl :: calls).
Proof.
  intros H1 H2 again first. split.
  - unfold Sparse.get_elapsed, again. now rewrite Sparse.sparse_init_flags.
  - simpl. unfold again, first.
    now rewrite (Sparse.sparse_init_first_call num_rows block (Sparse.debounce_free e)
                   block' old (c_now cl) (c_raw cl) cooked (c_changed cl) H1 H2).
Qed.

(** The theorem at work: the engine that was debouncing key (0, 1),
    freed and initialized again long after, counts one unit at its
    first call. *)
Lemma sparse_free_then_init_is_fresh_witness :
  fst (@Sparse.get_elapsed sparse_default
         (@Sparse.debounce_init sparse_default 1
            (replicate 3 {| Sparse.remaining := 9; Sparse.next := 2 |})
            (Sparse.debounce_free sparse_pressed)) 5000) = 1.
Proof.
  apply (@sparse_free_then_init_is_fresh sparse_default 1 sparse_pressed
           (replicate 3 {| Sparse.remaining := 9; Sparse.next := 2 |})
           (replicate 3 {| Sparse.remaining := 0; Sparse.next := 255 |})
           sparse_blank [0]
           {| c_now := 5000; c_raw := [0]; c_changed := false |} [] eq_refl eq_refl).
Defined.

(** X15.  Quiescing strategy: [debounce_init] leaves the counter of
    every key as the block from [malloc] holds it, and no call ever
    reads it before it is written: an engine that is freed and
    initialized again on any block reports the same cooked matrices
    as one initialized for the first time on any other block. *)
Theorem fancy_free_then_init_is_fresh `{cfg : Config}
    raw_ptr num_rows e block block' old (cooked : list Z) calls :
  length block = (num_rows * MATRIX_COLS)%nat ->
  length block' = (num_rows * MATRIX_COLS)%nat ->
  let again := Fancy.debounce_init num_rows block (Fancy.debounce_free e) in
  let first := Fancy.debounce_init num_rows block' old in
  snd (Fancy.run raw_ptr num_rows again cooked calls) =
  snd (Fancy.run raw_ptr num_rows first cooked calls).
Proof.
  intros H1 H2 again first.
  apply (Fancy.fancy_run_sim raw_ptr num_rows calls again first cooked).
  now apply Fancy.fancy_init_sim.
Qed.

(** The theorem at work: two blocks with different leftovers give the
    same report of a press of key (0, 1). *)
Lemma fancy_free_then_init_is_fresh_witness :
  snd (@Fancy.run fancy_default 8192 1
         (@Fancy.debounce_init fancy_default 1
            (replicate 3 {| Fancy.state := Fancy.QUIESCING; Fancy.remaining := 200 |})
            (Fancy.debounce_free fancy_settling))
         [0] [scan 0 2; scan 5 2]) =
  snd (@Fancy.run fancy_default 8192 1 fancy_fresh [0] [scan 0 2; scan 5 2]).
Proof.
  apply (@fancy_free_then_init_is_fresh fancy_default 8192 1 fancy_settling
           (replicate 3 {| Fancy.state := Fancy.QUIESCING; Fancy.remaining := 200 |})
           (replicate 3 {| Fancy.state := Fancy.DEBOUNCING; Fancy.remaining := 77 |})
           fancy_blank [0] [scan 0 2; scan 5 2] eq_refl eq_refl).
Defined.

(** ** The clock of [get_time] *)

(** X16.  Quiescing strategy: the first call of [debounce] after
    [debounce_init] records its clock reading in [first_time], and no
    later call changes it: [get_time] reports the clock relative to
    that first call, modulo the width of the timer. *)
Theorem fancy_get_time_counts_from_first_call `{cfg : Config}
    raw_ptr num_rows block old (cooked : list Z) cl calls now :
  let e := fst (Fancy.run raw_ptr num_rows (Fancy.debounce_init num_rows block old) cooked
                  (cl :: calls)) in
  Fancy.first_time e = c_now cl /\
  Fancy.get_time e now = (now - c_now cl) mod 2 ^ Z.of_nat TIMER_BITS.
Proof.
  intros e.
  assert (H : Fancy.first_time e = c_now cl).
  { unfold e. simpl.
    pose proof (Fancy.fancy_debounce_first_time (Fancy.debounce_init num_rows block old)
                  (c_now cl) raw_ptr (c_raw cl) cooked num_rows (c_changed cl)) as H.
    cbv zeta in H. rewrite Fancy.fancy_init_flags in H.
    destruct (Fancy.debounce _ _ _ _ _ _ _) as [e' cooked']. simpl in H.
    destruct H as [Hinit Hft].
    now rewrite Fancy.fancy_run_first_time by assumption. }
  split; [exact H|]. unfold Fancy.get_time. now rewrite H.
Qed.

(** ** A held key on the clock *)

(** The calls of a scan loop that sees the same raw matrix at each
    scan and flags no change; the scan after a gap [g] reads the clock
    [g] later, in the width of the timer. *)
Fixpoint steady_scans `{Config} (t : Z) (raw : list Z) (gaps : list Z) : list call :=
  match gaps with
  | [] => []
  | g :: gaps' =>
      {| c_now := (t + g) mod 2 ^ Z.of_nat TIMER_BITS; c_raw := raw; c_changed := false |}
      :: steady_scans (t + g) raw gaps'
  end.

(** The same calls seen after their clock accounting, when no gap is
    clamped. *)
Definition steady_frames (raw : list Z) (gaps : list Z) : list frame :=
  map (fun g => {| f_elapsed := g; f_raw := raw; f_changed := false |}) gaps.

(** The time a sequence of gaps spans. *)
Definition span (gaps : list Z) : Z := foldr Z.add 0 gaps.

(** A gap the byte-wide delta can hold. *)
Definition short_gap (g : Z) : Prop := 0 <= g <= 255.

Lemma steady_frames_total raw gaps : total_elapsed (steady_frames raw gaps) = span gaps.
Proof. induction gaps as [|g gaps IH]; simpl; [reflexivity|]. now rewrite IH. Qed.

Lemma steady_frames_quiet r c raw gaps :
  Forall short_gap gaps ->
  Forall (quiet r c (row_bit (raw !!! r) c)) (steady_frames raw gaps).
Proof.
  intros H. apply Forall_map. eapply Forall_impl; [exact H|].
  intros g [Hg _]. repeat split. exact Hg.
Qed.

Lemma steady_frames_away r c b raw gaps :
  row_bit (raw !!! r) c = negb b ->
  Forall short_gap gaps ->
  Forall (away r c b) (steady_frames raw gaps).
Proof.
  intros Hraw H. apply Forall_map. eapply Forall_impl; [exact H|].
  intros g [Hg _]. split; [exact Hraw | exact Hg].
Qed.

(** The delta of a scan that follows the previous one by a short gap
    is the gap, also across a wrap of the clock. *)
Lemma short_gap_delta `{cfg : Config} (t g : Z) :
  (8 <= TIMER_BITS)%nat ->
  short_gap g ->
  let d := timer_diff TIMER_BITS ((t + g) mod 2 ^ Z.of_nat TIMER_BITS)
             (t mod 2 ^ Z.of_nat TIMER_BITS) in
  uint8 (if d >? 255 then 255 else d) = g.
Proof.
  intros Hbits [Hg0 Hg1] d.
  assert (Hpow : 256 <= 2 ^ Z.of_nat TIMER_BITS).
  { change 256 with (2 ^ 8). apply Z.pow_le_mono_r; lia. }
  assert (Hd : d = g).
  { unfold d. replace g with ((t + g) - t) at 2 by lia. apply timer_diff_wraps. lia. }
  rewrite Hd, clamp_min by lia. lia.
Qed.

Lemma sparse_debounce_clock `{cfg : Config} e now raw cooked num_rows changed e' cooked' :
  Sparse.debounce e now raw cooked num_rows changed = Some (e', cooked') ->
  Sparse.last_time_initialized e' = true /\ Sparse.last_time e' = now.
Proof.
  unfold Sparse.debounce, Sparse.get_elapsed.
  destruct (negb (Sparse.last_time_initialized e));
    destruct (Sparse.debounce_with _ _ _ _ _ _ _) as [[[cs head] ck]|];
    intros H; try discriminate; injection H as <- <-; auto.
Qed.

(** On steady scans with short gaps [debounce] applies the gaps. *)
Lemma sparse_run_steady `{cfg : Config} num_rows raw gaps :
  (8 <= TIMER_BITS)%nat ->
  Forall short_gap gaps ->
  forall t e cooked,
    Sparse.last_time_initialized e = true ->
    Sparse.last_time e = t mod 2 ^ Z.of_nat TIMER_BITS ->
    option_map snd (Sparse.run num_rows e cooked (steady_scans t raw gaps)) =
    option_map (final_cooked cooked)
      (Sparse.cooked_trace num_rows (Sparse.debounce_counters e) (Sparse.debounce_list_head e)
         cooked (steady_frames raw gaps)).
Proof.
  intros Hbits Hall. induction Hall as [|g gaps Hg Hall IH]; intros t e cooked Hinit Hlast;
    simpl; [reflexivity|].
  destruct (Sparse.debounce e ((t + g) mod 2 ^ Z.of_nat TIMER_BITS) raw cooked num_rows false)
    as [[e' cooked']|] eqn:Hd.
  - destruct (sparse_debounce_clock _ _ _ _ _ _ _ _ Hd) as [Hinit' Hlast'].
    rewrite (IH (t + g) e' cooked' Hinit' Hlast').
    unfold Sparse.debounce, Sparse.get_elapsed in Hd. rewrite Hinit, Hlast in Hd.
    simpl in Hd. rewrite (short_gap_delta t g Hbits Hg) in Hd.
    destruct (Sparse.debounce_with g raw cooked num_rows false _ _) as [[[cs head] ck]|];
      [|discriminate].
    injection Hd as <- <-. simpl.
    destruct (Sparse.cooked_trace num_rows cs head ck (steady_frames raw gaps)) as [tr|];
      simpl; [|reflexivity].
    now rewrite final_cooked_cons.
  - unfold Sparse.debounce, Sparse.get_elapsed in Hd. rewrite Hinit, Hlast in Hd.
    simpl in Hd. rewrite (short_gap_delta t g Hbits Hg) in Hd.
    destruct (Sparse.debounce_with g raw cooked num_rows false _ _) as [[[cs head] ck]|];
      [discriminate|]. reflexivity.
Qed.

(** X17.  Sparse strategy, on the clock: a settled key whose change
    is seen by a flagged scan at time [t] and held through unflagged
    scans that follow one another by at most 255 units is reported by
    the first scan that comes a full window after [t], and by no
    earlier one, also when the clock wraps in between. *)
Theorem sparse_held_key_on_the_clock `{cfg : Config}
    num_rows r c b e t (raw cooked : list Z) gaps :
  config_ok ->
  (8 <= TIMER_BITS)%nat ->
  (num_rows * MATRIX_COLS < 255)%nat ->
  (r < num_rows)%nat -> (c < MATRIX_COLS)%nat ->
  Sparse.reached num_rows e ->
  length cooked = num_rows ->
  Sparse.remaining (Sparse.debounce_counters e !!! (r * MATRIX_COLS + c)%nat) = 0 ->
  row_bit (cooked !!! r) c = b ->
  row_bit (raw !!! r) c = negb b ->
  Forall short_gap gaps ->
  exists e' cooked',
    Sparse.run num_rows e cooked
      ({| c_now := t mod 2 ^ Z.of_nat TIMER_BITS; c_raw := raw; c_changed := true |}
       :: steady_scans t raw gaps) = Some (e', cooked') /\
    row_bit (cooked' !!! r) c = if window_from b <=? span gaps then negb b else b.
Proof.
  intros Hcfg Hbits Hn Hr Hc Hre Hlc Hrem Hb Hraw Hall.
  pose proof (Sparse.sparse_reached_ok num_rows e Hcfg Hn Hre) as Hok.
  destruct (Sparse.sparse_debounce_spec e (t mod 2 ^ Z.of_nat TIMER_BITS) raw cooked num_rows
              true Hcfg Hok Hlc) as (e1 & cooked1 & Hrun & Hok1 & Hlc1 & Hkeys).
  destruct (Hkeys r c Hr Hc) as [H1 H2].
  destruct (sparse_debounce_clock _ _ _ _ _ _ _ _ Hrun) as [Hinit1 Hlast1].
  pose proof (sparse_run_steady num_rows raw gaps Hbits Hall t e1 cooked1 Hinit1 Hlast1)
    as Hsteady.
  destruct (sparse_countdown num_rows r c (row_bit (raw !!! r) c) (steady_frames raw gaps)
              Hcfg Hr Hc (steady_frames_quiet r c raw gaps Hall)
              (Sparse.debounce_counters e1) (Sparse.debounce_list_head e1) cooked1 Hok1 Hlc1)
    as (trace & Htr & Hfin).
  rewrite Htr in Hsteady. simpl in Hsteady.
  cbn [Sparse.run c_now c_raw c_changed]. rewrite Hrun.
  destruct (Sparse.run num_rows e1 cooked1 (steady_scans t raw gaps)) as [[e' cooked']|];
    [|discriminate].
  simpl in Hsteady. injection Hsteady as ->.
  exists e', (final_cooked cooked1 trace). split; [reflexivity|].
  rewrite Hfin, steady_frames_total, H1, H2.
  unfold Sparse.key_step, Sparse.settle_key, Sparse.arm_key.
  rewrite Hrem, Hraw, Hb. simpl.
  replace (xorb b (negb b)) with true by (now destruct b). simpl.
  assert (HW : 0 < window_from b <= 255).
  { unfold window_from. destruct Hcfg as (_ & ? & ? & _). destruct b; simpl; lia. }
  fold (window_from b). rewrite uint8_small by lia.
  destruct (Z.ltb_spec 0 (window_from b)); [|lia]. reflexivity.
Qed.

(** The theorem at work: key (0, 1) pressed at clock 65534 of a 16-bit
    timer and held is shown pressed by the scan at clock 3, five units
    later. *)
Lemma sparse_held_key_on_the_clock_witness :
  exists e' cooked',
    @Sparse.run sparse_default 1 sparse_fresh [0]
      [ {| c_now := 65534; c_raw := [2]; c_changed := true |};
        {| c_now := 0; c_raw := [2]; c_changed := false |};
        {| c_now := 3; c_raw := [2]; c_changed := false |} ] = Some (e', cooked') /\
    row_bit (cooked' !!! O) 1 = true.
Proof.
  apply (@sparse_held_key_on_the_clock sparse_default 1 O 1%nat false sparse_fresh
           65534 [2] [0] [2; 3]
           sparse_default_ok ltac:(simpl; lia) ltac:(simpl; lia) ltac:(lia) ltac:(simpl; lia)
           sparse_fresh_reached eq_refl eq_refl eq_refl eq_refl
           ltac:(repeat constructor; simpl; lia)).
Defined.

Lemma fancy_debounce_clock `{cfg : Config} e now raw_ptr raw cooked num_rows changed :
  let e' := fst (Fancy.debounce e now raw_ptr raw cooked num_rows changed) in
  Fancy.last_time_initialized e' = true /\ Fancy.last_time e' = now.
Proof.
  unfold Fancy.debounce, Fancy.get_elapsed.
  destruct (negb (Fancy.last_time_initialized e));
    destruct (Fancy.debounce_with _ _ _ _ _ _); simpl; auto.
Qed.

Lemma fancy_run_steady `{cfg : Config} raw_ptr num_rows raw gaps :
  (8 <= TIMER_BITS)%nat ->
  Forall short_gap gaps ->
  forall t e cooked,
    Fancy.last_time_initialized e = true ->
    Fancy.last_time e = t mod 2 ^ Z.of_nat TIMER_BITS ->
    snd (Fancy.run raw_ptr num_rows e cooked (steady_scans t raw gaps)) =
    final_cooked cooked
      (Fancy.cooked_trace raw_ptr num_rows (Fancy.key_states e) cooked (steady_frames raw gaps)).
Proof.
  intros Hbits Hall. induction Hall as [|g gaps Hg Hall IH]; intros t e cooked Hinit Hlast;
    simpl; [reflexivity|].
  pose proof (fancy_debounce_clock e ((t + g) mod 2 ^ Z.of_nat TIMER_BITS) raw_ptr raw cooked
                num_rows false) as Hclock.
  cbv zeta in Hclock.
  destruct (Fancy.debounce e ((t + g) mod 2 ^ Z.of_nat TIMER_BITS) raw_ptr raw cooked
              num_rows false) as [e' cooked'] eqn:Hd.
  simpl in Hclock. destruct Hclock as [Hinit' Hlast'].
  rewrite (IH (t + g) e' cooked' Hinit' Hlast').
  unfold Fancy.debounce, Fancy.get_elapsed in Hd. rewrite Hinit, Hlast in Hd.
  simpl in Hd. rewrite (short_gap_delta t g Hbits Hg) in Hd.
  destruct (Fancy.debounce_with g raw_ptr raw cooked num_rows (Fancy.key_states e))
    as [states ck].
  injection Hd as <- <-. simpl. now rewrite final_cooked_cons.
Qed.

(** X18.  Quiescing strategy, on the clock: a WAITING key whose raw
    bit moves away from its cooked bit at the scan of time [t] and
    stays there through scans that follow one another by at most 255
    units is reported by the first scan that comes a full window after
    [t], and by no earlier one, also when the clock wraps in between;
    the window is the one the pointer [raw] picks. *)
Theorem fancy_held_key_on_the_clock `{cfg : Config}
    raw_ptr num_rows r c b e t (raw cooked : list Z) changed gaps :
  config_ok ->
  (8 <= TIMER_BITS)%nat ->
  (r < num_rows)%nat -> (c < MATRIX_COLS)%nat ->
  length (Fancy.key_states e) = (num_rows * MATRIX_COLS)%nat ->
  length cooked = num_rows ->
  Fancy.state (Fancy.key_states e !!! (r * MATRIX_COLS + c)%nat) = Fancy.WAITING ->
  row_bit (cooked !!! r) c = b ->
  row_bit (raw !!! r) c = negb b ->
  Forall short_gap gaps ->
  let window := if row_bit raw_ptr c then DEBOUNCE_DOWN else DEBOUNCE_UP in
  let out := Fancy.run raw_ptr num_rows e cooked
               ({| c_now := t mod 2 ^ Z.of_nat TIMER_BITS; c_raw := raw; c_changed := changed |}
                :: steady_scans t raw gaps) in
  row_bit (snd out !!! r) c = if window <=? span gaps then negb b else b.
Proof.
  intros Hcfg Hbits Hr Hc Hlen Hlc Hst Hb Hraw Hall window out.
  assert (Hw : (MATRIX_COLS <= ROW_BITS)%nat) by (destruct Hcfg as [[? ?] ?]; assumption).
  unfold out. cbn [Fancy.run c_now c_raw c_changed].
  pose proof (Fancy.fancy_debounce_key e (t mod 2 ^ Z.of_nat TIMER_BITS) raw_ptr raw cooked
                num_rows changed r c Hw Hlen Hlc Hr Hc) as Hkey.
  pose proof (fancy_debounce_clock e (t mod 2 ^ Z.of_nat TIMER_BITS) raw_ptr raw cooked
                num_rows changed) as Hclock.
  cbv zeta in Hkey, Hclock.
  destruct (Fancy.debounce e (t mod 2 ^ Z.of_nat TIMER_BITS) raw_ptr raw cooked num_rows changed)
    as [e1 cooked1].
  simpl in Hkey, Hclock. destruct Hkey as (H1 & H2 & Hl1 & Hl2).
  destruct Hclock as [Hinit1 Hlast1].
  rewrite (fancy_run_steady raw_ptr num_rows raw gaps Hbits Hall t e1 cooked1 Hinit1 Hlast1).
  unfold Fancy.key_at, Fancy.key_step in H1, H2.
  rewrite Hst, Hraw, Hb in H1, H2.
  replace (xorb b (negb b)) with true in H1, H2 by (now destruct b).
  simpl in H1, H2. rewrite xorb_false_r in H2.
  assert (HW : 0 < window <= 255).
  { unfold window. destruct Hcfg as (_ & ? & ? & _). destruct (row_bit raw_ptr c); lia. }
  fold window in H1. rewrite uint8_small in H1 by lia.
  rewrite (fancy_countdown raw_ptr num_rows r c b (steady_frames raw gaps) Hcfg Hr Hc
             (steady_frames_away r c b raw gaps Hraw Hall) (Fancy.key_states e1) cooked1
             ltac:(congruence) ltac:(congruence) H2);
    rewrite H1; simpl; [| reflexivity | lia].
  now rewrite steady_frames_total.
Qed.

(** The theorem at work on the file's defaults: key (0, 1) pressed at
    clock 100 and held is not yet shown pressed by the scan at clock
    104. *)
Lemma fancy_held_key_on_the_clock_witness :
  row_bit (snd (@Fancy.run fancy_default 8192 1 fancy_fresh [0]
                  [ {| c_now := 100; c_raw := [2]; c_changed := true |};
                    {| c_now := 102; c_raw := [2]; c_changed := false |};
                    {| c_now := 104; c_raw := [2]; c_changed := false |} ]) !!! O) 1 = false.
Proof.
  apply (@fancy_held_key_on_the_clock fancy_default 8192 1 O 1%nat false fancy_fresh
           100 [2] [0] true [2; 2]
           fancy_default_ok ltac:(simpl; lia) ltac:(lia) ltac:(simpl; lia)
           eq_refl eq_refl eq_refl eq_refl eq_refl
           ltac:(repeat constructor; simpl; lia)).
Defined.

(** ** Keys do not talk to one another *)

(** Two calls that cannot be told apart at key [(r, c)]: the same
    delta, the same flag, the same raw bit of the key. *)
Definition same_at (r c : nat) (f1 f2 : frame) : Prop :=
  f_elapsed f1 = f_elapsed f2 /\
  f_changed f1 = f_changed f2 /\
  row_bit (f_raw f1 !!! r) c = row_bit (f_raw f2 !!! r) c /\
  0 <= f_elapsed f1.

(** Two traces that show the same at key [(r, c)]. *)
Definition same_bit (r c : nat) (trace1 trace2 : list (list Z)) : Prop :=
  Forall2 (fun cooked1 cooked2 => row_bit (cooked1 !!! r) c = row_bit (cooked2 !!! r) c)
          trace1 trace2.

Lemma asym_same_at `{cfg : Config} num_rows r c frames1 frames2 :
  config_ok ->
  (r < num_rows)%nat -> (c < MATRIX_COLS)%nat ->
  Forall2 (same_at r c) frames1 frames2 ->
  forall st1 rc1 st2 rc2 (cooked1 cooked2 : list Z),
    Asym.counts_agree num_rows st1 rc1 -> Asym.state_ok st1 ->
    Asym.counts_agree num_rows st2 rc2 -> Asym.state_ok st2 ->
    length cooked1 = num_rows -> length cooked2 = num_rows ->
    Asym.count (st1 !!! (r * MATRIX_COLS + c)%nat) =
      Asym.count (st2 !!! (r * MATRIX_COLS + c)%nat) ->
    row_bit (cooked1 !!! r) c = row_bit (cooked2 !!! r) c ->
    same_bit r c (Asym.cooked_trace num_rows st1 rc1 cooked1 frames1)
                 (Asym.cooked_trace num_rows st2 rc2 cooked2 frames2).
Proof.
  intros Hcfg Hr Hc Hall.
  assert (Hw : (MATRIX_COLS <= ROW_BITS)%nat) by (destruct Hcfg as [[? ?] ?]; assumption).
  induction Hall as [|f1 f2 frames1 frames2 (Hel & Hch & Hraw & He) Hall IH];
    intros st1 rc1 st2 rc2 cooked1 cooked2 Hag1 Hok1 Hag2 Hok2 Hlc1 Hlc2 Hcnt Hbit;
    simpl; [constructor|].
  pose proof (Asym.asym_debounce_with_key_exact (f_elapsed f1) (f_raw f1) cooked1 num_rows
                (f_changed f1) st1 rc1 r c Hcfg He Hag1 Hlc1 Hr Hc) as Hk1.
  pose proof (Asym.asym_debounce_with_counts (f_elapsed f1) (f_raw f1) cooked1 num_rows
                (f_changed f1) st1 rc1 Hcfg He Hag1 Hok1) as Hi1.
  pose proof (Asym.asym_debounce_with_key (f_elapsed f1) (f_raw f1) cooked1 num_rows
                (f_changed f1) st1 rc1 r c Hw ltac:(destruct Hag1; assumption) Hlc1 Hr Hc)
    as Hn1.
  pose proof (Asym.asym_debounce_with_key_exact (f_elapsed f2) (f_raw f2) cooked2 num_rows
                (f_changed f2) st2 rc2 r c Hcfg ltac:(lia) Hag2 Hlc2 Hr Hc) as Hk2.
  pose proof (Asym.asym_debounce_with_counts (f_elapsed f2) (f_raw f2) cooked2 num_rows
                (f_changed f2) st2 rc2 Hcfg ltac:(lia) Hag2 Hok2) as Hi2.
  pose proof (Asym.asym_debounce_with_key (f_elapsed f2) (f_raw f2) cooked2 num_rows
                (f_changed f2) st2 rc2 r c Hw ltac:(destruct Hag2; assumption) Hlc2 Hr Hc)
    as Hn2.
  cbv zeta in Hk1, Hk2, Hn1, Hn2.
  destruct (Asym.debounce_with _ _ cooked1 _ _ _ _) as [[st1' rc1'] cooked1'].
  destruct (Asym.debounce_with _ _ cooked2 _ _ _ _) as [[st2' rc2'] cooked2'].
  destruct Hk1 as [Ha1 Hb1]. destruct Hk2 as [Ha2 Hb2].
  destruct Hi1 as [Hag1' Hok1']. destruct Hi2 as [Hag2' Hok2'].
  destruct Hn1 as (_ & _ & _ & _ & Hlc1'). destruct Hn2 as (_ & _ & _ & _ & Hlc2').
  unfold Asym.key_at in Ha1, Hb1, Ha2, Hb2.
  rewrite <- Hel, <- Hch, <- Hraw, <- Hbit, <- Hcnt in Ha2, Hb2.
  assert (Hbit' : row_bit (cooked1' !!! r) c = row_bit (cooked2' !!! r) c).
  { rewrite Hb1, Hb2. now destruct (snd _). }
  constructor; [exact Hbit'|].
  apply IH; try assumption; congruence.
Qed.

Lemma sparse_same_at `{cfg : Config} num_rows r c frames1 frames2 :
  config_ok ->
  (r < num_rows)%nat -> (c < MATRIX_COLS)%nat ->
  Forall2 (same_at r c) frames1 frames2 ->
  forall cs1 head1 cs2 head2 (cooked1 cooked2 : list Z),
    Sparse.engine_ok num_rows cs1 head1 ->
    Sparse.engine_ok num_rows cs2 head2 ->
    length cooked1 = num_rows -> length cooked2 = num_rows ->
    Sparse.remaining (cs1 !!! (r * MATRIX_COLS + c)%nat) =
      Sparse.remaining (cs2 !!! (r * MATRIX_COLS + c)%nat) ->
    row_bit (cooked1 !!! r) c = row_bit (cooked2 !!! r) c ->
    exists trace1 trace2,
      Sparse.cooked_trace num_rows cs1 head1 cooked1 frames1 = Some trace1 /\
      Sparse.cooked_trace num_rows cs2 head2 cooked2 frames2 = Some trace2 /\
      same_bit r c trace1 trace2.
Proof.
  intros Hcfg Hr Hc Hall.
  induction Hall as [|f1 f2 frames1 frames2 (Hel & Hch & Hraw & He) Hall IH];
    intros cs1 head1 cs2 head2 cooked1 cooked2 Hok1 Hok2 Hlc1 Hlc2 Hrem Hbit.
  { exists [], []. repeat split; constructor. }
  destruct (Sparse.sparse_debounce_with_spec (f_elapsed f1) (f_raw f1) cooked1 num_rows
              (f_changed f1) cs1 head1 Hcfg He Hok1 Hlc1)
    as (cs1' & head1' & cooked1' & Hrun1 & Hok1' & Hlc1' & Hkeys1).
  destruct (Sparse.sparse_debounce_with_spec (f_elapsed f2) (f_raw f2) cooked2 num_rows
              (f_changed f2) cs2 head2 Hcfg ltac:(lia) Hok2 Hlc2)
    as (cs2' & head2' & cooked2' & Hrun2 & Hok2' & Hlc2' & Hkeys2).
  destruct (Hkeys1 r c Hr Hc) as [Ha1 Hb1]. destruct (Hkeys2 r c Hr Hc) as [Ha2 Hb2].
  rewrite <- Hel, <- Hch, <- Hraw, <- Hbit, <- Hrem in Ha2, Hb2.
  destruct (IH cs1' head1' cs2' head2' cooked1' cooked2' Hok1' Hok2' Hlc1' Hlc2'
              ltac:(congruence) ltac:(congruence)) as (trace1 & trace2 & Ht1 & Ht2 & Hsame).
  exists (cooked1' :: trace1), (cooked2' :: trace2). split; [|split].
  - simpl. now rewrite Hrun1, Ht1.
  - simpl. now rewrite Hrun2, Ht2.
  - constructor; [congruence | exact Hsame].
Qed.

Lemma fancy_same_at `{cfg : Config} raw_ptr num_rows r c frames1 frames2 :
  (MATRIX_COLS <= ROW_BITS)%nat ->
  (r < num_rows)%nat -> (c < MATRIX_COLS)%nat ->
  Forall2 (same_at r c) frames1 frames2 ->
  forall states1 states2 (cooked1 cooked2 : list Z),
    length states1 = (num_rows * MATRIX_COLS)%nat ->
    length states2 = (num_rows * MATRIX_COLS)%nat ->
    length cooked1 = num_rows -> length cooked2 = num_rows ->
    states1 !!! (r * MATRIX_COLS + c)%nat = states2 !!! (r * MATRIX_COLS + c)%nat ->
    row_bit (cooked1 !!! r) c = row_bit (cooked2 !!! r) c ->
    same_bit r c (Fancy.cooked_trace raw_ptr num_rows states1 cooked1 frames1)
                 (Fancy.cooked_trace raw_ptr num_rows states2 cooked2 frames2).
Proof.
  intros Hw Hr Hc Hall.
  induction Hall as [|f1 f2 frames1 frames2 (Hel & Hch & Hraw & He) Hall IH];
    intros states1 states2 cooked1 cooked2 Hl1 Hl2 Hlc1 Hlc2 Hkey Hbit; simpl; [constructor|].
  pose proof (Fancy.fancy_debounce_with_key (f_elapsed f1) raw_ptr (f_raw f1) cooked1 num_rows
                states1 r c Hw Hl1 Hlc1 Hr Hc) as H1.
  pose proof (Fancy.fancy_debounce_with_key (f_elapsed f2) raw_ptr (f_raw f2) cooked2 num_rows
                states2 r c Hw Hl2 Hlc2 Hr Hc) as H2.
  cbv zeta in H1, H2.
  destruct (Fancy.debounce_with _ _ _ cooked1 _ _) as [states1' cooked1'].
  destruct (Fancy.debounce_with _ _ _ cooked2 _ _) as [states2' cooked2'].
  destruct H1 as (Ha1 & Hb1 & Hl1' & Hlc1'). destruct H2 as (Ha2 & Hb2 & Hl2' & Hlc2').
  simpl in *. unfold Fancy.key_at in Ha1, Hb1, Ha2, Hb2.
  rewrite <- Hel, <- Hraw, <- Hbit, <- Hkey in Ha2, Hb2.
  constructor; [congruence|].
  apply IH; congruence.
Qed.

(** X19.  The cooked bit of a key depends on the raw bits of that key
    alone: two sequences of calls with the same deltas and flags that
    show the same raw bit at the key give the same cooked bit at the
    key after every call, whatever the other keys do in either
    sequence and whatever state they start from. *)
Theorem key_output_depends_on_own_input `{cfg : Config}
    num_rows r c frames1 frames2 (cooked1 cooked2 : list Z) :
  config_ok ->
  (r < num_rows)%nat -> (c < MATRIX_COLS)%nat ->
  length cooked1 = num_rows -> length cooked2 = num_rows ->
  row_bit (cooked1 !!! r) c = row_bit (cooked2 !!! r) c ->
  Forall2 (same_at r c) frames1 frames2 ->
  let i := (r * MATRIX_COLS + c)%nat in
  (forall e1 e2,
     Asym.reached num_rows e1 -> Asym.reached num_rows e2 ->
     Asym.count (Asym.state e1 !!! i) = Asym.count (Asym.state e2 !!! i) ->
     same_bit r c
       (Asym.cooked_trace num_rows (Asym.state e1) (Asym.row_counts e1) cooked1 frames1)
       (Asym.cooked_trace num_rows (Asym.state e2) (Asym.row_counts e2) cooked2 frames2)) /\
  (forall e1 e2,
     (num_rows * MATRIX_COLS < 255)%nat ->
     Sparse.reached num_rows e1 -> Sparse.reached num_rows e2 ->
     Sparse.remaining (Sparse.debounce_counters e1 !!! i) =
       Sparse.remaining (Sparse.debounce_counters e2 !!! i) ->
     exists trace1 trace2,
       Sparse.cooked_trace num_rows (Sparse.debounce_counters e1)
         (Sparse.debounce_list_head e1) cooked1 frames1 = Some trace1 /\
       Sparse.cooked_trace num_rows (Sparse.debounce_counters e2)
         (Sparse.debounce_list_head e2) cooked2 frames2 = Some trace2 /\
       same_bit r c trace1 trace2) /\
  (forall raw_ptr states1 states2,
     length states1 = (num_rows * MATRIX_COLS)%nat ->
     length states2 = (num_rows * MATRIX_COLS)%nat ->
     states1 !!! i = states2 !!! i ->
     same_bit r c (Fancy.cooked_trace raw_ptr num_rows states1 cooked1 frames1)
                  (Fancy.cooked_trace raw_ptr num_rows states2 cooked2 frames2)).
Proof.
  intros Hcfg Hr Hc Hlc1 Hlc2 Hbit Hall i.
  assert (Hw : (MATRIX_COLS <= ROW_BITS)%nat) by (destruct Hcfg as [[? ?] ?]; assumption).
  split; [|split].
  - intros e1 e2 Hre1 Hre2 Hcnt.
    destruct (Asym.asym_reached_counts num_rows e1 Hcfg Hre1) as [Hag1 Hok1].
    destruct (Asym.asym_reached_counts num_rows e2 Hcfg Hre2) as [Hag2 Hok2].
    apply (asym_same_at num_rows r c frames1 frames2 Hcfg Hr Hc Hall); assumption.
  - intros e1 e2 Hn Hre1 Hre2 Hrem.
    pose proof (Sparse.sparse_reached_ok num_rows e1 Hcfg Hn Hre1) as Hok1.
    pose proof (Sparse.sparse_reached_ok num_rows e2 Hcfg Hn Hre2) as Hok2.
    apply (sparse_same_at num_rows r c frames1 frames2 Hcfg Hr Hc Hall); assumption.
  - intros raw_ptr states1 states2 Hl1 Hl2 Hkey.
    apply (fancy_same_at raw_ptr num_rows r c frames1 frames2 Hw Hr Hc Hall); assumption.
Qed.

(** The theorem at work on the quiescing strategy: key (0, 1) is
    reported the same whether it is pressed alone or together with
    its two neighbours. *)
Lemma key_output_depends_on_own_input_witness :
  same_bit O 1
    (@Fancy.cooked_trace fancy_default 8192 1 (Fancy.key_states fancy_fresh) [0]
       (replicate 7 {| f_elapsed := 1; f_raw := [2]; f_changed := true |}))
    (@Fancy.cooked_trace fancy_default 8192 1 (Fancy.key_states fancy_fresh) [0]
       (replicate 7 {| f_elapsed := 1; f_raw := [7]; f_changed := true |})).
Proof.
  destruct (@key_output_depends_on_own_input fancy_default 1 O 1%nat
              (replicate 7 {| f_elapsed := 1; f_raw := [2]; f_changed := true |})
              (replicate 7 {| f_elapsed := 1; f_raw := [7]; f_changed := true |})
              [0] [0] fancy_default_ok ltac:(lia) ltac:(simpl; lia) eq_refl eq_refl eq_refl
              ltac:(repeat constructor; simpl; lia)) as (_ & _ & Hfancy).
  apply Hfancy; reflexivity.
Defined.
